(** * IOTSCP device runtime: a shallow embedding and its verified properties

    The development follows the layout of the Python package:

    - [py]: the fragment of Python's data and exception model that the
      embedded functions rely on (exceptions, [bytearray] item access,
      JSON-like values);
    - [utils], [scsession], [event_dispatcher], [services], [basedevice]:
      the modules of [iotscp/] and [iotscp/core/];
    - [text]: [str] operations and the two regular expressions of the HTTP
      engine, as backtracking matchers;
    - [httputil], [serverclient], [httpserver], [udpserver]: the modules of
      [iotscp/http/];
    - [doubles]: concrete instances of the library interfaces and concrete
      requests, on which the embedding is evaluated.

    Part I holds the embedding, Parts II and III the theorems.  Exceptions
    are values of [result]; a method of a session is a function of the
    session that returns an outcome and the session it leaves, so that a
    state change made before an exception is kept.  A socket is the byte stream of the peer
    with the sizes of the coming reads, so that a theorem can range over
    every way the stream is cut into reads. *)

From Stdlib Require Import ZArith QArith Qround String Ascii List Lia.
From Stdlib Require Import DecimalString.
From stdpp Require Import base option list gmap strings.

Local Open Scope Z_scope.
Set Warnings "-register-all".

(* ===================================================================== *)
(** * Part I: the embedding                                              *)
(* ===================================================================== *)

(** ** Python values, exceptions and byte arrays *)

Module py.

(** The key carried by a [KeyError]. *)
Inductive key_repr :=
| KStr (s : string)
| KInt (z : Z).

(** The exceptions that the embedded code can raise. *)
Inductive exn :=
| KeyError (k : key_repr)
| IndexError
| ValueError
| TypeError
| UnicodeDecodeError
| UnboundLocalError (name : string)
| ServiceArgError (msg : string)
| ServiceMethodError (msg : string)
| HeaderTypeError (key : string)
| HTTPError (msg : string)
| NullRequestError
| VersionError
| NoHandleError (req_type : string)
| NullCertificateError
| SocketError
| OtherError (msg : string).

(** A computation either returns or raises. *)
Inductive result (A : Type) :=
| Ok (a : A)
| Raise (e : exn).
Arguments Ok {A} a.
Arguments Raise {A} e.

Definition rbind {A B} (c : result A) (k : A -> result B) : result B :=
  match c with
  | Ok a => k a
  | Raise e => Raise e
  end.

Definition is_byte (b : Z) : Prop := 0 <= b < 256.
Definition is_byteb (b : Z) : bool := (0 <=? b) && (b <? 256).

(** A [bytearray] is a list of integers; every write checks [range(256)]. *)
Abbreviation bytearray := (list Z).

(** [a[i]]: negative indices count from the end, others raise. *)
Definition getitem {A} (a : list A) (i : Z) : result A :=
  let n := Z.of_nat (length a) in
  let j := if i <? 0 then i + n else i in
  if (0 <=? j) && (j <? n)
  then match a !! Z.to_nat j with
       | Some x => Ok x
       | None => Raise IndexError
       end
  else Raise IndexError.

(** [a[i] = v] on a [bytearray]. *)
Definition setitem (a : bytearray) (i : Z) (v : Z) : result bytearray :=
  let n := Z.of_nat (length a) in
  let j := if i <? 0 then i + n else i in
  if (0 <=? j) && (j <? n)
  then if is_byteb v then Ok (<[Z.to_nat j := v]> a) else Raise ValueError
  else Raise IndexError.

(** The types a [ServiceArg] may declare: the keys of [__type_map]. *)
Inductive pytype := TBool | TDict | TFloat | TInt | TList | TStr.

(** The values that travel in argument and result bags. *)
Inductive value :=
| VNone
| VBool (b : bool)
| VInt (z : Z)
| VFloat (q : Q)
| VStr (s : string)
| VList (l : list value)
| VDict (d : list (string * value)).

(** [isinstance(v, t)]; [bool] is a subclass of [int]. *)
Definition isinstance (v : value) (t : pytype) : bool :=
  match v, t with
  | VBool _, TBool | VBool _, TInt => true
  | VInt _, TInt => true
  | VFloat _, TFloat => true
  | VStr _, TStr => true
  | VList _, TList => true
  | VDict _, TDict => true
  | _, _ => false
  end.

(** [repr] of a type object and of the type of a value, for the messages. *)
Definition type_repr (t : pytype) : string :=
  match t with
  | TBool => "<type 'bool'>"
  | TDict => "<type 'dict'>"
  | TFloat => "<type 'float'>"
  | TInt => "<type 'int'>"
  | TList => "<type 'list'>"
  | TStr => "<type 'str'>"
  end.

Definition type_of_repr (v : value) : string :=
  match v with
  | VNone => "<type 'NoneType'>"
  | VBool _ => "<type 'bool'>"
  | VInt _ => "<type 'int'>"
  | VFloat _ => "<type 'float'>"
  | VStr _ => "<type 'str'>"
  | VList _ => "<type 'list'>"
  | VDict _ => "<type 'dict'>"
  end.

(** [d[k]] on a [dict] read from JSON text: the last binding of [k]. *)
Definition dict_lookup (k : string) (d : list (string * value)) : option value :=
  snd <$> List.find (fun kv => String.eqb kv.1 k) (rev d).

(** [v[k]] for a text key [k]: only a [dict] can be subscripted that way. *)
Definition subscript (v : value) (k : string) : result value :=
  match v with
  | VDict d =>
      match dict_lookup k d with
      | Some x => Ok x
      | None => Raise (KeyError (KStr k))
      end
  | _ => Raise TypeError
  end.

(** [x in s] on text. *)
Fixpoint is_substring (x s : string) : bool :=
  if String.prefix x s then true
  else match s with
       | String _ s' => is_substring x s'
       | EmptyString => false
       end.

(** [x in container] for text [x]. *)
Definition contains (container : value) (x : string) : result bool :=
  match container with
  | VList l =>
      Ok (existsb (fun v => match v with
                            | VStr s => String.eqb s x
                            | _ => false
                            end) l)
  | VStr s => Ok (is_substring x s)
  | VDict d => Ok (existsb (fun kv => String.eqb kv.1 x) d)
  | _ => Raise TypeError
  end.

(** The argument of an exception, as a value ([ke.message]). *)
Definition value_of_key (k : key_repr) : value :=
  match k with
  | KStr s => VStr s
  | KInt z => VInt z
  end.

(** [enumerate(l)] *)
Definition enumerate {A} (l : list A) : list (nat * A) := imap pair l.

(** [range(n)] as integers. *)
Definition range (n : nat) : list Z := Z.of_nat <$> seq 0 n.

End py.

Import py.

#[global] Instance result_ret : MRet result := @Ok.
#[global] Instance result_bind : MBind result := fun A B k c => rbind c k.

(** ** iotscp/utils.py *)

Module utils.

Definition sorted_algs : list string :=
  ["sha512"; "SHA512"; "sha384"; "SHA384"; "whirlpool"; "WHIRLPOOL";
   "sha256"; "SHA256"; "sha224"; "SHA224"; "ripemd160"; "RIPEMD160";
   "sha"; "SHA"; "md5"; "MD5"; "sha1"; "SHA1"; "dsa"; "DSA";
   "md4"; "MD4"]%string.

(** Returns an organized list of this machine's hashing algorithms;
    [algorithms] is the list [hashlib] offers. *)
Definition get_algorithms (algorithms : list string) : list string :=
  filter (fun alg => alg ∈ algorithms) sorted_algs.

(** The characters that [verify_str] allows when it is given no list. *)
Definition default_allowed : list ascii :=
  list_ascii_of_string
    "ABCDEFGHIJKLMNOPQRSTUVWXYZabcdefghijklmnopqrstuvwxyz0123456789_.-".

(** The set [allowed] that [verify_str] builds, as the list of its
    members: the whitelist is added first, the blacklist taken out last. *)
Definition allowed (blacklist whitelist : option (list ascii))
  : list ascii :=
  let allowed := default_allowed in
  let allowed :=
    match whitelist with
    | Some more => allowed ++ more
    | None => allowed
    end in
  match blacklist with
  | Some less => filter (fun c => c ∉ less) allowed
  | None => allowed
  end.

(** [verify_str(_str, str_name, blacklist, whitelist)] *)
Fixpoint verify_str (_str : string)
    (blacklist whitelist : option (list ascii)) : result unit :=
  match _str with
  | EmptyString => Ok tt
  | String c _str' =>
      if bool_decide (c ∈ allowed blacklist whitelist)
      then verify_str _str' blacklist whitelist
      else Raise ValueError
  end.

End utils.

(** ** iotscp/core/scsession.py *)

Module scsession.

(** the amount of time, in seconds, that a key is allowed to live *)
Definition KEY_TTL : Z := 5.

(** A step function where n = clamp * int(n / clamp) + clamp *)
Definition clamp_to (n clamp : Z) : Z := n - (n mod clamp) + clamp.

(** Exchanging the entries at [i] and [j], as two item assignments. *)
Definition list_swap (i j : nat) (l : bytearray) : bytearray :=
  match l !! i, l !! j with
  | Some x, Some y => <[j := x]> (<[i := y]> l)
  | _, _ => l
  end.

(** The cipher after the turns [i], ..., [i + n - 1] of the loop of
    [__randomize] under [key]: one exchange per turn. *)
Fixpoint shuffle (key : bytearray) (i n : nat) (c : bytearray) : bytearray :=
  match n with
  | O => c
  | S n' =>
      shuffle key (S i) n' (list_swap i (Z.to_nat (default 0 (key !! i))) c)
  end.

(** The exchange of the indices [i] and [j]. *)
Definition transpose (i j k : nat) : nat :=
  if decide (k = i) then j else if decide (k = j) then i else k.

(** A key as [pbkdf2_hmac] is asked for: 256 bytes. *)
Definition key_shaped (k : bytearray) : Prop :=
  length k = 256%nat /\ Forall is_byte k.

(** A cipher is a permutation of the byte values. *)
Definition is_permutation (c : bytearray) : Prop := c ≡ₚ range 256.

(** [hashlib]: the list [algorithms] of the hash names on offer, and the
    primitive [pbkdf2_hmac(name, password, salt, iterations, dklen)], of
    which the embedding uses only that it is a function returning [dklen]
    bytes.  The salt argument is the number whose [str] rendering the code
    passes. *)
Class Hashlib := {
  algorithms : list string;
  pbkdf2_hmac : string -> bytearray -> Z -> Z -> nat -> bytearray;
  pbkdf2_hmac_length :
    forall name pw salt iters dklen,
      length (pbkdf2_hmac name pw salt iters dklen) = dklen;
  pbkdf2_hmac_bytes :
    forall name pw salt iters dklen,
      Forall is_byte (pbkdf2_hmac name pw salt iters dklen)
}.

(** The [utf-8] codec of the Python library; [unicode] text is a list of
    code points. *)
Abbreviation unicode := (list Z) (only parsing).

Class Codec := {
  utf8_decode : bytearray -> option unicode;
  utf8_encode : unicode -> bytearray
}.

(** The certificate object handed to a session: the code only calls
    [cert.get_key_segment()]. *)
Record SCCertificate := {
  get_key_segment : bytearray
}.

(** The fields of [SCSession].  [start] is the reading of [time()] taken by
    [Instant()] in [__init__].  [randomized] is a ghost counter of the calls
    to [__randomize]; no code reads it. *)
Record SCSession := {
  cert : SCCertificate;
  hashtype : string;
  cipher : bytearray;
  prev_key : bytearray;
  start : Q;
  new_key : bytearray;
  randomized : nat
}.

Definition set_cipher (c : bytearray) (s : SCSession) : SCSession :=
  {| cert := cert s; hashtype := hashtype s; cipher := c;
     prev_key := prev_key s; start := start s; new_key := new_key s;
     randomized := randomized s |}.

Definition set_new_key (k : bytearray) (s : SCSession) : SCSession :=
  {| cert := cert s; hashtype := hashtype s; cipher := cipher s;
     prev_key := prev_key s; start := start s; new_key := k;
     randomized := randomized s |}.

Definition set_prev_key (k : bytearray) (s : SCSession) : SCSession :=
  {| cert := cert s; hashtype := hashtype s; cipher := cipher s;
     prev_key := k; start := start s; new_key := new_key s;
     randomized := randomized s |}.

Definition count_randomize (s : SCSession) : SCSession :=
  {| cert := cert s; hashtype := hashtype s; cipher := cipher s;
     prev_key := prev_key s; start := start s; new_key := new_key s;
     randomized := S (randomized s) |}.

(** Methods run on the session object: a state that survives an exception. *)
Definition M (A : Type) : Type := SCSession -> result A * SCSession.

Definition ret {A} (a : A) : M A := fun s => (Ok a, s).
Definition throw {A} (e : exn) : M A := fun s => (Raise e, s).
Definition bind {A B} (c : M A) (k : A -> M B) : M B :=
  fun s => match c s with
           | (Ok a, s') => k a s'
           | (Raise e, s') => (Raise e, s')
           end.
Definition lift {A} (r : result A) : M A := fun s => (r, s).

#[global] Instance session_ret : MRet M := @ret.
#[global] Instance session_bind : MBind M := fun A B k c => bind c k.

(** [for i in range(n): body(i)], the shape of [i = 0; while i < n: ...; i += 1]. *)
Fixpoint for_range (body : nat -> M unit) (i n : nat) : M unit :=
  match n with
  | O => ret tt
  | S n' => body i ;; for_range body (S i) n'
  end.

Section WithLibrary.
Context `{Hashlib} `{Codec}.

Definition ALGORITHMS : list string := utils.get_algorithms algorithms.

(** The loop [for alg in ALGORITHMS] of [get_common_algorithm]. *)
Fixpoint first_common (algs : list string) (external : value) : result string :=
  match algs with
  | [] => Raise ValueError
  | alg :: algs' =>
      b ← contains external alg;
      if (b : bool) then Ok alg else first_common algs' external
  end.

(** Get either this device's prefered algorithm, or the best one shared
    between the device and the other host. *)
Definition get_common_algorithm (external : value) (prefered : option string)
  : result string :=
  match prefered with
  | Some p =>
      b ← contains external p;
      if (b : bool) then Ok p else first_common ALGORITHMS external
  | None => first_common ALGORITHMS external
  end.

(** [Instant.elapsed()] at clock reading [now]. *)
Definition elapsed (s : SCSession) (now : Q) : Q := (now - start s)%Q.

Definition get_next_segment_time (s : SCSession) (now : Q) : Z :=
  clamp_to (Qceiling (elapsed s now)) KEY_TTL.

Definition fresh_key (hashtype : string) (cert : SCCertificate) (now : Q)
  : bytearray :=
  pbkdf2_hmac hashtype (get_key_segment cert)
              (clamp_to (Qceiling now) KEY_TTL) 10000 256.

(** generate a new key from the old one and how long the session has been
    alive *)
Definition derived_key (s : SCSession) (now : Q) : bytearray :=
  pbkdf2_hmac (hashtype s) (prev_key s) (get_next_segment_time s now) 100 256.

(** [SCSession.__init__]: [now0] is the reading of [time()] in
    [__fresh_key], [now1] the one in [Instant()], [now2] the one in the first
    [__derived_key]. *)
Definition init (cert : SCCertificate) (hashtype : string) (now0 now1 now2 : Q)
  : SCSession :=
  let s0 := {| cert := cert; hashtype := hashtype; cipher := range 256;
               prev_key := fresh_key hashtype cert now0; start := now1;
               new_key := []; randomized := 0 |} in
  set_new_key (derived_key s0 now2) s0.

Definition get_key (now : Q) : M bytearray :=
  fun s => let key := derived_key s now in (Ok key, set_new_key key s).

Definition cipher_get (i : Z) : M Z := fun s => (getitem (cipher s) i, s).

Definition cipher_set (i v : Z) : M unit :=
  fun s => match setitem (cipher s) i v with
           | Ok c => (Ok tt, set_cipher c s)
           | Raise e => (Raise e, s)
           end.

(** The body of the loop of [__randomize]:
    [old = cipher[i]; cipher[i] = cipher[key[i]]; cipher[key[i]] = old]. *)
Definition randomize_step (key : bytearray) (i : nat) : M unit :=
  old ← cipher_get (Z.of_nat i);
  ki ← lift (getitem key (Z.of_nat i));
  v ← cipher_get ki;
  cipher_set (Z.of_nat i) v;;
  ki' ← lift (getitem key (Z.of_nat i));
  cipher_set ki' old.

Definition count_call : M unit := fun s => (Ok tt, count_randomize s).

Definition randomize (now : Q) : M unit :=
  count_call;;
  key ← get_key now;
  for_range (randomize_step key) 0 256.

(** The guard [if self.__prev_key == self.__new_key: self.__randomize()]. *)
Definition randomize_if_committed (now : Q) : M unit :=
  fun s => if bool_decide (prev_key s = new_key s)
           then randomize now s
           else (Ok tt, s).

(** [i = 0; while i < len(buf): buf[i] = f(i, buf[i]); i += 1].  An item
    assignment leaves [len(buf)] unchanged, so the loop runs [len(buf)]
    times. *)
Fixpoint inplace_loop (f : nat -> Z -> M Z) (i n : nat) (buf : bytearray)
  : M bytearray :=
  match n with
  | O => ret buf
  | S n' =>
      x ← lift (getitem buf (Z.of_nat i));
      y ← f i x;
      buf' ← lift (setitem buf (Z.of_nat i) y);
      inplace_loop f (S i) n' buf'
  end.

(** The argument of [encrypt]: a [bytearray], or text to be encoded. *)
Inductive plaintext :=
| Bytes (b : bytearray)
| Text (u : unicode).

(** [self.cipher[input_u8[i]] ^ self.cipher[i%256]] *)
Definition encrypt_byte (i : nat) (x : Z) : M Z :=
  a ← cipher_get x;
  b ← cipher_get (Z.of_nat i mod 256);
  ret (Z.lxor a b).

Definition encrypt (now : Q) (input : plaintext) : M bytearray :=
  randomize_if_committed now;;
  let input_u8 := match input with
                  | Bytes b => b
                  | Text u => utf8_encode u
                  end in
  inplace_loop encrypt_byte 0 (length input_u8) input_u8.

(** [{b:i for i, b in enumerate(self.cipher)}]: a later entry overwrites an
    earlier one with the same key. *)
Definition key_map (c : bytearray) : gmap Z nat :=
  foldl (fun m ib => <[ib.2 := ib.1]> m) ∅ (enumerate c).

Definition dict_getitem (m : gmap Z nat) (k : Z) : result Z :=
  match m !! k with
  | Some i => Ok (Z.of_nat i)
  | None => Raise (KeyError (KInt k))
  end.

(** [key_map[input_u8[i] ^ self.cipher[i%256]]] *)
Definition decrypt_byte (km : gmap Z nat) (i : nat) (x : Z) : M Z :=
  b ← cipher_get (Z.of_nat i mod 256);
  lift (dict_getitem km (Z.lxor x b)).

Definition decode (b : bytearray) : result unicode :=
  match utf8_decode b with
  | Some u => Ok u
  | None => Raise UnicodeDecodeError
  end.

Definition read_cipher : M bytearray := fun s => (Ok (cipher s), s).

Definition decrypt (now : Q) (input_u8 : bytearray) : M unicode :=
  randomize_if_committed now;;
  c ← read_cipher;
  let km := key_map c in
  out ← inplace_loop (decrypt_byte km) 0 (length input_u8) input_u8;
  lift (decode out).

(** What [encrypt] stores at position [i] for the input byte [x]. *)
Definition enc_byte (c : bytearray) (i : nat) (x : Z) : Z :=
  Z.lxor (default 0 (c !! Z.to_nat x))
         (default 0 (c !! Z.to_nat (Z.of_nat i mod 256))).

(** What [decrypt] stores at position [i] for the input byte [y]. *)
Definition dec_byte (c : bytearray) (i : nat) (y : Z) : Z :=
  match key_map c
          !! Z.lxor y (default 0 (c !! Z.to_nat (Z.of_nat i mod 256))) with
  | Some k => Z.of_nat k
  | None => 0
  end.

Definition update_key : M unit :=
  fun s => (Ok tt, set_prev_key (new_key s) s).

(** A call made on a session by its owner. *)
Inductive call :=
| Encrypt (now : Q) (input : plaintext)
| Decrypt (now : Q) (input_u8 : bytearray)
| UpdateKey.


(** The session left behind by one call, whether it returned or raised. *)
Definition after (c : call) (s : SCSession) : SCSession :=
  match c with
  | Encrypt now input => (encrypt now input s).2
  | Decrypt now input_u8 => (decrypt now input_u8 s).2
  | UpdateKey => (update_key s).2
  end.

Definition run (cs : list call) (s : SCSession) : SCSession :=
  foldl (fun s c => after c s) s cs.

(** The session in which the body of [encrypt] and [decrypt] runs: the one
    left by the guard on the keys. *)
Definition keyed (now : Q) (s : SCSession) : SCSession :=
  (randomize_if_committed now s).2.

(** A session as its owner can hold it: built by [__init__], then used
    through [cs]. *)
Definition history (cert : SCCertificate) (hashtype : string)
    (now0 now1 now2 : Q) (cs : list call) : SCSession :=
  run cs (init cert hashtype now0 now1 now2).

(** A session that [__init__] and the calls of its owner can produce. *)
Definition reachable (s : SCSession) : Prop :=
  exists cert hashtype now0 now1 now2 cs,
    s = history cert hashtype now0 now1 now2 cs.

(** Two sessions, one on each host, that agree on the cipher and on both
    keys. *)
Definition in_step (a b : SCSession) : Prop :=
  cipher a = cipher b /\ prev_key a = prev_key b /\ new_key a = new_key b.

End WithLibrary.

End scsession.

(** ** iotscp/core/event_dispatcher.py *)

Module event_dispatcher.

(** The address of a subscriber: host and port. *)
Abbreviation address := (string * Z)%type.

(** [self.subscribers]: for each event URL, the list of the subscribed
    addresses. *)
Abbreviation subscribers_dict := (gmap string (list address)).

(** [add_subscriber(event_url, sub_addr)] *)
Definition add_subscriber (subscribers : subscribers_dict)
    (event_url : string) (sub_addr : address) : subscribers_dict :=
  match subscribers !! event_url with
  | Some subs =>
      if bool_decide (sub_addr ∈ subs) then subscribers
      else <[event_url := subs ++ [sub_addr]]> subscribers
  | None => <[event_url := [sub_addr]]> subscribers
  end.

(** [subs.remove(x)] on a list that holds [x]: the first occurrence goes. *)
Fixpoint list_remove_first (x : address) (subs : list address)
  : list address :=
  match subs with
  | [] => []
  | y :: subs' =>
      if bool_decide (y = x) then subs' else y :: list_remove_first x subs'
  end.

(** The loop over [self.subscribers.values()] that ends [_event_loop]: the
    address of the closed connection is taken out of every list that holds
    it. *)
Definition remove_subscriber (subscribers : subscribers_dict)
    (sub_addr : address) : subscribers_dict :=
  (fun subs =>
     if bool_decide (sub_addr ∈ subs) then list_remove_first sub_addr subs
     else subs) <$> subscribers.

(** Every list of subscribers is free of duplicates. *)
Definition no_duplicates (subscribers : subscribers_dict) : Prop :=
  map_Forall (fun _ subs => NoDup subs) subscribers.

(** [self.event_loops]: the channel of each open connection, as the queue
    of the events sent into it. *)
Abbreviation channels event := (gmap address (list event)).

Section Dispatcher.

(** The events, and the state of the network as the dispatcher sees it. *)
Context {event net : Type}.

Record EventDispatcher := {
  subscribers : subscribers_dict;
  event_loops : channels event
}.

(** [EventDispatcher.__init__] *)
Definition EventDispatcher_init : EventDispatcher :=
  {| subscribers := ∅; event_loops := ∅ |}.

(** Opening the connection ([socket.socket()], [connect], [setblocking])
    returns or raises.  [send_event_http] catches what it raises and
    returns the keep-alive flag, when it returns: it reads the response of
    the subscriber with [get_head] and [recv_body], whose loops do not end
    when the subscriber stops sending in the middle of a response.  [None]
    stands for a call that does not return. *)
Variable connect : address -> net -> result unit * net.
Variable send_event_http : event -> address -> net -> option (bool * net).

(** [_send_event(sub_addr, event)]; [None] when [send_event_http] does not
    return.  The thread that consumes the channel is not part of the model:
    a channel is the queue of what was sent. *)
Definition _send_event (loops : channels event) (sub_addr : address)
    (ev : event) (w : net) : option (result unit * channels event * net) :=
  match loops !! sub_addr with
  | None =>
      match connect sub_addr w with
      | (Raise e, w') => Some (Raise e, loops, w')
      | (Ok _, w') =>
          match send_event_http ev sub_addr w' with
          | Some (keep_alive, w'') =>
              if (keep_alive : bool)
              then Some (Ok tt, <[sub_addr := []]> loops, w'')
              else Some (Ok tt, loops, w'')
          | None => None
          end
      end
  | Some queue => Some (Ok tt, <[sub_addr := queue ++ [ev]]> loops, w)
  end.

(** The [while] loop of [send_event]: [i] is the index, [subs] the list
    that the loop shortens in place.  [None] when an attempt does not
    return, or when the fuel runs out. *)
Fixpoint send_event_loop (fuel : nat) (ev : event) (i : nat)
    (subs : list address) (loops : channels event) (w : net)
  : option (list address * channels event * net) :=
  match fuel with
  | O => None
  | S fuel' =>
      match subs !! i with
      | None => Some (subs, loops, w)
      | Some sub_addr =>
          match _send_event loops sub_addr ev w with
          | Some (Ok _, loops', w') =>
              send_event_loop fuel' ev (S i) subs loops' w'
          | Some (Raise _, loops', w') =>
              send_event_loop fuel' ev i (delete i subs) loops' w'
          | None => None
          end
      end
  end.

(** [send_event(event_url, event)]; the list in the dictionary is the one
    the loop works on. *)
Definition send_event (d : EventDispatcher) (event_url : string) (ev : event)
    (w : net) : option (result unit * EventDispatcher * net) :=
  match subscribers d !! event_url with
  | None => Some (Raise (KeyError (KStr event_url)), d, w)
  | Some subs =>
      match send_event_loop (S (length subs)) ev 0 subs (event_loops d) w with
      | Some (subs', loops', w') =>
          Some (Ok tt,
                {| subscribers := <[event_url := subs']> (subscribers d);
                   event_loops := loops' |},
                w')
      | None => None
      end
  end.

(** The reading of [send_event] that the theorems compare the loop with:
    one attempt for each subscriber, in the order of the list, and the
    subscribers whose attempt raised are dropped.  It has no fuel: [None]
    when an attempt does not return, and only then. *)
Fixpoint one_attempt_each (ev : event) (subs : list address)
    (loops : channels event) (w : net)
  : option (list address * channels event * net) :=
  match subs with
  | [] => Some ([], loops, w)
  | sub_addr :: subs' =>
      match _send_event loops sub_addr ev w with
      | Some (Ok _, loops', w') =>
          match one_attempt_each ev subs' loops' w' with
          | Some (kept, loops'', w'') => Some (sub_addr :: kept, loops'', w'')
          | None => None
          end
      | Some (Raise _, loops', w') => one_attempt_each ev subs' loops' w'
      | None => None
      end
  end.

End Dispatcher.

Arguments EventDispatcher : clear implicits.

End event_dispatcher.

(** ** iotscp/core/services.py *)

Module services.

(** [ServiceArg]: the tuple [(name, type)]. *)
Definition ServiceArg : Type := string * pytype.

(** A keyed bag: the [dict] of arguments or of results. *)
Abbreviation bag := (gmap string value).

(** What running a method leaves behind: the bags its thunk was called on,
    in order. *)
Definition calls := list bag.

Section Method.
Variable Device : Type.

(** [ServiceMethod]: the thunk returns a bag, or [None], or raises. *)
Record ServiceMethod := {
  name : string;
  thunk : Device -> bag -> result (option bag);
  args : list ServiceArg;
  returns : list ServiceArg
}.

(** The loop of [verify_output] over [self.returns]. *)
Fixpoint verify_returns (rs : list ServiceArg) (output : bag) : result unit :=
  match rs with
  | [] => Ok tt
  | (arg, _type) :: rs' =>
      match output !! arg with
      | None => Raise (ServiceMethodError ("Missing return value: " ++ arg))
      | Some v =>
          if negb (isinstance v _type)
          then Raise (ServiceMethodError
                        ("Type mismatch error at `" ++ arg ++ "`: expected "
                         ++ type_repr _type ++ ", got " ++ type_of_repr v
                         ++ " in return value"))
          else verify_returns rs' output
      end
  end.

Definition verify_output (m : ServiceMethod) (output : option bag)
  : result unit :=
  match output with
  | Some out => verify_returns (returns m) out
  | None =>
      Raise (ServiceMethodError ("Expected return value from " ++ name m))
  end.

(** The loop of [main] over [self.args].  The second test is
    [isinstance(arg, _type)], on the declared name [arg], a [str]. *)
Fixpoint check_args (decl : list ServiceArg) (args_dict : bag) : result unit :=
  match decl with
  | [] => Ok tt
  | (arg, _type) :: decl' =>
      match args_dict !! arg with
      | None => Raise (ServiceArgError ("Missing arguments: " ++ arg))
      | Some _ =>
          if negb (isinstance (VStr arg) _type)
          then Raise (ServiceArgError
                        ("Type mismatch error at `" ++ arg ++ "`: expected "
                         ++ type_repr _type ++ ", got "
                         ++ type_of_repr (VStr arg)))
          else check_args decl' args_dict
      end
  end.

(** [ServiceMethod.main]: the outcome, and the calls made to the thunk. *)
Definition main (m : ServiceMethod) (device : Device) (args_dict : bag)
  : result (option bag) * calls :=
  match check_args (args m) args_dict with
  | Raise e => (Raise e, [])
  | Ok _ =>
      match thunk m device args_dict with
      | Raise e => (Raise e, [args_dict])
      | Ok output =>
          match verify_output m output with
          | Raise e => (Raise e, [args_dict])
          | Ok _ => (Ok output, [args_dict])
          end
      end
  end.

(** The validation the documentation of arguments asks for: every declared
    name is bound in the bag, to a value of the declared type. *)
Definition conforms (decl : list ServiceArg) (args_dict : bag) : bool :=
  forallb (fun d : ServiceArg =>
             match args_dict !! d.1 with
             | Some v => isinstance v d.2
             | None => false
             end) decl.

End Method.

Arguments name {Device} _.
Arguments thunk {Device} _.
Arguments args {Device} _.
Arguments returns {Device} _.
Arguments verify_output {Device} _ _.
Arguments main {Device} _ _ _.

(** [ServiceEvent]: [sends] is the dict [{arg.name: arg for arg in sends}]
    built by [__init__] from the declared list. *)
Record ServiceEvent := {
  event_name : string;
  sends : gmap string ServiceArg
}.

Definition ServiceEvent_init (name : string) (declared : list ServiceArg)
  : ServiceEvent :=
  {| event_name := name;
     sends := foldl (fun d arg => <[arg.1 := arg]> d) ∅ declared |}.

(** [ServiceEvent.validate(kwargs)]: the loop over [kwargs.items()], in the
    order in which the dict yields its items. *)
Fixpoint validate (ev : ServiceEvent) (items : list (string * value))
  : result unit :=
  match items with
  | [] => Ok tt
  | (k, arg) :: items' =>
      match sends ev !! k with
      | None =>
          Raise (ServiceArgError ("Invalid event argument `" ++ k ++ "`"))
      | Some d =>
          if negb (isinstance arg d.2)
          then Raise (ServiceArgError
                        ("Type mismatch error at `" ++ k ++ "`: expected "
                         ++ type_repr d.2 ++ ", got " ++ type_of_repr arg))
          else validate ev items'
      end
  end.

Section Service.
Import event_dispatcher.
Context {net : Type}.
Variable connect : address -> net -> result unit * net.
Variable send_event_http : bag -> address -> net -> option (bool * net).

(** [Service.send_event(event_name, **kwargs)] of a service with the events
    [events] and the event URL [event_url], on the dispatcher [d].  The
    items of [kwargs] are validated in the order in which the dict yields
    them; the event that goes to the dispatcher is [kwargs] with its [name]
    set. *)
Definition Service_send_event (events : gmap string ServiceEvent)
    (event_url : string) (d : EventDispatcher bag)
    (event_name : string) (kwargs : bag) (w : net)
  : option (result unit * EventDispatcher bag * net) :=
  match subscribers d !! event_url with
  | Some _ =>
      match events !! event_name with
      | None => Some (Raise ValueError, d, w)
      | Some ev =>
          match validate ev (map_to_list kwargs) with
          | Raise e => Some (Raise e, d, w)
          | Ok _ =>
              send_event connect send_event_http d event_url
                (<["name"%string := VStr event_name]> kwargs) w
          end
      end
  | None => Some (Ok tt, d, w)
  end.

End Service.

End services.

(** ** Text: [str] values, ASCII decoding, the two regular expressions *)

Module text.

Definition CR : ascii := ascii_of_nat 13.
Definition LF : ascii := ascii_of_nat 10.
Definition CRLF : string := String CR (String LF EmptyString).

(** [bytes.decode("ascii")] *)
Definition decode_ascii (b : bytearray) : option string :=
  if forallb (fun x => (0 <=? x) && (x <? 128)) b
  then Some (string_of_list_ascii (map (fun x => ascii_of_nat (Z.to_nat x)) b))
  else None.

(** [str.encode("ascii")] on text of 7-bit characters. *)
Definition encode_ascii (s : string) : bytearray :=
  map (fun c => Z.of_nat (nat_of_ascii c)) (list_ascii_of_string s).

(** [str.lower()] on ASCII text. *)
Definition lower_char (c : ascii) : ascii :=
  let n := nat_of_ascii c in
  if (65 <=? n)%nat && (n <=? 90)%nat then ascii_of_nat (n + 32) else c.

Fixpoint lower (s : string) : string :=
  match s with
  | EmptyString => EmptyString
  | String c s' => String (lower_char c) (lower s')
  end.

(** [.] of [re]: any character except a newline. *)
Definition is_dot (c : ascii) : bool := negb (Ascii.eqb c LF).

(** [\s] of [re] on ASCII text: space, [\t], [\n], [\v], [\f], [\r]. *)
Definition is_space (c : ascii) : bool :=
  let n := nat_of_ascii c in
  (n =? 32)%nat || ((9 <=? n)%nat && (n <=? 13)%nat).

Definition is_digit (c : ascii) : bool :=
  let n := nat_of_ascii c in (48 <=? n)%nat && (n <=? 57)%nat.

(** A literal at the head of the subject: the rest of the subject. *)
Fixpoint lit (p s : string) : option string :=
  match p, s with
  | EmptyString, _ => Some s
  | String a p', String b s' => if Ascii.eqb a b then lit p' s' else None
  | String _ _, EmptyString => None
  end.

(** The group [(.+?)] followed by the rest [k] of the pattern: the matcher
    tries [k] after the shortest group first and lengthens the group by one
    character each time [k] fails.  [g] is the group so far. *)
Fixpoint lengthen {A} (k : string -> string -> option A) (g s : string)
  : option A :=
  match k g s with
  | Some r => Some r
  | None =>
      match s with
      | String c s' =>
          if is_dot c then lengthen k (g ++ String c EmptyString) s'
          else None
      | EmptyString => None
      end
  end.

Definition lazy_group {A} (k : string -> string -> option A) (s : string)
  : option A :=
  match s with
  | String c s' =>
      if is_dot c then lengthen k (String c EmptyString) s' else None
  | EmptyString => None
  end.

(** [\s*] followed by the rest [k] of the pattern: the longest run first. *)
Fixpoint spaces {A} (k : string -> option A) (s : string) : option A :=
  match s with
  | String c s' =>
      if is_space c
      then match spaces k s' with
           | Some r => Some r
           | None => k s
           end
      else k s
  | EmptyString => k s
  end.

(** [int(s)] on text: surrounding whitespace, an optional sign, digits. *)
Fixpoint strip_left (s : string) : string :=
  match s with
  | String c s' => if is_space c then strip_left s' else s
  | EmptyString => s
  end.

Fixpoint digits (acc : Z) (s : string) : option (Z * string) :=
  match s with
  | String c s' =>
      if is_digit c
      then digits (10 * acc + Z.of_nat (nat_of_ascii c - 48)) s'
      else Some (acc, s)
  | EmptyString => Some (acc, s)
  end.

Definition unsigned (s : string) : option Z :=
  match s with
  | String c _ =>
      if is_digit c
      then match digits 0 s with
           | Some (n, rest) =>
               match strip_left rest with
               | EmptyString => Some n
               | _ => None
               end
           | None => None
           end
      else None
  | EmptyString => None
  end.

Definition int_of_str (s : string) : option Z :=
  match strip_left s with
  | String "+" s' => unsigned s'
  | String "-" s' => Z.opp <$> unsigned s'
  | s' => unsigned s'
  end.

(** [bytes.find(sub)]: the lowest index where [sub] starts. *)
Fixpoint starts_with (sub l : bytearray) : bool :=
  match sub, l with
  | [], _ => true
  | a :: sub', b :: l' => (a =? b) && starts_with sub' l'
  | _ :: _, [] => false
  end.

Fixpoint find (sub l : bytearray) : option nat :=
  if starts_with sub l then Some O
  else match l with
       | [] => None
       | _ :: l' => S <$> find sub l'
       end.

(** The slice [l[a:b]] for indices in range. *)
Definition slice (l : bytearray) (a b : nat) : bytearray :=
  take (b - a) (drop a l).

(** Every character of [s] satisfies [p]. *)
Fixpoint all_chars (p : ascii -> bool) (s : string) : bool :=
  match s with
  | EmptyString => true
  | String c s' => p c && all_chars p s'
  end.

(** A character of a field of the request line: neither a line feed nor a
    space. *)
Definition is_word (c : ascii) : bool :=
  is_dot c && negb (Ascii.eqb " "%char c).

(** A character of the last field of a line: neither a line feed nor a
    carriage return. *)
Definition is_line (c : ascii) : bool :=
  is_dot c && negb (Ascii.eqb CR c).

End text.

(** ** iotscp/http/httpbase/httputil.py *)

Module httputil.
Import text.

(** All the HTTP header types that should be converted to integers *)
Definition NUMBER_TYPES : list string := ["content-length"%string].

(** The size of the byte buffers used to recv *)
Definition BUFSIZE : nat := 4096.

(** [RE_REQLINE]: three lazy groups of one or more characters, separated
    by single spaces and closed by CR LF; [RE_REQLINE.match] anchors the
    pattern at the start of the subject and yields the three groups. *)
Definition RE_REQLINE_match (s : string) : option (string * string * string) :=
  lazy_group (fun g1 r =>
    r1 ← lit " " r;
    lazy_group (fun g2 r =>
      r2 ← lit " " r;
      lazy_group (fun g3 r =>
        _ ← lit CRLF r;
        Some (g1, g2, g3)) r2) r1) s.

(** [RE_HEADERS]: a lazy group, a colon with a greedy run of whitespace, a
    lazy group, CR LF.  Matched at the start of the subject: the two groups
    and what follows the match. *)
Definition RE_HEADERS_match (s : string) : option (string * string * string) :=
  lazy_group (fun k r =>
    r1 ← lit ":" r;
    spaces (fun r2 =>
      lazy_group (fun v r3 =>
        rest ← lit CRLF r3;
        Some (k, v, rest)) r2) r1) s.

(** [RE_HEADERS.finditer(s)]: the matches from left to right, without
    overlap.  [skip] counts the characters still covered by the last
    match. *)
Fixpoint RE_HEADERS_finditer (skip : nat) (s : string)
  : list (string * string) :=
  match s with
  | EmptyString => []
  | String _ s' =>
      match skip with
      | S skip' => RE_HEADERS_finditer skip' s'
      | O =>
          match RE_HEADERS_match s with
          | Some (k, v, rest) =>
              (k, v)
              :: RE_HEADERS_finditer
                   (String.length s - String.length rest - 1) s'
          | None => RE_HEADERS_finditer O s'
          end
      end
  end.

(** A header value: text, or the integer of a numeric header. *)
Inductive header_value :=
| HStr (s : string)
| HInt (n : Z).

#[global] Instance header_value_eq_dec : EqDecision header_value.
Proof. solve_decision. Defined.

(** Attempts to parse an integer, raises HeaderTypeError upon encountering
    a ValueError. *)
Definition parse_number (key n : string) : result Z :=
  match int_of_str n with
  | Some z => Ok z
  | None => Raise (HeaderTypeError key)
  end.

(** Attempts to decode a bytearray, raises HTTPError upon decoding error. *)
Definition decode_http_head (head_u8 : bytearray) : result string :=
  match decode_ascii head_u8 with
  | Some s => Ok s
  | None => Raise (HTTPError "HTTP head contained invalid characters")
  end.

Abbreviation headers_dict := (gmap string header_value).

(** The loop of [parse_headers] over the matches. *)
Fixpoint collect_headers (ms : list (string * string)) (d : headers_dict)
  : result headers_dict :=
  match ms with
  | [] => Ok d
  | (k0, v0) :: ms' =>
      let k := lower k0 in
      if bool_decide (k ∈ NUMBER_TYPES)
      then n ← parse_number k v0; collect_headers ms' (<[k := HInt n]> d)
      else collect_headers ms' (<[k := HStr v0]> d)
  end.

Definition parse_headers (head_str : string) : result headers_dict :=
  collect_headers (RE_HEADERS_finditer O head_str) ∅.

(** A client socket, seen from the reader: the bytes the peer has sent and
    will send, and how many of them each coming call of [recv_into] has
    available.  A call with nothing scheduled raises [socket.error]. *)
Record socket := {
  stream : bytearray;
  reads : list nat
}.

(** [client.recv_into(buf)]: the count read and the buffer, overwritten
    from its start. *)
Definition recv_into (buf : bytearray) (client : socket)
  : result (nat * bytearray) * socket :=
  match reads client with
  | [] => (Raise SocketError, client)
  | n :: rs =>
      let amt := (n `min` (length buf `min` length (stream client)))%nat in
      (Ok (amt, take amt (stream client) ++ drop amt buf),
       {| stream := drop amt (stream client); reads := rs |})
  end.

Definition SEPARATOR : bytearray := [13; 10; 13; 10].

(** The [while len(recvd) < 65537] loop of [get_head]; every turn uses one
    scheduled read. *)
Fixpoint get_head_loop (rs : list nat) (st buf recvd : bytearray)
  : result (string * bytearray) * socket :=
  if Z.of_nat (length recvd) <? 65537
  then match rs with
       | [] => (Raise SocketError, {| stream := st; reads := [] |})
       | n :: rs' =>
           let amt := (n `min` (length buf `min` length st))%nat in
           let buf' := take amt st ++ drop amt buf in
           let st' := drop amt st in
           let recvd' := recvd ++ take amt buf' in
           match find SEPARATOR recvd' with
           | Some body_start =>
               (head ← decode_http_head (take (body_start + 2) recvd');
                Ok (head, drop (body_start + 4) recvd'),
                {| stream := st'; reads := rs' |})
           | None => get_head_loop rs' st' buf' recvd'
           end
       end
  else (Raise (HTTPError "HTTP head too long"),
        {| stream := st; reads := rs |}).

(** [get_head(client) -> (head_str, body_u8)] *)
Definition get_head (client : socket)
  : result (string * bytearray) * socket :=
  let buf := replicate BUFSIZE 0 in
  match recv_into buf client with
  | (Raise e, client') => (Raise e, client')
  | (Ok (amt, buf), client') =>
      let overflow :=
        get_head_loop (reads client') (stream client') buf buf in
      if (amt <? BUFSIZE)%nat
      then if (amt =? 0)%nat
           then (Raise NullRequestError, client')
           else match find SEPARATOR buf with
                | Some body_start =>
                    (head ← decode_http_head (take (body_start + 2) buf);
                     Ok (head, slice buf (body_start + 4) amt), client')
                | None => overflow
                end
      else overflow
  end.

(** [HttpHead]: the attributes set by [__init__]. *)
Record HttpHead := {
  head : string;
  body : bytearray;
  reqline : string * string * string;
  headers : headers_dict
}.

Definition set_body (b : bytearray) (h : HttpHead) : HttpHead :=
  {| head := head h; body := b; reqline := reqline h; headers := headers h |}.

Definition HttpHead_init (client : socket) : result HttpHead * socket :=
  match get_head client with
  | (Raise e, client') => (Raise e, client')
  | (Ok (hd, bd), client') =>
      (match RE_REQLINE_match hd with
       | None => Raise VersionError
       | Some rl =>
           hs ← parse_headers hd;
           Ok {| head := hd; body := bd; reqline := rl; headers := hs |}
       end, client')
  end.

(** The [while amt < nbytes] loop of [recv_body]: [amt] adds up the counts
    read, and each turn appends [buf[:amt]] to the body. *)
Fixpoint recv_body_loop (rs : list nat) (st buf : bytearray) (amt nbytes : Z)
    (bd : bytearray) : result bytearray * socket :=
  if amt <? nbytes
  then match rs with
       | [] => (Raise SocketError, {| stream := st; reads := [] |})
       | n :: rs' =>
           let got := (n `min` (length buf `min` length st))%nat in
           let buf' := take got st ++ drop got buf in
           let amt' := amt + Z.of_nat got in
           recv_body_loop rs' (drop got st) buf' amt' nbytes
                          (bd ++ take (Z.to_nat amt') buf')
       end
  else (Ok bd, {| stream := st; reads := rs |}).

(** [HttpHead.recv_body(client)] *)
Definition recv_body (h : HttpHead) (client : socket)
  : result HttpHead * socket :=
  match headers h !! "content-length"%string with
  | Some (HInt content_length) =>
      let body_len := Z.of_nat (length (body h)) in
      if body_len <? content_length
      then let nbytes := content_length - body_len in
           match recv_body_loop (reads client) (stream client)
                                (replicate BUFSIZE 0) 0 nbytes (body h) with
           | (Ok bd, client') => (Ok (set_body bd h), client')
           | (Raise e, client') => (Raise e, client')
           end
      else (Ok h, client)
  | Some (HStr _) =>
      (* [parse_headers] stores an integer under this key *)
      (Raise TypeError, client)
  | None => (Ok h, client)
  end.

(** [HttpRequest]: an [HttpHead] with [req_type, url, proto = reqline]. *)
Definition req_type (h : HttpHead) : string := (reqline h).1.1.
Definition url (h : HttpHead) : string := (reqline h).1.2.
Definition proto (h : HttpHead) : string := (reqline h).2.

Definition HttpRequest_init (client : socket) : result HttpHead * socket :=
  match HttpHead_init client with
  | (Raise e, client') => (Raise e, client')
  | (Ok h, client') =>
      if String.eqb (req_type h) "POST" then recv_body h client'
      else (Ok h, client')
  end.

(** The shape of a header dictionary: lower-case names, an integer under
    [content-length] and text under every other name. *)
Definition header_shaped (d : gmap string header_value) : Prop :=
  forall k v, d !! k = Some v ->
    lower k = k
    /\ (k = "content-length"%string -> exists n, v = HInt n)
    /\ (k <> "content-length"%string -> exists s, v = HStr s).

End httputil.

(** ** iotscp/http/httpbase/serverclient.py *)

Module serverclient.
Import text httputil.

(** The reason phrases of [RESPONSES]. *)
Definition RESPONSES (scode : Z) : option string :=
  match scode with
  | 100 => Some "Continue"
  | 101 => Some "Switching Protocols"
  | 200 => Some "OK"
  | 201 => Some "Created"
  | 202 => Some "Accepted"
  | 203 => Some "Non-Authoritative Information"
  | 204 => Some "No Content"
  | 205 => Some "Reset Content"
  | 206 => Some "Partial Content"
  | 300 => Some "Multiple Choices"
  | 301 => Some "Moved Permanently"
  | 302 => Some "Found"
  | 303 => Some "See Other"
  | 304 => Some "Not Modified"
  | 305 => Some "Use Proxy"
  | 307 => Some "Temporary Redirect"
  | 400 => Some "Bad Request"
  | 401 => Some "Unauthorized"
  | 402 => Some "Payment Required"
  | 403 => Some "Forbidden"
  | 404 => Some "Not Found"
  | 405 => Some "Method Not Allowed"
  | 406 => Some "Not Acceptable"
  | 407 => Some "Proxy Authentication Required"
  | 408 => Some "Request Timeout"
  | 409 => Some "Conflict"
  | 410 => Some "Gone"
  | 411 => Some "Length Required"
  | 412 => Some "Precondition Failed"
  | 413 => Some "Request Entity Too Large"
  | 414 => Some "Request-URI Too Long"
  | 415 => Some "Unsupported Media Type"
  | 416 => Some "Requested Range Not Satisfiable"
  | 417 => Some "Expectation Failed"
  | 500 => Some "Internal Server Error"
  | 501 => Some "Not Implemented"
  | 502 => Some "Bad Gateway"
  | 503 => Some "Service Unavailable"
  | 504 => Some "Gateway Timeout"
  | 505 => Some "HTTP Version Not Supported"
  | _ => None
  end.

(** A response put on the wire by [write_head] or [write_body]: the status
    line, the content headers, the [Connection] header ([keep-alive] when
    [connection] holds, [close] otherwise) and the body.  The [Date] header
    is left out.  Sending is taken to succeed: the [socket.error] that
    [sendall] can raise is not modelled, so that what is proved of a
    function that writes a response holds as long as the response can be
    sent. *)
Record response := {
  scode : Z;
  reason : string;
  content_type : option string;
  connection : bool;
  content : string
}.

Record ServerClient := {
  keep_alive : bool;
  req : HttpHead;
  ip : string;
  port : Z
}.

Definition set_keep_alive (b : bool) (sc : ServerClient) : ServerClient :=
  {| keep_alive := b; req := req sc; ip := ip sc; port := port sc |}.

(** [s.split(sep)] for a one-character separator. *)
Fixpoint split (sep : ascii) (s : string) : list string :=
  match s with
  | EmptyString => [EmptyString]
  | String c s' =>
      if Ascii.eqb c sep then EmptyString :: split sep s'
      else match split sep s' with
           | w :: ws => String c w :: ws
           | [] => [String c EmptyString]
           end
  end.

(** [s.split(sep, 1)]: at most one cut. *)
Fixpoint split_once (sep : ascii) (s : string) : list string :=
  match s with
  | EmptyString => [EmptyString]
  | String c s' =>
      if Ascii.eqb c sep then [EmptyString; s']
      else match split_once sep s' with
           | w :: ws => String c w :: ws
           | [] => [String c EmptyString]
           end
  end.

(** [tuple(int(n) for n in parts)] *)
Fixpoint ints (parts : list string) : result (list Z) :=
  match parts with
  | [] => Ok []
  | p :: ps =>
      match int_of_str p with
      | Some n => ns ← ints ps; Ok (n :: ns)
      | None => Raise ValueError
      end
  end.

(** [v >= w] on tuples of integers. *)
Fixpoint tuple_ge (v w : list Z) : bool :=
  match v, w with
  | _, [] => true
  | [], _ :: _ => false
  | a :: v', b :: w' => if a =? b then tuple_ge v' w' else b <? a
  end.

(** [ServerClient.__init__] *)
Definition ServerClient_init (rq : HttpHead) (addr : string * Z)
  : result ServerClient :=
  str_version ← getitem (split_once "/" (proto rq)) 1;
  version ← ints (split "." str_version);
  let ka :=
    tuple_ge version [1; 1]
    && match headers rq !! "connection"%string with
       | Some v => bool_decide (v = HStr "keep-alive")
       | None => false
       end in
  Ok {| keep_alive := ka; req := rq; ip := addr.1; port := addr.2 |}.

(** [write_head(scode)]: a head without content headers. *)
Definition write_head (sc : ServerClient) (code : Z) : result response :=
  match RESPONSES code with
  | Some phrase =>
      Ok {| scode := code; reason := phrase; content_type := None;
            connection := keep_alive sc; content := EmptyString |}
  | None => Raise (KeyError (KInt code))
  end.

(** [write_body(scode, ctype, body)] *)
Definition write_body (sc : ServerClient) (code : Z) (ctype body : string)
  : result response :=
  match RESPONSES code with
  | Some phrase =>
      Ok {| scode := code; reason := phrase; content_type := Some ctype;
            connection := keep_alive sc; content := body |}
  | None => Raise (KeyError (KInt code))
  end.

(** Decimal rendering of a status code. *)
Definition str_of_int (z : Z) : string :=
  DecimalString.NilZero.string_of_int (Z.to_int z).

(** [write_generic_body(scode)] with the default body. *)
Definition write_generic_body (sc : ServerClient) (code : Z) : result response :=
  match RESPONSES code with
  | Some phrase =>
      write_body sc code "text/html; charset=utf-8"
        ("<!DOCTYPE html><html><body><h1>" ++ str_of_int code ++ " " ++ phrase
         ++ "<h1></body></html>")
  | None => Raise (KeyError (KInt code))
  end.

End serverclient.

(** ** iotscp/http/httpbase/httpserver.py *)

Module httpserver.
Import text httputil serverclient.

(** What a verb handler does with the [ServerClient] it is given: the
    responses it writes, the client object as it leaves it, and the
    exception it ends with, if any. *)
Record handled := {
  wrote : list response;
  left : ServerClient;
  raised : option exn
}.

Definition handler := ServerClient -> handled.

(** [get_handle(req_type)] *)
Definition get_handle (handles : gmap string handler) (req_type : string)
  : result handler :=
  match handles !! req_type with
  | Some h => Ok h
  | None => Raise (NoHandleError req_type)
  end.

(** The outcome of [handle_one_request]: what it returns or raises, and the
    responses written to the client. *)
Definition outcome : Type := result bool * list response.

(** Reading the local variable [serverclient]: it is bound only once the
    assignment in the [try] body has run. *)
Definition local (serverclient : option ServerClient) : result ServerClient :=
  match serverclient with
  | Some sc => Ok sc
  | None => Raise (UnboundLocalError "serverclient")
  end.

(** The [except] clauses of the outer [try], entered with the exception [e]
    and the binding of [serverclient] at the point where [e] was raised. *)
Definition except_clauses (e : exn) (serverclient : option ServerClient)
  : outcome :=
  match e with
  | NullRequestError => (Ok false, [])
  | VersionError =>
      match local serverclient with
      | Raise e' => (Raise e', [])
      | Ok sc =>
          match write_generic_body (set_keep_alive false sc) 505 with
          | Ok r => (Ok false, [r])
          | Raise e' => (Raise e', [])
          end
      end
  | NoHandleError _ =>
      match local serverclient with
      | Raise e' => (Raise e', [])
      | Ok sc =>
          match write_generic_body sc 501 with
          | Ok r => (Ok true, [r])
          | Raise e' => (Raise e', [])
          end
      end
  | _ => (Raise e, [])
  end.

(** [handle_one_request(client, addr) -> keep_alive_bool] *)
Definition handle_one_request (handles : gmap string handler)
    (client : socket) (addr : string * Z) : outcome * socket :=
  match HttpRequest_init client with
  | (Raise e, client') => (except_clauses e None, client')
  | (Ok rq, client') =>
      match ServerClient_init rq addr with
      | Raise e => (except_clauses e None, client')
      | Ok sc =>
          match get_handle handles (req_type rq) with
          | Raise e => (except_clauses e (Some sc), client')
          | Ok handle =>
              let h := handle sc in
              match raised h with
              | Some _ =>
                  match write_generic_body (left h) 500 with
                  | Ok r => ((Ok true, wrote h ++ [r]), client')
                  | Raise e' => (except_clauses e' (Some sc), client')
                  end
              | None => ((Ok (keep_alive (left h)), wrote h), client')
              end
          end
      end
  end.

End httpserver.

(** ** iotscp/http/udpserver.py *)

Module udpserver.
Import text httputil.

(** Determines, based on information in the response head, weither or not
    the UDPServer should respond to a client *)
Definition should_respond (head_str : string) : result bool :=
  match RE_REQLINE_match head_str with
  | Some (verb, _, _) =>
      if String.eqb verb "IOT-SEARCH"
      then
        hs ← parse_headers head_str;
        match hs !! "host"%string, hs !! "sv"%string, hs !! "return"%string with
        | Some host, Some sv, Some ret =>
            Ok (bool_decide (host = HStr "239.255.255.250:1900")
                && bool_decide (sv = HStr "iotscp:discover")
                && bool_decide (ret = HStr "device; type=basedevice"))
        | _, _, _ => Ok false
        end
      else Ok false
  | None => Ok false
  end.

(** [UDPServer.response], filled with the date. *)
Definition response (address server_port date : string) : string :=
  "HTTP/1.1 200 OK" ++ CRLF
  ++ "Date: " ++ date ++ CRLF
  ++ "Location: http://" ++ address ++ ":" ++ server_port ++ "/setup.json"
  ++ CRLF
  ++ "Server: ZeroMasterUDP/1.0, IOTSCP/1.0" ++ CRLF ++ CRLF.

(** The body of the loop of [listen] for one readable datagram: the
    datagrams sent back.  Any exception is logged and nothing is sent. *)
Definition on_datagram (address server_port date : string)
    (data : bytearray) : list bytearray :=
  match decode_ascii data with
  | None => []
  | Some head_str =>
      match should_respond head_str with
      | Ok true => [encode_ascii (response address server_port date)]
      | Ok false => []
      | Raise _ => []
      end
  end.

End udpserver.

(** ** iotscp/core/basedevice.py *)

Module basedevice.
Import scsession serverclient httputil.

(** [json.loads] and [json.dumps] of the Python library. *)
Class Json := {
  loads : unicode -> result value;
  dumps : value -> string
}.

(** The module [sccertificate] is not among the sources.  The device uses
    its constructor [SCCertificate(uuid, offset)] and the session calls
    [get_key_segment()] on the object; either may raise. *)
Class Certificates := {
  certificate : Type;
  SCCertificate_new : string -> value -> result certificate;
  key_segment : certificate -> result bytearray
}.

Section WithLibrary.
Context `{Hashlib} `{Codec} `{Json} `{Certificates}.

(** The part of [BaseDevice] that [create_session] uses. *)
Record BaseDevice := {
  pref_alg : option string;
  sessions : gmap string SCSession
}.

Definition set_session (uuid : string) (s : SCSession) (d : BaseDevice)
  : BaseDevice :=
  {| pref_alg := pref_alg d; sessions := <[uuid := s]> (sessions d) |}.

(** [SCSession(cert, hashtype)], with the three clock readings of
    [__init__].  The key derivation is modelled for the hash names that
    [hashlib] provides; for another name [pbkdf2_hmac] raises [ValueError],
    and the theorems on [create_session] that reach this constructor take
    the name among [algorithms]. *)
Definition SCSession_new (c : certificate) (hashtype : string)
    (clock : Q * Q * Q) : result SCSession :=
  seg ← key_segment c;
  Ok (init {| get_key_segment := seg |} hashtype
           clock.1.1 clock.1.2 clock.2).

(** What [create_session] leaves: the exception it ends with, if any, the
    responses written, and the device. *)
Definition created : Type := result unit * list response * BaseDevice.

Definition emit (d : BaseDevice) (w : list response) (r : result response)
  : created :=
  match r with
  | Ok x => (Ok tt, w ++ [x], d)
  | Raise e => (Raise e, w, d)
  end.

(** The [except] clauses of [create_session], entered with the exception
    [e] after the responses [w] were written. *)
Definition except_clauses (d : BaseDevice) (sc : ServerClient)
    (w : list response) (e : exn) : created :=
  match e with
  | KeyError k =>
      emit d w (write_body sc 401 "application/json"
                  (dumps (VDict [("missing"%string, value_of_key k)])))
  | NullCertificateError =>
      emit d w (write_body sc 401 "application/json"
                  (dumps (VDict [("missing"%string, VStr "certificate")])))
  | _ => emit d w (write_head sc 500)
  end.

(** The statements of the [try] body up to the choice of the algorithm. *)
Definition negotiate (d : BaseDevice) (uuid : string) (sc : ServerClient)
  : result (certificate * string) :=
  body ← decode (body (req sc));
  session_args ← loads body;
  offset ← subscript session_args "offset";
  c ← SCCertificate_new uuid offset;
  algs ← subscript session_args "algorithms";
  algorithm ← get_common_algorithm algs (pref_alg d);
  Ok (c, algorithm).

(** [create_session(uuid, serverclient)] *)
Definition create_session (d : BaseDevice) (uuid : string)
    (sc : ServerClient) (clock : Q * Q * Q) : created :=
  match negotiate d uuid sc with
  | Raise e => except_clauses d sc [] e
  | Ok (c, algorithm) =>
      match write_body sc 200 "text/plain; charset=utf-8" algorithm with
      | Raise e => except_clauses d sc [] e
      | Ok r =>
          match SCSession_new c algorithm clock with
          | Raise e => except_clauses d sc [r] e
          | Ok s => (Ok tt, [r], set_session uuid s d)
          end
      end
  end.



End WithLibrary.

End basedevice.

(** ** Stand-ins for the library primitives

    Concrete instances of the library interfaces, on which the embedding
    can be evaluated. *)

Module doubles.
Import scsession.

(** A key derivation that mixes password, salt and position. *)
Definition mix_pbkdf2 (name : string) (pw : bytearray) (salt iters : Z)
    (dklen : nat) : bytearray :=
  (fun i => (foldr Z.add 0 pw + salt + Z.of_nat i) mod 256) <$> seq 0 dklen.

Lemma mix_pbkdf2_length name pw salt iters dklen :
  length (mix_pbkdf2 name pw salt iters dklen) = dklen.
Proof. unfold mix_pbkdf2. by rewrite length_fmap, length_seq. Qed.

Lemma mix_pbkdf2_bytes name pw salt iters dklen :
  Forall is_byte (mix_pbkdf2 name pw salt iters dklen).
Proof.
  unfold mix_pbkdf2. apply Forall_fmap, Forall_forall. intros i _.
  apply Z.mod_pos_bound. lia.
Qed.

Definition mix_hashlib : Hashlib :=
  {| algorithms := ["md5"; "sha1"; "sha256"; "sha512"]%string;
     pbkdf2_hmac := mix_pbkdf2;
     pbkdf2_hmac_length := mix_pbkdf2_length;
     pbkdf2_hmac_bytes := mix_pbkdf2_bytes |}.

(** UTF-8 restricted to its one-byte sequences. *)
Definition ascii_codec : Codec :=
  {| utf8_decode := fun b =>
       if forallb (fun x => (0 <=? x) && (x <? 128)) b then Some b else None;
     utf8_encode := fun u => u |}.

Definition a_cert : SCCertificate := {| get_key_segment := [7; 1; 250] |}.

(** A session that has served one round trip. *)
Definition a_session : SCSession :=
  history (H := mix_hashlib) (H0 := ascii_codec) a_cert "sha256" 12 12 13
          [Encrypt 14 (Bytes [104; 105]); UpdateKey].

(** The session of the peer, started thirteen seconds later, after the same
    round trip seen from the other side. *)
Definition a_peer_session : SCSession :=
  history (H := mix_hashlib) (H0 := ascii_codec) a_cert "sha256" 12 25 26
          [Decrypt 27 [99; 103]; UpdateKey].






(** A method declaring one [bool] argument, and a bag that supplies it. *)
Definition set_binary_state : services.ServiceMethod unit :=
  {| services.name := "SetBinaryState";
     services.thunk := fun _ b => Ok (Some b);
     services.args := [("BinaryState"%string, TBool)];
     services.returns := [("BinaryState"%string, TBool)] |}.

Definition binary_state_bag : gmap string value :=
  {[ "BinaryState"%string := VBool true ]}.

(** A method declaring one [str] argument, and a bag that binds the name to
    an integer. *)
Definition set_label : services.ServiceMethod unit :=
  {| services.name := "SetLabel";
     services.thunk := fun _ _ => Ok (Some ∅);
     services.args := [("Label"%string, TStr)];
     services.returns := [] |}.

Definition label_bag : gmap string value := {[ "Label"%string := VInt 5 ]}.

(** *** Requests and datagrams *)

Section Wire.
Import text httputil.
Local Open Scope string_scope.

(** [GET / HTTP/1.1] with an empty header block, delivered in two reads of
    eight and ten bytes. *)
Definition get_in_two_reads : socket :=
  {| stream := encode_ascii ("GET / HTTP/1.1" ++ CRLF ++ CRLF);
     reads := [8; 10]%nat |}.

(** The same request, the first read ending between the two CR LF. *)
Definition get_cut_in_separator : socket :=
  {| stream := encode_ascii ("GET / HTTP/1.1" ++ CRLF ++ CRLF);
     reads := [16; 2]%nat |}.

(** A request line of two fields only. *)
Definition bare_get : socket :=
  {| stream := encode_ascii ("GET /" ++ CRLF ++ CRLF); reads := [9%nat] |}.

Definition post_abcd : string :=
  "POST / HTTP/1.1" ++ CRLF ++ "Content-Length: 4" ++ CRLF ++ CRLF ++ "abcd".

(** A POST with a body of four bytes: the head in one read, the body in
    two reads of two bytes. *)
Definition post_in_three_reads : socket :=
  {| stream := encode_ascii post_abcd; reads := [38; 2; 2]%nat |}.

(** The same request, the body in one read. *)
Definition post_in_two_reads : socket :=
  {| stream := encode_ascii post_abcd; reads := [38; 4]%nat |}.

Definition discovery_headers : string :=
  "Host: 239.255.255.250:1900" ++ CRLF
  ++ "Return: device; type=basedevice" ++ CRLF
  ++ "SV: iotscp:discover" ++ CRLF ++ CRLF.

(** The search request of the protocol. *)
Definition search : bytearray :=
  encode_ascii ("IOT-SEARCH * HTTP/1.1" ++ CRLF ++ discovery_headers).

(** A search with another target and another protocol version. *)
Definition search_elsewhere : bytearray :=
  encode_ascii ("IOT-SEARCH /lamp HTTP/1.0" ++ CRLF ++ discovery_headers).

End Wire.

(** *** JSON and certificates *)

Section Hello.
Import basedevice httputil serverclient.
Local Open Scope string_scope.

(** The double quote of JSON text. *)
Definition quoted (s : string) : string :=
  String (ascii_of_nat 34) s ++ String (ascii_of_nat 34) EmptyString.



(** A certificate file with one segment, at offset [0]. *)
Definition one_segment : Certificates :=
  {| certificate := Z;
     SCCertificate_new := fun _ offset =>
       match offset with
       | VInt z => Ok z
       | _ => Raise TypeError
       end;
     key_segment := fun z =>
       if (z =? 0)%Z then Ok [7; 1; 250] else Raise NullCertificateError |}.

Definition hello (body_text : string) : ServerClient :=
  {| keep_alive := true;
     req := {| head := "POST /iotscp/hello HTTP/1.1" ++ text.CRLF;
               body := text.encode_ascii body_text;
               reqline := ("POST", "/iotscp/hello", "HTTP/1.1");
               headers := {[ "uuid" := HStr "abc" ]} |};
     ip := "10.0.0.2";
     port := 40000 |}.

Definition a_device : BaseDevice :=
  {| pref_alg := Some "sha256"; sessions := ∅ |}.

End Hello.

(** *** Subscribers and a network *)

Section Subscribers.
Import event_dispatcher.

Definition first_host : address := ("10.0.0.7"%string, 8080).
Definition second_host : address := ("10.0.0.8"%string, 8080).

Definition one_subscriber : subscribers_dict :=
  {[ "/motion"%string := [first_host] ]}.

Definition two_subscribers : subscribers_dict :=
  {[ "/motion"%string := [first_host; second_host] ]}.

(** A network that records the addresses connected to and refuses port 0;
    every subscriber it reaches answers and keeps the connection alive. *)
Definition connect_unless_port_zero (sub_addr : address)
    (w : list address) : result unit * list address :=
  if sub_addr.2 =? 0 then (Raise SocketError, w) else (Ok tt, sub_addr :: w).

Definition always_keep_alive (ev : string) (sub_addr : address)
    (w : list address) : option (bool * list address) :=
  Some (true, w).

(** A dispatcher with one subscriber, whose connection is open and has one
    event in its channel. *)
Definition a_dispatcher : EventDispatcher string :=
  {| subscribers := one_subscriber;
     event_loops := {[ first_host := ["off"%string] ]} |}.

End Subscribers.

(** *** A hello request that offers algorithms *)

Section Offer.
Import basedevice httputil serverclient.
Local Open Scope string_scope.

(** The JSON object with the members [offset] and [algorithms]. *)
Definition offer : string :=
  "{" ++ quoted "offset" ++ ": 0, " ++ quoted "algorithms" ++ ": ["
  ++ quoted "md5" ++ ", " ++ quoted "sha256" ++ "]}".

Definition offer_members : list (string * value) :=
  [("offset", VInt 0); ("algorithms", VList [VStr "md5"; VStr "sha256"])].

(** [json.loads] on that text. *)
Definition offer_json : Json :=
  {| loads := fun u =>
       if bool_decide (u = text.encode_ascii offer)
       then Ok (VDict offer_members)
       else Raise ValueError;
     dumps := fun _ => "" |}.

End Offer.

End doubles.

(* ===================================================================== *)
(** * Part II: verification                                              *)
(* ===================================================================== *)

(** ** Byte arithmetic and item access *)

Section Bytes.

Lemma is_byteb_spec b : is_byteb b = true <-> is_byte b.
Proof. unfold is_byteb, is_byte. rewrite andb_true_iff. lia. Qed.

Lemma lxor_is_byte a b : is_byte a -> is_byte b -> is_byte (Z.lxor a b).
Proof.
  unfold is_byte. intros Ha Hb.
  assert (0 <= Z.lxor a b) by (apply Z.lxor_nonneg; lia).
  split; [done|].
  destruct (Z.eq_dec (Z.lxor a b) 0) as [->|Hnz]; [lia|].
  apply (Z.log2_lt_pow2 _ 8); [lia|].
  eapply Z.le_lt_trans; [apply Z.log2_lxor; lia|].
  apply Z.max_lub_lt.
  - destruct (Z.eq_dec a 0) as [->|]; [done|]. apply Z.log2_lt_pow2; lia.
  - destruct (Z.eq_dec b 0) as [->|]; [done|]. apply Z.log2_lt_pow2; lia.
Qed.

Lemma lxor_cancel a b : Z.lxor (Z.lxor a b) b = a.
Proof. by rewrite Z.lxor_assoc, Z.lxor_nilpotent, Z.lxor_0_r. Qed.

Lemma getitem_nat {A} (a : list A) (i : nat) x :
  a !! i = Some x -> getitem a (Z.of_nat i) = Ok x.
Proof.
  intros Hx. pose proof (lookup_lt_Some _ _ _ Hx) as Hlt.
  unfold getitem.
  destruct (Z.ltb_spec (Z.of_nat i) 0); [lia|].
  destruct (Z.leb_spec 0 (Z.of_nat i)); [|lia].
  destruct (Z.ltb_spec (Z.of_nat i) (Z.of_nat (length a))); [|lia].
  simpl. by rewrite Nat2Z.id, Hx.
Qed.

Lemma getitem_byte {A} (a : list A) (i : Z) x :
  0 <= i -> a !! Z.to_nat i = Some x -> getitem a i = Ok x.
Proof.
  intros Hi Hx. rewrite <- (Z2Nat.id i) by done. by apply getitem_nat.
Qed.

Lemma setitem_nat (a : bytearray) (i : nat) v :
  (i < length a)%nat -> is_byte v ->
  setitem a (Z.of_nat i) v = Ok (<[i := v]> a).
Proof.
  intros Hlt Hv. unfold setitem.
  destruct (Z.ltb_spec (Z.of_nat i) 0); [lia|].
  destruct (Z.leb_spec 0 (Z.of_nat i)); [|lia].
  destruct (Z.ltb_spec (Z.of_nat i) (Z.of_nat (length a))); [|lia].
  simpl. apply is_byteb_spec in Hv. by rewrite Hv, Nat2Z.id.
Qed.

Lemma range_lookup n (i : nat) : (i < n)%nat -> range n !! i = Some (Z.of_nat i).
Proof.
  intros Hi. unfold range. rewrite list_lookup_fmap, lookup_seq_lt by done.
  done.
Qed.

Lemma range_length n : length (range n) = n.
Proof. unfold range. by rewrite length_fmap, length_seq. Qed.

Lemma range_elem n b : b ∈ range n <-> 0 <= b < Z.of_nat n.
Proof.
  unfold range. rewrite list_elem_of_fmap. split.
  - intros (k & -> & Hk). apply elem_of_seq in Hk. lia.
  - intros Hb. exists (Z.to_nat b). split; [lia|]. apply elem_of_seq. lia.
Qed.

Lemma range_NoDup n : NoDup (range n).
Proof.
  unfold range. apply NoDup_fmap; [apply Nat2Z.inj'|apply NoDup_seq].
Qed.

End Bytes.

(** ** Permutations of the byte values and transpositions *)

Section Permutations.
Import scsession.

Lemma transpose_inj i j : Inj (=) (=) (transpose i j).
Proof. intros a b. unfold transpose. repeat case_decide; congruence. Qed.

Lemma list_swap_lookup i j l k :
  (i < length l)%nat -> (j < length l)%nat ->
  list_swap i j l !! k = l !! transpose i j k.
Proof.
  intros Hi Hj. unfold list_swap.
  destruct (lookup_lt_is_Some_2 _ _ Hi) as [x Hx].
  destruct (lookup_lt_is_Some_2 _ _ Hj) as [y Hy].
  rewrite Hx, Hy. unfold transpose.
  destruct (decide (k = j)) as [->|Hkj].
  - rewrite list_lookup_insert_eq by (by rewrite length_insert).
    case_decide; congruence.
  - rewrite list_lookup_insert_ne by done.
    destruct (decide (k = i)) as [->|Hki].
    + by rewrite list_lookup_insert_eq.
    + by rewrite list_lookup_insert_ne.
Qed.

Lemma list_swap_length i j l : length (list_swap i j l) = length l.
Proof.
  unfold list_swap. destruct (l !! i), (l !! j); try done.
  by rewrite !length_insert.
Qed.

Lemma list_swap_Permutation i j l : list_swap i j l ≡ₚ l.
Proof.
  destruct (decide (i < length l)%nat) as [Hi|Hi];
    [destruct (decide (j < length l)%nat) as [Hj|Hj]|].
  - apply Permutation_inj. split; [apply list_swap_length|].
    exists (transpose i j). split; [apply transpose_inj|].
    intros k. by apply list_swap_lookup.
  - unfold list_swap. rewrite (lookup_ge_None_2 l j) by lia.
    by destruct (l !! i).
  - unfold list_swap. by rewrite (lookup_ge_None_2 l i) by lia.
Qed.

Lemma is_permutation_length c : is_permutation c -> length c = 256%nat.
Proof. unfold is_permutation. intros Hc. by rewrite Hc, range_length. Qed.

Lemma is_permutation_elem c b : is_permutation c -> b ∈ c <-> is_byte b.
Proof.
  unfold is_permutation. intros Hc. rewrite Hc, range_elem.
  unfold is_byte. lia.
Qed.

Lemma is_permutation_bytes c : is_permutation c -> Forall is_byte c.
Proof.
  intros Hc. apply Forall_forall. intros b Hb. by apply (is_permutation_elem c).
Qed.

Lemma is_permutation_NoDup c : is_permutation c -> NoDup c.
Proof. unfold is_permutation. intros Hc. rewrite Hc. apply range_NoDup. Qed.

Lemma is_permutation_lookup c (i : nat) :
  is_permutation c -> (i < 256)%nat -> exists b, c !! i = Some b /\ is_byte b.
Proof.
  intros Hc Hi.
  destruct (lookup_lt_is_Some_2 c i) as [b Hb];
    [by rewrite (is_permutation_length c)|].
  exists b. split; [done|].
  apply (is_permutation_elem c); [done|]. by eapply list_elem_of_lookup_2.
Qed.

(** Every byte value sits at exactly one index of a permutation. *)
Lemma is_permutation_index c b :
  is_permutation c -> is_byte b -> exists i, (i < 256)%nat /\ c !! i = Some b.
Proof.
  intros Hc Hb. apply (is_permutation_elem c) in Hb; [|done].
  apply list_elem_of_lookup in Hb as [i Hi]. exists i. split; [|done].
  rewrite <- (is_permutation_length c) by done. by eapply lookup_lt_Some.
Qed.

End Permutations.

(** ** The session cipher *)

Section Session.
Import scsession.
Context `{Hashlib} `{Codec}.

Lemma key_entry (key : bytearray) (i : nat) :
  length key = 256%nat -> Forall is_byte key -> (i < 256)%nat ->
  exists j : nat, key !! i = Some (Z.of_nat j) /\ (j < 256)%nat.
Proof.
  intros Hlen Hbytes Hi.
  destruct (lookup_lt_is_Some_2 key i) as [b Hb]; [lia|].
  pose proof (Forall_lookup_1 _ _ _ _ Hbytes Hb) as Hr. unfold is_byte in Hr.
  exists (Z.to_nat b). split; [|lia]. by rewrite Z2Nat.id by lia.
Qed.

Lemma derived_key_entry s now (i : nat) :
  (i < 256)%nat ->
  exists j : nat, derived_key s now !! i = Some (Z.of_nat j) /\ (j < 256)%nat.
Proof.
  apply key_entry; [apply pbkdf2_hmac_length|apply pbkdf2_hmac_bytes].
Qed.

(** One pass through the loop body exchanges [cipher[i]] and
    [cipher[key[i]]]. *)
Lemma randomize_step_swap key (i j : nat) s :
  is_permutation (cipher s) ->
  key !! i = Some (Z.of_nat j) -> (i < 256)%nat -> (j < 256)%nat ->
  randomize_step key i s = (Ok tt, set_cipher (list_swap i j (cipher s)) s).
Proof.
  intros Hc Hk Hi Hj.
  destruct (is_permutation_lookup _ i Hc Hi) as (old & Hold & Hbo).
  destruct (is_permutation_lookup _ j Hc Hj) as (v & Hv & Hbv).
  pose proof (is_permutation_length _ Hc) as Hlen.
  unfold randomize_step, mbind, session_bind, bind, cipher_get, cipher_set, lift.
  rewrite (getitem_nat _ _ _ Hold), (getitem_nat _ _ _ Hk),
    (getitem_nat _ _ _ Hv).
  rewrite setitem_nat by (done || lia). cbn [cipher set_cipher].
  rewrite setitem_nat by (rewrite ?length_insert; done || lia).
  unfold list_swap. by rewrite Hold, Hv.
Qed.

Lemma randomize_loop key n : forall i s,
  is_permutation (cipher s) ->
  length key = 256%nat -> Forall is_byte key -> (i + n <= 256)%nat ->
  for_range (randomize_step key) i n s
  = (Ok tt, set_cipher (shuffle key i n (cipher s)) s)
  /\ is_permutation (shuffle key i n (cipher s)).
Proof.
  induction n as [|n IH]; intros i s Hc Hlen Hbytes Hin.
  - split; [by destruct s|done].
  - destruct (key_entry key i Hlen Hbytes) as (j & Hk & Hj); [lia|].
    cbn [for_range shuffle]. unfold mbind, session_bind, bind.
    rewrite (randomize_step_swap key i j) by (done || lia).
    replace (Z.to_nat (default 0 (key !! i))) with j
      by (rewrite Hk; simpl; lia).
    assert (is_permutation (cipher (set_cipher (list_swap i j (cipher s)) s)))
      as Hc'.
    { cbn [cipher set_cipher]. unfold is_permutation.
      by rewrite list_swap_Permutation. }
    assert (S i + n <= 256)%nat as Hin' by lia.
    destruct (IH (S i) _ Hc' Hlen Hbytes Hin') as (Hrun & Hperm).
    by rewrite Hrun.
Qed.

(** [__randomize] returns, counts one call, installs the derived key as
    [new_key] and leaves the cipher shuffled by that key, a permutation. *)
Lemma randomize_spec now s :
  is_permutation (cipher s) ->
  randomize now s
  = (Ok tt, set_cipher (shuffle (derived_key s now) 0 256 (cipher s))
              (set_new_key (derived_key s now) (count_randomize s)))
  /\ is_permutation (shuffle (derived_key s now) 0 256 (cipher s)).
Proof.
  intros Hc. unfold randomize, mbind, session_bind, bind, count_call, get_key.
  destruct (randomize_loop (derived_key (count_randomize s) now) 256 0
              (set_new_key (derived_key (count_randomize s) now)
                           (count_randomize s)) Hc
              (pbkdf2_hmac_length _ _ _ _ _) (pbkdf2_hmac_bytes _ _ _ _ _)
              (Nat.le_refl _))
    as (Hrun & Hperm).
  by rewrite Hrun.
Qed.

Lemma randomize_if_committed_spec now s :
  is_permutation (cipher s) ->
  randomize_if_committed now s = (Ok tt, keyed now s)
  /\ is_permutation (cipher (keyed now s))
  /\ prev_key (keyed now s) = prev_key s.
Proof.
  intros Hc. unfold keyed, randomize_if_committed.
  case_bool_decide.
  - destruct (randomize_spec now s Hc) as (-> & Hperm). done.
  - done.
Qed.

(** The cipher in effect depends on the session through its cipher, on the
    comparison of its two keys, and on the key derived at the call. *)
Lemma keyed_cipher now s :
  is_permutation (cipher s) ->
  cipher (keyed now s)
  = if bool_decide (prev_key s = new_key s)
    then shuffle (derived_key s now) 0 256 (cipher s)
    else cipher s.
Proof.
  intros Hc. unfold keyed, randomize_if_committed.
  case_bool_decide; [|done].
  by destruct (randomize_spec now s Hc) as (-> & _).
Qed.

(** *** The translation loops *)

Lemma inplace_loop_pure (f : nat -> Z -> M Z) (g : nat -> Z -> Z) s n :
  forall i done todo,
    length done = i -> length todo = n ->
    (forall k x, todo !! k = Some x ->
       f (i + k)%nat x s = (Ok (g (i + k)%nat x), s)
       /\ is_byte (g (i + k)%nat x)) ->
    inplace_loop f i n (done ++ todo) s
    = (Ok (done ++ imap (fun k => g (i + k)%nat) todo), s).
Proof.
  induction n as [|n IH]; intros i done todo Hd Ht Hf.
  - destruct todo; [|done]. done.
  - destruct todo as [|x todo]; [done|].
    destruct (Hf 0%nat x eq_refl) as [Hfx Hgx].
    rewrite Nat.add_0_r in Hfx, Hgx.
    cbn [inplace_loop]. unfold mbind, session_bind, bind, lift.
    rewrite (getitem_nat _ _ x)
      by (by rewrite lookup_app_r, Hd, Nat.sub_diag by lia).
    rewrite Hfx.
    rewrite setitem_nat by (rewrite ?length_app; simpl; done || lia).
    replace (<[i := g i x]> (done ++ x :: todo))
      with ((done ++ [g i x]) ++ todo).
    2:{ rewrite insert_app_r_alt by lia. rewrite Hd, Nat.sub_diag.
        by rewrite <- app_assoc. }
    rewrite (IH (S i)).
    + rewrite <- app_assoc. cbn [imap app]. rewrite Nat.add_0_r.
      do 4 f_equal. apply imap_ext. intros k y _. simpl. f_equal. lia.
    + rewrite length_app. simpl. lia.
    + simpl in Ht. lia.
    + intros k y Hy. replace (S i + k)%nat with (i + S k)%nat by lia.
      by apply Hf.
Qed.

Lemma position_lookup c (i : nat) :
  is_permutation c ->
  exists b, c !! Z.to_nat (Z.of_nat i mod 256) = Some b /\ is_byte b
            /\ getitem c (Z.of_nat i mod 256) = Ok b.
Proof.
  intros Hc.
  assert (0 <= Z.of_nat i mod 256 < 256) as Hr by (apply Z.mod_pos_bound; lia).
  destruct (is_permutation_lookup c (Z.to_nat (Z.of_nat i mod 256)) Hc)
    as (b & Hb & Hbyte); [lia|].
  exists b. split; [done|]. split; [done|]. apply getitem_byte; [lia|done].
Qed.

Lemma encrypt_byte_spec s (i : nat) x :
  is_permutation (cipher s) -> is_byte x ->
  encrypt_byte i x s = (Ok (enc_byte (cipher s) i x), s)
  /\ is_byte (enc_byte (cipher s) i x).
Proof.
  intros Hc Hx. unfold is_byte in Hx.
  destruct (is_permutation_lookup (cipher s) (Z.to_nat x) Hc)
    as (a & Ha & Hbytea); [lia|].
  destruct (position_lookup (cipher s) i Hc) as (b & Hb & Hbyteb & Hget).
  unfold encrypt_byte, enc_byte, mbind, session_bind, bind, cipher_get.
  rewrite (getitem_byte _ x a), Hget, Ha, Hb by (done || lia).
  split; [done|]. by apply lxor_is_byte.
Qed.

Lemma key_map_snoc c b : key_map (c ++ [b]) = <[b := length c]> (key_map c).
Proof.
  unfold key_map, enumerate. rewrite imap_app, foldl_app. simpl.
  by rewrite Nat.add_0_r.
Qed.

(** On a list without repetition the dictionary inverts the lookup. *)
Lemma key_map_lookup c :
  NoDup c -> forall i b, c !! i = Some b -> key_map c !! b = Some i.
Proof.
  induction c as [|x c IH] using rev_ind; intros Hnd i b Hb; [done|].
  apply NoDup_app in Hnd as (Hndc & Hnotin & _).
  rewrite key_map_snoc.
  destruct (decide (i < length c)%nat) as [Hlt|Hge].
  - rewrite lookup_app_l in Hb by done.
    rewrite lookup_insert_ne; [by apply IH|].
    intros ->. apply (Hnotin b); [by eapply list_elem_of_lookup_2|].
    apply list_elem_of_singleton. done.
  - rewrite lookup_app_r in Hb by lia.
    destruct (i - length c)%nat as [|k] eqn:Hk; simpl in Hb; [|done].
    injection Hb as ->. replace i with (length c) by lia.
    by rewrite lookup_insert_eq.
Qed.

(** The lookup in the inverse map cannot miss (claim C10's core). *)
Lemma key_map_total c (i : nat) y :
  is_permutation c -> is_byte y ->
  exists b k, c !! Z.to_nat (Z.of_nat i mod 256) = Some b
    /\ key_map c !! Z.lxor y b = Some k /\ (k < 256)%nat
    /\ c !! k = Some (Z.lxor y b).
Proof.
  intros Hc Hy.
  destruct (position_lookup c i Hc) as (b & Hb & Hbyteb & _).
  destruct (is_permutation_index c (Z.lxor y b) Hc) as (k & Hk & Hck);
    [by apply lxor_is_byte|].
  exists b, k. split; [done|]. split; [|done].
  by apply key_map_lookup; [apply is_permutation_NoDup|].
Qed.

Lemma decrypt_byte_spec s (i : nat) y :
  is_permutation (cipher s) -> is_byte y ->
  decrypt_byte (key_map (cipher s)) i y s = (Ok (dec_byte (cipher s) i y), s)
  /\ is_byte (dec_byte (cipher s) i y).
Proof.
  intros Hc Hy.
  destruct (key_map_total (cipher s) i y Hc Hy) as (b & k & Hb & Hk & Hlt & _).
  destruct (position_lookup (cipher s) i Hc) as (b' & Hb' & _ & Hget).
  assert (b' = b) as -> by congruence.
  unfold decrypt_byte, dec_byte, mbind, session_bind, bind, cipher_get, lift,
    dict_getitem.
  rewrite Hget, Hb. simpl. rewrite Hk. split; [done|]. unfold is_byte. lia.
Qed.

Lemma dec_enc_byte c (i : nat) x :
  is_permutation c -> is_byte x -> dec_byte c i (enc_byte c i x) = x.
Proof.
  intros Hc Hx. unfold is_byte in Hx.
  destruct (is_permutation_lookup c (Z.to_nat x) Hc) as (a & Ha & _); [lia|].
  unfold dec_byte, enc_byte. rewrite Ha. simpl. rewrite lxor_cancel.
  rewrite (key_map_lookup c (is_permutation_NoDup c Hc) _ _ Ha). lia.
Qed.

Lemma encrypt_loop_spec s (m : bytearray) :
  is_permutation (cipher s) -> Forall is_byte m ->
  inplace_loop encrypt_byte 0 (length m) m s
  = (Ok (imap (enc_byte (cipher s)) m), s)
  /\ Forall is_byte (imap (enc_byte (cipher s)) m).
Proof.
  intros Hc Hm. split.
  - apply (inplace_loop_pure encrypt_byte (enc_byte (cipher s)) s _ 0%nat []);
      try done.
    intros k x Hx. apply encrypt_byte_spec; [done|].
    by eapply Forall_lookup_1.
  - apply Forall_lookup. intros i y. rewrite list_lookup_imap.
    destruct (m !! i) as [x|] eqn:Hx; [|done]. intros [= <-].
    apply encrypt_byte_spec; [done|]. by eapply Forall_lookup_1.
Qed.

Lemma decrypt_loop_spec s (m : bytearray) :
  is_permutation (cipher s) -> Forall is_byte m ->
  inplace_loop (decrypt_byte (key_map (cipher s))) 0 (length m) m s
  = (Ok (imap (dec_byte (cipher s)) m), s).
Proof.
  intros Hc Hm.
  apply (inplace_loop_pure _ (dec_byte (cipher s)) s _ 0%nat []); try done.
  intros k x Hx. apply decrypt_byte_spec; [done|]. by eapply Forall_lookup_1.
Qed.

Lemma dec_enc_bytes c (m : bytearray) :
  is_permutation c -> Forall is_byte m ->
  imap (dec_byte c) (imap (enc_byte c) m) = m.
Proof.
  intros Hc Hm. apply list_eq. intros i. rewrite !list_lookup_imap.
  destruct (m !! i) as [x|] eqn:Hx; [|done]. simpl.
  rewrite dec_enc_byte; [done..|]. by eapply Forall_lookup_1.
Qed.

(** *** Calls and reachable sessions *)

Lemma inplace_loop_state (f : nat -> Z -> M Z) n :
  (forall i x s, (f i x s).2 = s) ->
  forall i buf s, (inplace_loop f i n buf s).2 = s.
Proof.
  intros Hf. induction n as [|n IH]; intros i buf s; [done|].
  cbn [inplace_loop]. unfold mbind, session_bind, bind, lift.
  destruct (getitem buf (Z.of_nat i)) as [x|e]; [|done].
  specialize (Hf i x s). destruct (f i x s) as [[y|e] s']; simpl in Hf; subst s'.
  - destruct (setitem buf (Z.of_nat i) y) as [buf'|e]; [apply IH|done].
  - done.
Qed.

Lemma encrypt_byte_state i x s : (encrypt_byte i x s).2 = s.
Proof.
  unfold encrypt_byte, mbind, session_bind, bind, cipher_get.
  destruct (getitem (cipher s) x); [|done].
  by destruct (getitem (cipher s) (Z.of_nat i `mod` 256)).
Qed.

Lemma decrypt_byte_state km i x s : (decrypt_byte km i x s).2 = s.
Proof.
  unfold decrypt_byte, mbind, session_bind, bind, cipher_get, lift.
  by destruct (getitem (cipher s) (Z.of_nat i `mod` 256)).
Qed.

(** Whatever the outcome, [encrypt] and [decrypt] leave the session in which
    their loop ran. *)
Lemma encrypt_state now input s :
  is_permutation (cipher s) -> (encrypt now input s).2 = keyed now s.
Proof.
  intros Hc. destruct (randomize_if_committed_spec now s Hc) as (Hr & _).
  unfold encrypt, mbind, session_bind, bind. rewrite Hr.
  apply inplace_loop_state, encrypt_byte_state.
Qed.

Lemma decrypt_state now input_u8 s :
  is_permutation (cipher s) -> (decrypt now input_u8 s).2 = keyed now s.
Proof.
  intros Hc. destruct (randomize_if_committed_spec now s Hc) as (Hr & _).
  unfold decrypt, mbind, session_bind, bind, read_cipher, lift. rewrite Hr.
  pose proof (inplace_loop_state (decrypt_byte (key_map (cipher (keyed now s))))
                (length input_u8) (decrypt_byte_state _) 0%nat input_u8
                (keyed now s)) as Hst.
  destruct (inplace_loop _ _ _ _ _) as [[out|e] s']; simpl in Hst; by subst s'.
Qed.

Lemma after_permutation c s :
  is_permutation (cipher s) -> is_permutation (cipher (after c s)).
Proof.
  intros Hc. destruct c as [now input|now input_u8|]; simpl.
  - rewrite encrypt_state by done. by apply randomize_if_committed_spec.
  - rewrite decrypt_state by done. by apply randomize_if_committed_spec.
  - done.
Qed.

Lemma run_permutation cs : forall s,
  is_permutation (cipher s) -> is_permutation (cipher (run cs s)).
Proof.
  induction cs as [|c cs IH]; intros s Hc; [done|].
  apply IH. by apply after_permutation.
Qed.

Lemma init_permutation crt ht now0 now1 now2 :
  is_permutation (cipher (init crt ht now0 now1 now2)).
Proof. unfold is_permutation. reflexivity. Qed.

Lemma history_permutation crt ht now0 now1 now2 cs :
  is_permutation (cipher (history crt ht now0 now1 now2 cs)).
Proof. apply run_permutation, init_permutation. Qed.

(** *** The claims about the session *)

(** C1: take two sessions as their owners can hold them, the sender's and
    the receiver's, with the same cipher and the same two keys, and let the
    same key be derived at both calls.  For every input [m] of bytes that is
    valid UTF-8 (decoding to [u]), [encrypt] on the sender's session returns
    a byte array [c] and [decrypt] on the receiver's session returns [u] on
    [c]; both sessions are left with the same cipher.  The byte of [c] at
    position [i] is [cipher[m[i]] XOR cipher[i mod 256]], and [decrypt] finds
    [m[i]] as the index stored in the inverse map of the cipher under
    [c[i] XOR cipher[i mod 256]]. *)
Theorem decrypt_encrypt_roundtrip
    crt_e ht_e e0 e1 e2 cs_e crt_d ht_d d0 d1 d2 cs_d now_e now_d
    (m u : bytearray) :
  Forall is_byte m ->
  utf8_decode m = Some u ->
  cipher (history crt_e ht_e e0 e1 e2 cs_e)
  = cipher (history crt_d ht_d d0 d1 d2 cs_d) ->
  prev_key (history crt_e ht_e e0 e1 e2 cs_e)
  = prev_key (history crt_d ht_d d0 d1 d2 cs_d) ->
  new_key (history crt_e ht_e e0 e1 e2 cs_e)
  = new_key (history crt_d ht_d d0 d1 d2 cs_d) ->
  derived_key (history crt_e ht_e e0 e1 e2 cs_e) now_e
  = derived_key (history crt_d ht_d d0 d1 d2 cs_d) now_d ->
  exists c s_e s_d,
    encrypt now_e (Bytes m) (history crt_e ht_e e0 e1 e2 cs_e) = (Ok c, s_e)
    /\ decrypt now_d c (history crt_d ht_d d0 d1 d2 cs_d) = (Ok u, s_d)
    /\ cipher s_e = cipher s_d
    /\ (forall i x, m !! i = Some x ->
          exists a b,
            cipher s_e !! Z.to_nat x = Some a
            /\ cipher s_e !! Z.to_nat (Z.of_nat i mod 256) = Some b
            /\ c !! i = Some (Z.lxor a b))
    /\ (forall i y, c !! i = Some y ->
          exists b k,
            cipher s_d !! Z.to_nat (Z.of_nat i mod 256) = Some b
            /\ key_map (cipher s_d) !! Z.lxor y b = Some k
            /\ m !! i = Some (Z.of_nat k)).
Proof.
  intros Hm Hu Hcipher Hprev Hnew Hkey.
  set (se := history crt_e ht_e e0 e1 e2 cs_e) in *.
  set (sd := history crt_d ht_d d0 d1 d2 cs_d) in *.
  assert (is_permutation (cipher se)) as Hce by apply history_permutation.
  assert (is_permutation (cipher sd)) as Hcd by apply history_permutation.
  destruct (randomize_if_committed_spec now_e se Hce) as (Hre & Hce' & _).
  destruct (randomize_if_committed_spec now_d sd Hcd) as (Hrd & Hcd' & _).
  assert (cipher (keyed now_e se) = cipher (keyed now_d sd)) as Hsame.
  { rewrite !keyed_cipher by done. by rewrite Hcipher, Hprev, Hnew, Hkey. }
  set (se' := keyed now_e se) in *. set (sd' := keyed now_d sd) in *.
  destruct (encrypt_loop_spec se' m Hce' Hm) as (Henc & Hbytes).
  exists (imap (enc_byte (cipher se')) m), se', sd'.
  split; [|split; [|split; [done|split]]].
  - unfold encrypt, mbind, session_bind, bind. by rewrite Hre.
  - unfold decrypt, mbind, session_bind, bind, read_cipher, lift, decode.
    rewrite Hrd. rewrite length_imap.
    rewrite <- (length_imap (enc_byte (cipher se')) m) at 1.
    rewrite Hsame in Hbytes |- *.
    rewrite decrypt_loop_spec by done.
    by rewrite dec_enc_bytes, Hu.
  - intros i x Hx.
    pose proof (Forall_lookup_1 _ _ _ _ Hm Hx) as Hbx. unfold is_byte in Hbx.
    destruct (is_permutation_lookup (cipher se') (Z.to_nat x) Hce')
      as (a & Ha & _); [lia|].
    destruct (position_lookup (cipher se') i Hce') as (b & Hb & _).
    exists a, b. split; [done|]. split; [done|].
    rewrite list_lookup_imap, Hx. simpl. unfold enc_byte. by rewrite Ha, Hb.
  - rewrite Hsame in Hbytes |- *. intros i y Hy.
    pose proof (Forall_lookup_1 _ _ _ _ Hbytes Hy) as Hby.
    destruct (key_map_total (cipher sd') i y Hcd' Hby)
      as (b & k & Hb & Hk & _ & _).
    exists b, k. split; [done|]. split; [done|].
    rewrite list_lookup_imap in Hy.
    destruct (m !! i) as [x|] eqn:Hx; [|done]. simpl in Hy.
    injection Hy as <-.
    pose proof (dec_enc_byte (cipher sd') i x Hcd'
                  (Forall_lookup_1 _ _ _ _ Hm Hx)) as Hdec.
    unfold dec_byte in Hdec. rewrite Hb in Hdec. simpl in Hdec.
    rewrite Hk in Hdec. by rewrite Hdec.
Qed.

(** C2: the cipher of a fresh session is the identity [0, 1, ..., 255];
    after any sequence of [encrypt], [decrypt] and [update_key] calls the
    cipher is a permutation of the byte values; and each pass through the
    loop of [__randomize] returns having exchanged the two entries
    [cipher[i]] and [cipher[key[i]]]. *)
Theorem cipher_remains_permutation crt ht now0 now1 now2 cs :
  cipher (init crt ht now0 now1 now2) = range 256
  /\ cipher (history crt ht now0 now1 now2 cs) ≡ₚ range 256
  /\ (forall (s : SCSession) now (i : nat),
        cipher s ≡ₚ range 256 -> (i < 256)%nat ->
        exists j : nat,
          derived_key s now !! i = Some (Z.of_nat j)
          /\ randomize_step (derived_key s now) i s
             = (Ok tt, set_cipher (list_swap i j (cipher s)) s)).
Proof.
  split; [done|]. split; [apply history_permutation|].
  intros s now i Hc Hi.
  destruct (derived_key_entry s now i Hi) as (j & Hk & Hj).
  exists j. split; [done|]. by apply randomize_step_swap.
Qed.


(** C10: with a cipher that is a permutation of the byte values, the lookup
    of [decrypt] in the inverse map is total: for every byte [y] and
    position [i], [y XOR cipher[i mod 256]] is a key of the map (for the
    cipher in effect during the loop, which is a permutation too).  On
    every input of bytes [decrypt] therefore runs its loop to the end and
    its outcome is that of the final UTF-8 decode: the only exception it can
    raise is [UnicodeDecodeError]. *)
Theorem decrypt_lookup_total s now (input_u8 : bytearray) :
  cipher s ≡ₚ range 256 ->
  Forall is_byte input_u8 ->
  cipher (keyed now s) ≡ₚ range 256
  /\ (forall (c : bytearray) (i : nat) (y : Z),
        c ≡ₚ range 256 -> is_byte y ->
        exists b,
          getitem c (Z.of_nat i mod 256) = Ok b
          /\ is_Some (key_map c !! Z.lxor y b))
  /\ decrypt now input_u8 s
     = (decode (imap (dec_byte (cipher (keyed now s))) input_u8), keyed now s)
  /\ (forall e, (decrypt now input_u8 s).1 = Raise e -> e = UnicodeDecodeError).
Proof.
  intros Hc Hin.
  destruct (randomize_if_committed_spec now s Hc) as (Hr & Hc' & _).
  assert (decrypt now input_u8 s
          = (decode (imap (dec_byte (cipher (keyed now s))) input_u8),
             keyed now s)) as Hdec.
  { unfold decrypt, mbind, session_bind, bind, read_cipher, lift.
    rewrite Hr. by rewrite decrypt_loop_spec. }
  split; [done|]. split; [|split; [done|]].
  - intros c i y Hperm Hy.
    destruct (key_map_total c i y Hperm Hy) as (b & k & Hb & Hk & _ & _).
    destruct (position_lookup c i Hperm) as (b' & Hb' & _ & Hget).
    exists b. split; [congruence|]. by exists k.
  - intros e. rewrite Hdec. simpl. unfold decode.
    destruct (utf8_decode _); [done|]. congruence.
Qed.

End Session.

(** *** The session claims at a concrete session *)

Section SessionWitnesses.
Import scsession doubles.

Lemma decrypt_encrypt_roundtrip_witness :
  exists c s_e s_d,
    encrypt (H := mix_hashlib) (H0 := ascii_codec) 15 (Bytes [104; 105])
            a_session = (Ok c, s_e)
    /\ decrypt (H := mix_hashlib) (H0 := ascii_codec) 28 c a_peer_session
       = (Ok [104; 105], s_d)
    /\ cipher s_e = cipher s_d.
Proof.
  destruct (@decrypt_encrypt_roundtrip mix_hashlib ascii_codec
              a_cert "sha256" 12 12 13
              [Encrypt 14 (Bytes [104; 105]); UpdateKey]
              a_cert "sha256" 12 25 26
              [Decrypt 27 [99; 103]; UpdateKey] 15 28
              [104; 105] [104; 105])
    as (c & s_e & s_d & Henc & Hdec & Hsame & _).
  - repeat constructor; unfold is_byte; lia.
  - vm_compute. reflexivity.
  - vm_compute. reflexivity.
  - vm_compute. reflexivity.
  - vm_compute. reflexivity.
  - vm_compute. reflexivity.
  - exists c, s_e, s_d. split; [exact Henc|]. split; [exact Hdec|exact Hsame].
Defined.

Lemma cipher_remains_permutation_witness :
  exists j : nat,
    derived_key (H := mix_hashlib) a_session 15 !! 3%nat = Some (Z.of_nat j)
    /\ randomize_step (derived_key (H := mix_hashlib) a_session 15) 3 a_session
       = (Ok tt, set_cipher (list_swap 3 j (cipher a_session)) a_session).
Proof.
  destruct (@cipher_remains_permutation mix_hashlib ascii_codec a_cert "sha256"
              12 12 13 [Encrypt 14 (Bytes [104; 105]); UpdateKey])
    as (_ & Hperm & Hstep).
  apply (Hstep a_session 15%Q 3%nat).
  - exact Hperm.
  - lia.
Defined.



Lemma decrypt_lookup_total_witness :
  cipher (keyed (H := mix_hashlib) 15 a_session) ≡ₚ range 256
  /\ decrypt (H := mix_hashlib) (H0 := ascii_codec) 15 [200; 3] a_session
     = (decode (H0 := ascii_codec)
          (imap (dec_byte (cipher (keyed (H := mix_hashlib) 15 a_session)))
                [200; 3]),
        keyed (H := mix_hashlib) 15 a_session).
Proof.
  destruct (@decrypt_lookup_total mix_hashlib ascii_codec a_session 15
              [200; 3])
    as (Hperm & _ & Hdec & _).
  - apply (@history_permutation mix_hashlib ascii_codec).
  - repeat constructor; unfold is_byte; lia.
  - split; [exact Hperm|exact Hdec].
Defined.

End SessionWitnesses.

(** ** Service methods *)

Section Services.
Import services doubles.
Context {Device : Type}.

(** What the loop of [main] accepts: every declared name is bound in the
    bag and every declared type is [str]; the values are not looked at. *)
Lemma check_args_spec (decl : list ServiceArg) (args_dict : gmap string value) :
  check_args decl args_dict = Ok tt
  <-> Forall (fun d : ServiceArg => is_Some (args_dict !! d.1) /\ d.2 = TStr)
             decl.
Proof.
  induction decl as [|[arg t] decl IH]; simpl.
  - split; [constructor|done].
  - rewrite Forall_cons. simpl. destruct (args_dict !! arg) as [v|] eqn:Hv.
    + destruct t; simpl;
        try (split; [discriminate|intros [[_ Ht] _]; discriminate]).
      rewrite IH. split.
      * intros Hd. split; [|done]. split; [by exists v|done].
      * by intros [_ Hd].
    + split; [discriminate|]. intros [[[v Hv'] _] _]. discriminate.
Qed.

(** The thunk is called exactly when the loop lets the bag through. *)
Lemma main_calls_thunk (m : ServiceMethod Device) device args_dict :
  (main m device args_dict).2 = [args_dict]
  <-> check_args (args m) args_dict = Ok tt.
Proof.
  unfold main. destruct (check_args (args m) args_dict) as [[]|e]; simpl.
  - split; [done|]. intros _.
    destruct (thunk m device args_dict) as [output|e]; [|done].
    by destruct (verify_output m output).
  - split; [done|discriminate].
Qed.

End Services.

(** C4, at the inputs where the code departs from it.  The bag
    [{"BinaryState": True}] binds the one declared name to a value of the
    declared type [bool], yet [main] raises [ServiceArgError] without calling
    the thunk: the test is made on the name.  The bag [{"Label": 5}] binds
    the declared name to an integer where [str] is declared, yet the thunk
    is called. *)
Theorem main_checks_name_not_value :
  services.conforms (services.args doubles.set_binary_state)
                    doubles.binary_state_bag = true
  /\ services.main doubles.set_binary_state tt doubles.binary_state_bag
     = (Raise (ServiceArgError
                 "Type mismatch error at `BinaryState`: expected <type 'bool'>, got <type 'str'>"),
        [])
  /\ services.conforms (services.args doubles.set_label) doubles.label_bag
     = false
  /\ services.main doubles.set_label tt doubles.label_bag
     = (Ok (Some ∅), [doubles.label_bag]).
Proof. repeat split; vm_compute; reflexivity. Qed.

(** ** The HTTP head and body readers *)

Section Http.
Import text httputil serverclient httpserver doubles.

Lemma get_head_loop_unfold rs st buf recvd :
  get_head_loop rs st buf recvd
  = if Z.of_nat (length recvd) <? 65537
    then match rs with
         | [] => (Raise SocketError, {| stream := st; reads := [] |})
         | n :: rs' =>
             let amt := (n `min` (length buf `min` length st))%nat in
             let buf' := take amt st ++ drop amt buf in
             let st' := drop amt st in
             let recvd' := recvd ++ take amt buf' in
             match find SEPARATOR recvd' with
             | Some body_start =>
                 (head ← decode_http_head (take (body_start + 2) recvd');
                  Ok (head, drop (body_start + 4) recvd'),
                  {| stream := st'; reads := rs' |})
             | None => get_head_loop rs' st' buf' recvd'
             end
         end
    else (Raise (HTTPError "HTTP head too long"),
          {| stream := st; reads := rs |}).
Proof. by destruct rs. Qed.

Lemma decode_http_head_not_null (b : bytearray) (k : string -> string * bytearray) :
  (head ← decode_http_head b; Ok (k head)) <> Raise NullRequestError.
Proof. unfold decode_http_head. by destruct (decode_ascii b). Qed.

(** The accumulation loop ends in a head, in [HTTPError] or in a socket
    error, never in [NullRequestError]. *)
Lemma get_head_loop_not_null rs : forall st buf recvd,
  (get_head_loop rs st buf recvd).1 <> Raise NullRequestError.
Proof.
  induction rs as [|n rs IH]; intros st buf recvd;
    rewrite get_head_loop_unfold;
    destruct (Z.of_nat (length recvd) <? 65537); try done.
  cbv zeta. destruct (find SEPARATOR _) as [body_start|]; [|apply IH].
  cbn [fst]. apply (decode_http_head_not_null _ (fun h => (h, _))).
Qed.

(** The first clause of C8: [NullRequestError] is raised exactly when the
    first read returns zero bytes. *)
Lemma get_head_null_request client :
  (get_head client).1 = Raise NullRequestError
  <-> exists n rs,
        reads client = n :: rs
        /\ (n `min` (BUFSIZE `min` length (stream client)) = 0)%nat.
Proof.
  unfold get_head, recv_into. rewrite length_replicate.
  destruct (reads client) as [|n rs]; cbn [fst].
  { split; [done|]. by intros (n & rs & [=] & _). }
  set (amt := (n `min` (BUFSIZE `min` length (stream client)))%nat).
  cbn [stream reads].
  destruct (Nat.ltb_spec amt BUFSIZE) as [Hlt|Hge].
  - destruct (Nat.eqb_spec amt 0) as [Hz|Hnz].
    + split; [|done]. intros _. by exists n, rs.
    + split.
      * intros Hnull. exfalso. revert Hnull.
        destruct (find SEPARATOR _) as [body_start|].
        -- cbn [fst]. apply (decode_http_head_not_null _ (fun h => (h, _))).
        -- apply get_head_loop_not_null.
      * intros (n' & rs' & [= <- <-] & Hz). done.
  - split.
    + intros Hnull. exfalso. revert Hnull. apply get_head_loop_not_null.
    + intros (n' & rs' & [= <- <-] & Hz). unfold BUFSIZE in Hge. lia.
Qed.

(** A request whose head fails with [VersionError] is not answered: the
    handler of that exception reads [serverclient], which the [try] body had
    not bound yet. *)
Lemma handle_one_request_version_error handles client addr :
  (HttpRequest_init client).1 = Raise VersionError ->
  (handle_one_request handles client addr).1
  = (Raise (UnboundLocalError "serverclient"), []).
Proof.
  unfold handle_one_request.
  destruct (HttpRequest_init client) as [[rq|e] client']; simpl; [done|].
  by intros [= ->].
Qed.

End Http.

(** C5, at an input where the code departs from it.  A POST announces four
    body bytes; the head arrives alone and the body [abcd] in two reads of
    two bytes.  [recv_body] returns with a stored body of six bytes,
    [abcd] followed by two zero bytes of the receive buffer: each turn of
    its loop appends the buffer up to the running total of the counts read,
    not up to the count of that read.  With the body in one read the stored
    body is [abcd]. *)
Theorem recv_body_appends_buffer_tail :
  exists h h',
    (httputil.HttpRequest_init doubles.post_in_three_reads).1 = Ok h
    /\ httputil.headers h !! "content-length"%string = Some (httputil.HInt 4)
    /\ httputil.body h = [97; 98; 99; 100; 0; 0]
    /\ (httputil.HttpRequest_init doubles.post_in_two_reads).1 = Ok h'
    /\ httputil.body h' = [97; 98; 99; 100].
Proof.
  eexists. eexists.
  split; [vm_compute; reflexivity|].
  split; [vm_compute; reflexivity|].
  split; [vm_compute; reflexivity|].
  split; vm_compute; reflexivity.
Qed.

(** C6, at an input where the code departs from it.  The request line
    [GET /] has two fields, so parsing the head raises [VersionError]; whatever
    the handler table, [handle_one_request] then writes nothing and raises
    [UnboundLocalError] instead of writing 505 and returning [False]. *)
Theorem version_error_writes_nothing handles addr :
  (httputil.HttpRequest_init doubles.bare_get).1 = Raise VersionError
  /\ (httpserver.handle_one_request handles doubles.bare_get addr).1
     = (Raise (UnboundLocalError "serverclient"), []).
Proof.
  assert ((httputil.HttpRequest_init doubles.bare_get).1 = Raise VersionError)
    as Hv by (vm_compute; reflexivity).
  split; [exact Hv|]. by apply handle_one_request_version_error.
Qed.

(** C8, at inputs where the code departs from it.  The client sends
    [GET / HTTP/1.1], CR LF, CR LF; the separator starts at offset 14.  When
    the first read returns the first eight bytes, [get_head] returns a head
    of 4104 characters: the eight bytes, the 4088 unused bytes of the
    receive buffer, then the rest of the request line.  When the first read
    ends between the two CR LF, the separator is never found and the next
    read, with nothing left to arrive, fails. *)
Theorem get_head_keeps_buffer_padding :
  text.find httputil.SEPARATOR (httputil.stream doubles.get_in_two_reads)
  = Some 14%nat
  /\ (exists head_str,
        (httputil.get_head doubles.get_in_two_reads).1 = Ok (head_str, [])
        /\ String.length head_str = 4104%nat
        /\ head_str <> ("GET / HTTP/1.1" ++ text.CRLF)%string)
  /\ (httputil.get_head doubles.get_cut_in_separator).1 = Raise SocketError.
Proof.
  split; [vm_compute; reflexivity|]. split.
  - eexists. split; [vm_compute; reflexivity|].
    split; [vm_compute; reflexivity|].
    intros Heq. apply (f_equal String.length) in Heq. vm_compute in Heq.
    discriminate.
  - vm_compute. reflexivity.
Qed.

(** ** The discovery responder *)

Section Discovery.
Import text httputil udpserver doubles.
Local Open Scope string_scope.

Lemma should_respond_true head_str :
  should_respond head_str = Ok true
  <-> exists target version hs,
        RE_REQLINE_match head_str = Some ("IOT-SEARCH", target, version)
        /\ parse_headers head_str = Ok hs
        /\ hs !! "host" = Some (HStr "239.255.255.250:1900")
        /\ hs !! "sv" = Some (HStr "iotscp:discover")
        /\ hs !! "return" = Some (HStr "device; type=basedevice").
Proof.
  unfold should_respond.
  destruct (RE_REQLINE_match head_str) as [[[verb target] version]|] eqn:Hrl;
    [|split; [done|by intros (?&?&?&[=]&_)]].
  destruct (String.eqb_spec verb "IOT-SEARCH") as [->|Hverb];
    [|split; [done|intros (?&?&?&[= Hv _ _]&_); by destruct Hverb]].
  destruct (parse_headers head_str) as [hs|e] eqn:Hhs; simpl;
    [|split; [done|by intros (?&?&?&_&[=]&_)]].
  destruct (hs !! "host") as [host|] eqn:Hhost;
    [|split; [done|intros (?&?&?&_&[= <-]&Hh&_); congruence]].
  destruct (hs !! "sv") as [sv|] eqn:Hsv;
    [|split; [done|intros (?&?&?&_&[= <-]&_&Hs&_); congruence]].
  destruct (hs !! "return") as [ret|] eqn:Hret;
    [|split; [done|intros (?&?&?&_&[= <-]&_&_&Hr); congruence]].
  repeat case_bool_decide; simpl; subst;
    try (split; [done|intros (?&?&?&_&[= <-]&Hh&Hs&Hr); congruence]).
  split; [|done]. intros _. by exists target, version, hs.
Qed.

(** C9 as the code has it: a datagram is answered, with the one fixed
    reply, exactly when it decodes as ASCII, its request line has the three
    fields with [IOT-SEARCH] as the first (the target and the protocol
    version are not compared), its headers parse, and the headers [host],
    [sv] and [return] have the three required values.  Every other datagram
    gets no reply. *)
Theorem discovery_reply_iff address server_port date (data : bytearray) :
  (on_datagram address server_port date data
   = [encode_ascii (response address server_port date)]
   \/ on_datagram address server_port date data = [])
  /\ (on_datagram address server_port date data
      = [encode_ascii (response address server_port date)]
      <-> exists head_str target version hs,
            decode_ascii data = Some head_str
            /\ RE_REQLINE_match head_str = Some ("IOT-SEARCH", target, version)
            /\ parse_headers head_str = Ok hs
            /\ hs !! "host" = Some (HStr "239.255.255.250:1900")
            /\ hs !! "sv" = Some (HStr "iotscp:discover")
            /\ hs !! "return" = Some (HStr "device; type=basedevice")).
Proof.
  unfold on_datagram.
  destruct (decode_ascii data) as [head_str|];
    [|split; [by right|split; [done|by intros (?&?&?&?&[=]&_)]]].
  pose proof (should_respond_true head_str) as Htrue.
  destruct (should_respond head_str) as [[|]|e].
  - split; [by left|]. split; [|done]. intros _.
    destruct (proj1 Htrue eq_refl) as (target & version & hs & Hall).
    by exists head_str, target, version, hs.
  - split; [by right|]. split; [done|].
    intros (? & target & version & hs & [= <-] & Hall).
    assert (Ok false = Ok true) as Habs; [|done].
    apply Htrue. by exists target, version, hs.
  - split; [by right|]. split; [done|].
    intros (? & target & version & hs & [= <-] & Hall).
    assert (@Raise bool e = Ok true) as Habs; [|done].
    apply Htrue. by exists target, version, hs.
Qed.

(** C9 as stated fails: a search for another target, under another
    protocol version, is answered although its request line is not
    [IOT-SEARCH * HTTP/1.1]. *)
Lemma discovery_ignores_target_and_version :
  on_datagram "10.0.0.5" "8000" "Thu, 01 Jan 1970 00:00:00 GMT"
              search_elsewhere
  = [encode_ascii (response "10.0.0.5" "8000" "Thu, 01 Jan 1970 00:00:00 GMT")]
  /\ (decode_ascii search_elsewhere ≫= RE_REQLINE_match)
     = Some ("IOT-SEARCH", "/lamp", "HTTP/1.0")
  /\ (decode_ascii search_elsewhere ≫= RE_REQLINE_match)
     <> Some ("IOT-SEARCH", "*", "HTTP/1.1").
Proof.
  split; [vm_compute; reflexivity|].
  split; [vm_compute; reflexivity|].
  vm_compute. discriminate.
Qed.

(** The search request of the protocol is answered. *)
Example discovery_answers_search :
  on_datagram "10.0.0.5" "8000" "Thu, 01 Jan 1970 00:00:00 GMT" search
  = [encode_ascii (response "10.0.0.5" "8000" "Thu, 01 Jan 1970 00:00:00 GMT")].
Proof. vm_compute. reflexivity. Qed.

End Discovery.

(** ** Session creation *)

Section Hello.
Import scsession httputil serverclient basedevice doubles.
Local Open Scope string_scope.
Context `{Hashlib} `{Codec} `{Json} `{Certificates}.


End Hello.

Section HelloWitnesses.
Import scsession httputil serverclient basedevice doubles.
Local Open Scope string_scope.



End HelloWitnesses.

(* ===================================================================== *)
(** * Part III: further properties of the embedded code                  *)
(* ===================================================================== *)

(** ** The key schedule and the cipher *)

Section SessionMore.
Import scsession.
Context `{Hashlib} `{Codec}.

Lemma clamp_to_bounds (n m c : Z) :
  0 < c -> n <= m ->
  (c | clamp_to n c)
  /\ n < clamp_to n c <= n + c
  /\ clamp_to n c <= clamp_to m c.
Proof.
  intros Hc Hnm. unfold clamp_to.
  pose proof (Z.mod_pos_bound n c Hc) as Hn.
  pose proof (Z.div_mod n c ltac:(lia)) as Hdn.
  pose proof (Z.div_mod m c ltac:(lia)) as Hdm.
  pose proof (Z.div_le_mono n m c Hc Hnm) as Hdiv.
  split; [exists (n / c + 1); lia|]. split; [lia|].
  assert (c * (n / c) <= c * (m / c)) by (apply Z.mul_le_mono_nonneg_l; lia).
  lia.
Qed.

(** X1: for a positive period [c], [clamp_to n c] is a multiple of [c],
    lies strictly above [n] and at most [c] above it, and does not decrease
    when [n] grows. *)
Theorem clamp_to_step (n m c : Z) :
  0 < c -> n <= m ->
  (c | clamp_to n c)
  /\ n < clamp_to n c <= n + c
  /\ clamp_to n c <= clamp_to m c.
Proof.
  exact (clamp_to_bounds n m c).
Qed.

(** X2: the key segment of a session never goes back: a later clock
    reading gives the same segment or a later one; every segment is a
    multiple of [KEY_TTL] and lies strictly after the elapsed time, rounded
    up. *)
Theorem segment_time_monotone s (now later : Q) :
  (now <= later)%Q ->
  get_next_segment_time s now <= get_next_segment_time s later
  /\ (KEY_TTL | get_next_segment_time s now)
  /\ Qceiling (elapsed s now) < get_next_segment_time s now.
Proof.
  intros Hle. unfold get_next_segment_time.
  assert (Qceiling (elapsed s now) <= Qceiling (elapsed s later)) as Hceil.
  { apply Qceiling_resp_le. unfold elapsed. by apply Qplus_le_l. }
  destruct (clamp_to_bounds _ _ KEY_TTL ltac:(done) Hceil) as (Hdiv & Hrange & Hmono).
  split; [done|]. split; [done|lia].
Qed.

(** An invariant of the calls carries over to every reachable session. *)
Lemma run_invariant (P : SCSession -> Prop) :
  (forall c s, is_permutation (cipher s) -> P s -> P (after c s)) ->
  forall cs s, is_permutation (cipher s) -> P s -> P (run cs s).
Proof.
  intros Hstep cs. induction cs as [|c cs IH]; intros s Hc HP; [done|].
  apply IH; [by apply after_permutation|by apply Hstep].
Qed.

Lemma derived_key_shaped s now : key_shaped (derived_key s now).
Proof. split; [apply pbkdf2_hmac_length|apply pbkdf2_hmac_bytes]. Qed.

Lemma keyed_keys now s :
  is_permutation (cipher s) ->
  prev_key (keyed now s) = prev_key s
  /\ (new_key (keyed now s) = new_key s
      \/ new_key (keyed now s) = derived_key s now).
Proof.
  intros Hc. unfold keyed, randomize_if_committed. case_bool_decide.
  - destruct (randomize_spec now s Hc) as (-> & _). split; [done|by right].
  - split; [done|by left].
Qed.

(** X3: both keys of a session are always byte arrays of 256 bytes. *)
Theorem keys_stay_256_bytes crt ht now0 now1 now2 cs :
  length (prev_key (history crt ht now0 now1 now2 cs)) = 256%nat
  /\ Forall is_byte (prev_key (history crt ht now0 now1 now2 cs))
  /\ length (new_key (history crt ht now0 now1 now2 cs)) = 256%nat
  /\ Forall is_byte (new_key (history crt ht now0 now1 now2 cs)).
Proof.
  assert (key_shaped (prev_key (history crt ht now0 now1 now2 cs))
          /\ key_shaped (new_key (history crt ht now0 now1 now2 cs))) as Hk.
  { unfold history.
    apply (run_invariant
             (fun s => key_shaped (prev_key s) /\ key_shaped (new_key s))).
    - intros c s Hc [Hp Hn]. destruct c as [now input|now input_u8|]; simpl.
      + rewrite encrypt_state by done.
        destruct (keyed_keys now s Hc) as (-> & [-> | ->]);
          (split; [done|]); [done|apply derived_key_shaped].
      + rewrite decrypt_state by done.
        destruct (keyed_keys now s Hc) as (-> & [-> | ->]);
          (split; [done|]); [done|apply derived_key_shaped].
      + done.
    - apply init_permutation.
    - split; [|apply derived_key_shaped].
      split; [apply pbkdf2_hmac_length|apply pbkdf2_hmac_bytes]. }
  destruct Hk as [[? ?] [? ?]]. done.
Qed.

(** X4: on a byte array [encrypt] never raises: it returns a byte array of
    the same length and leaves the session keyed for the call. *)
Theorem encrypt_returns_same_length crt ht now0 now1 now2 cs now
    (m : bytearray) :
  Forall is_byte m ->
  exists c,
    encrypt now (Bytes m) (history crt ht now0 now1 now2 cs)
    = (Ok c, keyed now (history crt ht now0 now1 now2 cs))
    /\ length c = length m
    /\ Forall is_byte c.
Proof.
  intros Hm. set (s := history crt ht now0 now1 now2 cs).
  assert (is_permutation (cipher s)) as Hc by apply history_permutation.
  destruct (randomize_if_committed_spec now s Hc) as (Hr & Hc' & _).
  destruct (encrypt_loop_spec (keyed now s) m Hc' Hm) as (Henc & Hbytes).
  exists (imap (enc_byte (cipher (keyed now s))) m).
  split; [|split; [apply length_imap|done]].
  unfold encrypt, mbind, session_bind, bind. by rewrite Hr.
Qed.

(** X5: in one session state [encrypt] is injective on byte arrays: two
    inputs with the same outcome are equal. *)
Theorem encrypt_injective crt ht now0 now1 now2 cs now (m1 m2 : bytearray) :
  Forall is_byte m1 -> Forall is_byte m2 ->
  (encrypt now (Bytes m1) (history crt ht now0 now1 now2 cs)).1
  = (encrypt now (Bytes m2) (history crt ht now0 now1 now2 cs)).1 ->
  m1 = m2.
Proof.
  intros Hm1 Hm2. set (s := history crt ht now0 now1 now2 cs).
  assert (is_permutation (cipher s)) as Hc by apply history_permutation.
  destruct (randomize_if_committed_spec now s Hc) as (Hr & Hc' & _).
  destruct (encrypt_loop_spec (keyed now s) m1 Hc' Hm1) as (Henc1 & _).
  destruct (encrypt_loop_spec (keyed now s) m2 Hc' Hm2) as (Henc2 & _).
  unfold encrypt, mbind, session_bind, bind. rewrite Hr, Henc1, Henc2.
  simpl. intros [= Heq].
  rewrite <- (dec_enc_bytes (cipher (keyed now s)) m1) by done.
  rewrite <- (dec_enc_bytes (cipher (keyed now s)) m2) by done.
  by rewrite Heq.
Qed.

Lemma enc_byte_identity (i : nat) x :
  is_byte x -> enc_byte (range 256) i x = Z.lxor x (Z.of_nat i mod 256).
Proof.
  intros Hx. unfold is_byte in Hx. unfold enc_byte.
  assert (0 <= Z.of_nat i mod 256 < 256) as Hr by (apply Z.mod_pos_bound; lia).
  rewrite !range_lookup by lia. simpl. by rewrite !Z2Nat.id by lia.
Qed.

(** X6: a session whose first derived key differs from its fresh key
    encrypts its first message under the identity cipher: the byte at
    position [i] goes out as [m[i] XOR (i mod 256)], whatever the
    certificate and the keys, and the session is left as it was. *)
Theorem first_message_identity_cipher crt ht now0 now1 now2 now
    (m : bytearray) :
  Forall is_byte m ->
  new_key (init crt ht now0 now1 now2) <> prev_key (init crt ht now0 now1 now2) ->
  encrypt now (Bytes m) (init crt ht now0 now1 now2)
  = (Ok (imap (fun i x => Z.lxor x (Z.of_nat i mod 256)) m),
     init crt ht now0 now1 now2).
Proof.
  intros Hm Hfresh. set (s := init crt ht now0 now1 now2) in *.
  assert (keyed now s = s) as Hkeyed.
  { unfold keyed, randomize_if_committed.
    rewrite bool_decide_eq_false_2; [done|]. intros Heq. by apply Hfresh. }
  assert (is_permutation (cipher s)) as Hc by apply init_permutation.
  destruct (randomize_if_committed_spec now s Hc) as (Hr & _).
  rewrite Hkeyed in Hr.
  destruct (encrypt_loop_spec s m Hc Hm) as (Henc & _).
  unfold encrypt, mbind, session_bind, bind. rewrite Hr, Henc.
  do 2 f_equal. apply list_eq. intros i. rewrite !list_lookup_imap.
  destruct (m !! i) as [x|] eqn:Hx; [|done]. simpl. f_equal.
  apply enc_byte_identity. by eapply Forall_lookup_1.
Qed.

End SessionMore.

Section SessionMoreWitnesses.
Import scsession.

Lemma clamp_to_step_witness :
  (5 | clamp_to 7 5) /\ 7 < clamp_to 7 5 <= 7 + 5
  /\ clamp_to 7 5 <= clamp_to 11 5.
Proof. apply (clamp_to_step 7 11 5); lia. Defined.

Lemma segment_time_monotone_witness :
  get_next_segment_time doubles.a_session 14 <= get_next_segment_time doubles.a_session 19
  /\ (KEY_TTL | get_next_segment_time doubles.a_session 14)
  /\ Qceiling (elapsed doubles.a_session 14) < get_next_segment_time doubles.a_session 14.
Proof. apply (segment_time_monotone doubles.a_session 14 19). vm_compute. discriminate. Defined.

Lemma encrypt_returns_same_length_witness :
  exists c,
    encrypt (H := doubles.mix_hashlib) (H0 := doubles.ascii_codec) 15
            (Bytes [0; 255; 7]) doubles.a_session
    = (Ok c, keyed (H := doubles.mix_hashlib) 15 doubles.a_session)
    /\ length c = 3%nat.
Proof.
  destruct (@encrypt_returns_same_length doubles.mix_hashlib
              doubles.ascii_codec doubles.a_cert "sha256" 12 12 13
              [Encrypt 14 (Bytes [104; 105]); UpdateKey] 15 [0; 255; 7])
    as (c & Henc & Hlen & _).
  - repeat constructor; unfold is_byte; lia.
  - exists c. split; [exact Henc|exact Hlen].
Defined.

Lemma encrypt_injective_witness : [104; 105] = [104; 105] :> bytearray.
Proof.
  apply (@encrypt_injective doubles.mix_hashlib doubles.ascii_codec
           doubles.a_cert "sha256" 12 12 13
           [Encrypt 14 (Bytes [104; 105]); UpdateKey] 15).
  - repeat constructor; unfold is_byte; lia.
  - repeat constructor; unfold is_byte; lia.
  - reflexivity.
Defined.

Lemma first_message_identity_cipher_witness :
  encrypt (H := doubles.mix_hashlib) (H0 := doubles.ascii_codec) 14
          (Bytes [104; 105]) (init (H := doubles.mix_hashlib) doubles.a_cert "sha256" 12 12 13)
  = (Ok [104; 104], init (H := doubles.mix_hashlib) doubles.a_cert "sha256" 12 12 13).
Proof.
  apply (@first_message_identity_cipher doubles.mix_hashlib doubles.ascii_codec
           doubles.a_cert "sha256" 12 12 13 14 [104; 105]).
  - repeat constructor; unfold is_byte; lia.
  - vm_compute. discriminate.
Defined.

End SessionMoreWitnesses.

(** ** One remote call, seen from both sessions *)

Section Exchange.
Import scsession.
Context `{Hashlib} `{Codec}.

Lemma reachable_permutation s : reachable s -> is_permutation (cipher s).
Proof.
  intros (crt & ht & n0 & n1 & n2 & cs & ->). apply history_permutation.
Qed.

Lemma keyed_new_key now s :
  is_permutation (cipher s) ->
  new_key (keyed now s)
  = if bool_decide (prev_key s = new_key s) then derived_key s now
    else new_key s.
Proof.
  intros Hc. unfold keyed, randomize_if_committed.
  case_bool_decide; [|done].
  by destruct (randomize_spec now s Hc) as (-> & _).
Qed.

(** One message from a sender to a receiver in step with it: the text
    arrives, and the two sessions are in step again. *)
Lemma message_in_step sender receiver now_s now_r (u : unicode) :
  is_permutation (cipher sender) -> is_permutation (cipher receiver) ->
  in_step sender receiver ->
  Forall is_byte (utf8_encode u) ->
  utf8_decode (utf8_encode u) = Some u ->
  derived_key sender now_s = derived_key receiver now_r ->
  exists c,
    encrypt now_s (Text u) sender = (Ok c, keyed now_s sender)
    /\ decrypt now_r c receiver = (Ok u, keyed now_r receiver)
    /\ in_step (keyed now_s sender) (keyed now_r receiver)
    /\ is_permutation (cipher (keyed now_s sender))
    /\ is_permutation (cipher (keyed now_r receiver)).
Proof.
  intros Hcs Hcr (Hcipher & Hprev & Hnew) Hbytes Hcodec Hkey.
  destruct (randomize_if_committed_spec now_s sender Hcs) as (Hrs & Hcs' & Hps).
  destruct (randomize_if_committed_spec now_r receiver Hcr)
    as (Hrr & Hcr' & Hpr).
  assert (cipher (keyed now_s sender) = cipher (keyed now_r receiver))
    as Hsame.
  { rewrite !keyed_cipher by done. by rewrite Hcipher, Hprev, Hnew, Hkey. }
  destruct (encrypt_loop_spec (keyed now_s sender) (utf8_encode u) Hcs' Hbytes)
    as (Henc & Hout).
  exists (imap (enc_byte (cipher (keyed now_s sender))) (utf8_encode u)).
  split; [|split; [|split; [|done]]].
  - unfold encrypt, mbind, session_bind, bind. by rewrite Hrs.
  - unfold decrypt, mbind, session_bind, bind, read_cipher, lift, decode.
    rewrite Hrr, length_imap.
    rewrite <- (length_imap (enc_byte (cipher (keyed now_s sender)))
                  (utf8_encode u)) at 1.
    rewrite Hsame in Hout |- *.
    rewrite decrypt_loop_spec by done.
    by rewrite dec_enc_bytes, Hcodec.
  - split; [done|]. split; [by rewrite Hps, Hpr|].
    rewrite !keyed_new_key by done. by rewrite Hprev, Hnew, Hkey.
Qed.

(** X7: one remote call between a client and a device whose sessions are in
    step.  The client encrypts the request text and the device decrypts it;
    both call [update_key]; the device encrypts the response text and the
    client decrypts it.  When the two hosts derive the same key at each of
    the two messages, both texts arrive unchanged and the two sessions end
    in step again: same cipher, same two keys. *)
Theorem remote_call_keeps_in_step client device t1 t2 t3 t4
    (request response : unicode) :
  reachable client -> reachable device ->
  in_step client device ->
  Forall is_byte (utf8_encode request) ->
  utf8_decode (utf8_encode request) = Some request ->
  Forall is_byte (utf8_encode response) ->
  utf8_decode (utf8_encode response) = Some response ->
  derived_key client t1 = derived_key device t2 ->
  derived_key (after UpdateKey (keyed t2 device)) t3
  = derived_key (after UpdateKey (keyed t1 client)) t4 ->
  exists c_req c_resp client' device',
    encrypt t1 (Text request) client = (Ok c_req, keyed t1 client)
    /\ decrypt t2 c_req device = (Ok request, keyed t2 device)
    /\ encrypt t3 (Text response) (after UpdateKey (keyed t2 device))
       = (Ok c_resp, device')
    /\ decrypt t4 c_resp (after UpdateKey (keyed t1 client))
       = (Ok response, client')
    /\ in_step client' device'.
Proof.
  intros Hrc Hrd Hstep Hb1 Hc1 Hb2 Hc2 Hk1 Hk2.
  apply reachable_permutation in Hrc, Hrd.
  destruct (message_in_step client device t1 t2 request Hrc Hrd Hstep Hb1 Hc1 Hk1)
    as (c_req & Henc1 & Hdec1 & (Hci & Hpr & Hnw) & Hpc & Hpd).
  assert (in_step (after UpdateKey (keyed t2 device))
                  (after UpdateKey (keyed t1 client))) as Hstep'.
  { unfold in_step. simpl. by rewrite Hci, Hnw. }
  destruct (message_in_step (after UpdateKey (keyed t2 device))
              (after UpdateKey (keyed t1 client)) t3 t4 response
              Hpd Hpc Hstep' Hb2 Hc2 Hk2)
    as (c_resp & Henc2 & Hdec2 & (Hci' & Hpr' & Hnw') & _).
  exists c_req, c_resp, (keyed t4 (after UpdateKey (keyed t1 client))),
    (keyed t3 (after UpdateKey (keyed t2 device))).
  split; [done|]. split; [done|]. split; [done|]. split; [done|].
  unfold in_step. by rewrite Hci', Hpr', Hnw'.
Qed.

End Exchange.

Section ExchangeWitnesses.
Import scsession doubles.

Lemma remote_call_keeps_in_step_witness :
  exists c_req c_resp client' device',
    encrypt (H := mix_hashlib) (H0 := ascii_codec) 15 (Text [104; 105])
            a_session
    = (Ok c_req, keyed (H := mix_hashlib) 15 a_session)
    /\ decrypt (H := mix_hashlib) (H0 := ascii_codec) 28 c_req a_peer_session
       = (Ok [104; 105], keyed (H := mix_hashlib) 28 a_peer_session)
    /\ encrypt (H := mix_hashlib) (H0 := ascii_codec) 29 (Text [111; 107])
               (after (H := mix_hashlib) (H0 := ascii_codec) UpdateKey
                      (keyed (H := mix_hashlib) 28 a_peer_session))
       = (Ok c_resp, device')
    /\ decrypt (H := mix_hashlib) (H0 := ascii_codec) 16 c_resp
               (after (H := mix_hashlib) (H0 := ascii_codec) UpdateKey
                      (keyed (H := mix_hashlib) 15 a_session))
       = (Ok [111; 107], client')
    /\ in_step client' device'.
Proof.
  apply (@remote_call_keeps_in_step mix_hashlib ascii_codec a_session
           a_peer_session 15 28 29 16 [104; 105] [111; 107]).
  - by exists a_cert, "sha256"%string, 12%Q, 12%Q, 13%Q,
      [Encrypt 14 (Bytes [104; 105]); UpdateKey].
  - by exists a_cert, "sha256"%string, 12%Q, 25%Q, 26%Q,
      [Decrypt 27 [99; 103]; UpdateKey].
  - unfold in_step.
    split; [vm_compute; reflexivity|split; vm_compute; reflexivity].
  - repeat constructor; unfold is_byte; lia.
  - vm_compute. reflexivity.
  - repeat constructor; unfold is_byte; lia.
  - vm_compute. reflexivity.
  - vm_compute. reflexivity.
  - vm_compute. reflexivity.
Defined.

End ExchangeWitnesses.
(** ** Checks on service methods and events *)

Section ServicesMore.
Import services.
Context {Device : Type}.

Lemma verify_returns_conforms (rs : list ServiceArg) (output : gmap string value) :
  verify_returns rs output = Ok tt <-> conforms rs output = true.
Proof.
  induction rs as [|[arg t] rs IH]; simpl; [done|].
  destruct (output !! arg) as [v|]; [|done].
  destruct (isinstance v t); simpl; [done|]. split; discriminate.
Qed.

Lemma verify_returns_error (rs : list ServiceArg) (output : gmap string value) e :
  verify_returns rs output = Raise e -> exists msg, e = ServiceMethodError msg.
Proof.
  induction rs as [|[arg t] rs IH]; simpl; [done|].
  destruct (output !! arg) as [v|]; [|intros [= <-]; eauto].
  destruct (isinstance v t); simpl; [done|]. intros [= <-]. eauto.
Qed.

Lemma conforms_weaken (rs : list ServiceArg) (out out' : gmap string value) :
  out ⊆ out' -> conforms rs out = true -> conforms rs out' = true.
Proof.
  intros Hsub. unfold conforms. rewrite !forallb_forall.
  intros Hall d Hd. specialize (Hall d Hd).
  destruct (out !! d.1) as [v|] eqn:Hv; [|done].
  by rewrite (lookup_weaken _ _ _ _ Hv Hsub).
Qed.

(** X8: [verify_output] accepts the output of a thunk exactly when it is a
    bag (not [None]) that binds every declared return name to a value of the
    declared type; bindings beyond the declared ones are accepted; and every
    rejection is a [ServiceMethodError]. *)
Theorem verify_output_checks_values (m : ServiceMethod Device)
    (output : option (gmap string value)) :
  (verify_output m output = Ok tt
   <-> exists out, output = Some out /\ conforms (returns m) out = true)
  /\ (forall out out',
        out ⊆ out' -> verify_output m (Some out) = Ok tt ->
        verify_output m (Some out') = Ok tt)
  /\ (forall e, verify_output m output = Raise e ->
        exists msg, e = ServiceMethodError msg).
Proof.
  split; [|split].
  - destruct output as [out|]; simpl.
    + rewrite verify_returns_conforms. split; [by exists out|].
      by intros (out' & [= <-] & Hc).
    + split; [done|]. by intros (out & [=] & _).
  - intros out out' Hsub. simpl. rewrite !verify_returns_conforms.
    by apply conforms_weaken.
  - intros e. destruct output as [out|]; simpl.
    + apply verify_returns_error.
    + intros [= <-]. eauto.
Qed.

Lemma check_args_error (decl : list ServiceArg) (args_dict : gmap string value) e :
  check_args decl args_dict = Raise e -> exists msg, e = ServiceArgError msg.
Proof.
  induction decl as [|[arg t] decl IH]; simpl; [done|].
  destruct (args_dict !! arg) as [v|]; [|intros [= <-]; eauto].
  destruct t; simpl; try done; intros [= <-]; eauto.
Qed.

(** X9: whatever [main] returns has passed the check of the output: it is a
    bag binding every declared return name to a value of the declared type,
    it is what the thunk returned, and the thunk was called once, on the
    bag of arguments. *)
Theorem main_returns_checked_output (m : ServiceMethod Device) device
    (args_dict : gmap string value) output :
  (main m device args_dict).1 = Ok output ->
  exists out,
    output = Some out
    /\ conforms (returns m) out = true
    /\ thunk m device args_dict = Ok (Some out)
    /\ (main m device args_dict).2 = [args_dict].
Proof.
  unfold main. destruct (check_args (args m) args_dict) as [[]|e]; [|done].
  destruct (thunk m device args_dict) as [o|e]; [|done].
  destruct (verify_output m o) as [[]|e] eqn:Hv; [|done].
  simpl. intros [= <-].
  destruct o as [out|]; [|done]. simpl in Hv.
  apply verify_returns_conforms in Hv. by exists out.
Qed.

(** X10: when a declared argument name is not bound in the bag, [main]
    raises [ServiceArgError] and does not call the thunk. *)
Theorem main_missing_argument (m : ServiceMethod Device) device
    (args_dict : gmap string value) (d : ServiceArg) :
  d ∈ args m -> args_dict !! d.1 = None ->
  exists msg, main m device args_dict = (Raise (ServiceArgError msg), []).
Proof.
  intros Hd Hnone. unfold main.
  destruct (check_args (args m) args_dict) as [[]|e] eqn:Hchk.
  - apply check_args_spec in Hchk.
    rewrite Forall_forall in Hchk. destruct (Hchk d Hd) as [[v Hv] _].
    congruence.
  - destruct (check_args_error _ _ _ Hchk) as [msg ->]. by exists msg.
Qed.

(** X11: [validate] accepts the items of an event exactly when every
    supplied name is declared and bound to a value of the declared type; a
    declared name may be left out. *)
Theorem validate_checks_supplied_items (ev : ServiceEvent)
    (items : list (string * value)) :
  validate ev items = Ok tt
  <-> Forall (fun kv : string * value =>
                exists d : ServiceArg,
                  sends ev !! kv.1 = Some d /\ isinstance kv.2 d.2 = true)
             items.
Proof.
  induction items as [|[k v] items IH]; simpl.
  - split; [constructor|done].
  - rewrite Forall_cons. simpl. destruct (sends ev !! k) as [d|] eqn:Hd.
    + destruct (isinstance v d.2) eqn:Hi; simpl.
      * rewrite IH. split; [intros Hall; split; [by exists d|done]|by intros [_ ?]].
      * split; [discriminate|]. intros [(d' & [= <-] & Hi') _]. congruence.
    + split; [discriminate|]. by intros [(d' & [=] & _) _].
Qed.

End ServicesMore.

Section ServicesMoreWitnesses.
Import services doubles.

Lemma main_returns_checked_output_witness :
  exists out,
    Some (∅ : gmap string value) = Some out
    /\ conforms (returns set_label) out = true
    /\ thunk set_label tt label_bag = Ok (Some out)
    /\ (main set_label tt label_bag).2 = [label_bag].
Proof.
  apply (@main_returns_checked_output unit set_label tt label_bag (Some ∅)).
  vm_compute. reflexivity.
Defined.

Lemma main_missing_argument_witness :
  exists msg, main set_binary_state tt ∅ = (Raise (ServiceArgError msg), []).
Proof.
  apply (@main_missing_argument unit set_binary_state tt ∅
           ("BinaryState"%string, TBool)).
  - vm_compute. left.
  - vm_compute. reflexivity.
Defined.

End ServicesMoreWitnesses.

(** ** The request line and the headers *)

Section RequestLine.
Import text httputil.
Local Open Scope string_scope.
Local Arguments String.append : simpl nomatch.

Lemma append_nil_r (s : string) : s ++ "" = s.
Proof. induction s as [|c s IH]; simpl; [done|by rewrite IH]. Qed.

Lemma append_assoc (a b c : string) : (a ++ b) ++ c = a ++ (b ++ c).
Proof. induction a as [|x a IH]; simpl; [done|by rewrite IH]. Qed.

Lemma all_chars_app p (a b : string) :
  all_chars p (a ++ b) = all_chars p a && all_chars p b.
Proof.
  induction a as [|x a IH]; simpl; [done|]. rewrite IH. by rewrite andb_assoc.
Qed.

Lemma lit_sound (p s r : string) : lit p s = Some r -> s = p ++ r.
Proof.
  revert s. induction p as [|a p IH]; intros s; simpl.
  - by intros [= ->].
  - destruct s as [|b s]; [done|].
    destruct (Ascii.eqb_spec a b) as [->|]; [|done].
    intros Hl. by rewrite (IH _ Hl).
Qed.

Lemma lit_app (p r : string) : lit p (p ++ r) = Some r.
Proof.
  induction p as [|a p IH]; simpl; [done|]. by rewrite Ascii.eqb_refl.
Qed.

(** What a lazy group has matched when the pattern succeeds. *)
Lemma lengthen_sound {A} (k : string -> string -> option A) s : forall g r,
  lengthen k g s = Some r ->
  exists t rest,
    s = t ++ rest /\ all_chars is_dot t = true /\ k (g ++ t) rest = Some r.
Proof.
  induction s as [|c s IH]; intros g r; simpl.
  - destruct (k g "") eqn:Hk; [|done]. intros [= ->].
    exists "", "". split; [done|]. split; [done|]. by rewrite append_nil_r.
  - destruct (k g (String c s)) eqn:Hk.
    + intros [= ->]. exists "", (String c s).
      split; [done|]. split; [done|]. by rewrite append_nil_r.
    + destruct (is_dot c) eqn:Hc; [|done]. intros Hl.
      destruct (IH _ _ Hl) as (t & rest & -> & Ht & Hr).
      exists (String c t), rest. simpl. rewrite Hc, Ht.
      split; [done|]. split; [done|].
      by rewrite append_assoc in Hr.
Qed.

Lemma lazy_group_sound {A} (k : string -> string -> option A) s r :
  lazy_group k s = Some r ->
  exists g rest,
    s = g ++ rest /\ g <> "" /\ all_chars is_dot g = true
    /\ k g rest = Some r.
Proof.
  unfold lazy_group. destruct s as [|c s]; [done|].
  destruct (is_dot c) eqn:Hc; [|done]. intros Hl.
  destruct (lengthen_sound _ _ _ _ Hl) as (t & rest & -> & Ht & Hr).
  exists (String c t), rest. simpl. rewrite Hc, Ht. done.
Qed.

(** The group grows past every prefix after which the rest of the pattern
    fails. *)
Lemma lengthen_skip {A} (k : string -> string -> option A) rest t : forall g,
  all_chars is_dot t = true ->
  (forall t1 c t2, t = t1 ++ String c t2 ->
     k (g ++ t1) (String c t2 ++ rest) = None) ->
  lengthen k g (t ++ rest) = lengthen k (g ++ t) rest.
Proof.
  induction t as [|c t IH]; intros g Hdot Hfail.
  - by rewrite append_nil_r.
  - simpl in Hdot. apply andb_true_iff in Hdot as [Hc Ht].
    pose proof (Hfail "" c t eq_refl) as H0. rewrite append_nil_r in H0.
    simpl in H0. simpl. rewrite H0, Hc.
    rewrite IH; [by rewrite append_assoc|done|].
    intros t1 c' t2 ->. rewrite append_assoc. simpl.
    apply (Hfail (String c t1) c' t2). done.
Qed.

Lemma lengthen_here {A} (k : string -> string -> option A) g s r :
  k g s = Some r -> lengthen k g s = Some r.
Proof. intros Hk. destruct s; simpl; by rewrite Hk. Qed.

Lemma lazy_group_first {A} (k : string -> string -> option A) c t rest r :
  all_chars is_dot (String c t) = true ->
  (forall t1 c' t2, t = t1 ++ String c' t2 ->
     k (String c t1) (String c' t2 ++ rest) = None) ->
  k (String c t) rest = Some r ->
  lazy_group k (String c t ++ rest) = Some r.
Proof.
  intros Hdot Hfail Hk. simpl in Hdot.
  apply andb_true_iff in Hdot as [Hc Ht].
  simpl. rewrite Hc. rewrite lengthen_skip; [|done|done].
  by apply lengthen_here.
Qed.

(** X12: when the request line pattern matches, the subject starts with the
    three groups, separated by single spaces and followed by CR LF; each
    group is not empty and has no line feed. *)
Theorem request_line_match_sound (s verb target version : string) :
  RE_REQLINE_match s = Some (verb, target, version) ->
  exists rest,
    s = verb ++ " " ++ target ++ " " ++ version ++ CRLF ++ rest
    /\ verb <> "" /\ target <> "" /\ version <> ""
    /\ all_chars is_dot verb = true
    /\ all_chars is_dot target = true
    /\ all_chars is_dot version = true.
Proof.
  unfold RE_REQLINE_match. intros Hm.
  destruct (lazy_group_sound _ _ _ Hm) as (g1 & r1 & -> & Hn1 & Hd1 & Hk1).
  revert Hk1. destruct (lit " " r1) as [r1'|] eqn:Hl1; cbn [mbind option_bind];
    [|discriminate].
  intros Hk1.
  apply lit_sound in Hl1 as ->.
  destruct (lazy_group_sound _ _ _ Hk1) as (g2 & r2 & -> & Hn2 & Hd2 & Hk2).
  revert Hk2. destruct (lit " " r2) as [r2'|] eqn:Hl2; cbn [mbind option_bind];
    [|discriminate].
  intros Hk2.
  apply lit_sound in Hl2 as ->.
  destruct (lazy_group_sound _ _ _ Hk2) as (g3 & r3 & -> & Hn3 & Hd3 & Hk3).
  revert Hk3. destruct (lit CRLF r3) as [r3'|] eqn:Hl3; cbn [mbind option_bind];
    [|discriminate].
  intros Hk3.
  apply lit_sound in Hl3 as ->. injection Hk3 as <- <- <-.
  by exists r3'.
Qed.

Lemma request_line_match_sound_witness :
  exists rest,
    "GET / HTTP/1.1" ++ CRLF ++ "Host: a" ++ CRLF
    = "GET" ++ " " ++ "/" ++ " " ++ "HTTP/1.1" ++ CRLF ++ rest
    /\ "GET" <> "" /\ "/" <> "" /\ "HTTP/1.1" <> ""
    /\ all_chars is_dot "GET" = true
    /\ all_chars is_dot "/" = true
    /\ all_chars is_dot "HTTP/1.1" = true.
Proof.
  apply (request_line_match_sound
           ("GET / HTTP/1.1" ++ CRLF ++ "Host: a" ++ CRLF)).
  vm_compute. reflexivity.
Defined.

Lemma lit_space_fails c (s : string) :
  is_word c = true -> lit " " (String c s) = None.
Proof.
  unfold is_word. intros [_ Hs%negb_true_iff]%andb_true_iff.
  cbn [lit]. by rewrite Hs.
Qed.

Lemma lit_crlf_fails c (s : string) :
  is_line c = true -> lit CRLF (String c s) = None.
Proof.
  unfold is_line. intros [_ Hs%negb_true_iff]%andb_true_iff.
  unfold CRLF. cbn [lit]. by rewrite Hs.
Qed.

Lemma all_chars_split p (t t1 t2 : string) c :
  all_chars p t = true -> t = t1 ++ String c t2 -> p c = true.
Proof.
  intros Ht ->. rewrite all_chars_app in Ht. simpl in Ht.
  by repeat (apply andb_true_iff in Ht as [? Ht] || apply andb_true_iff in Ht as [Ht ?]).
Qed.

Lemma all_chars_impl (p q : ascii -> bool) (s : string) :
  (forall c, p c = true -> q c = true) ->
  all_chars p s = true -> all_chars q s = true.
Proof.
  intros Hpq. induction s as [|c s IH]; simpl; [done|].
  rewrite !andb_true_iff. intros [Hc Hs]. split; [by apply Hpq|by apply IH].
Qed.

Lemma is_word_dot c : is_word c = true -> is_dot c = true.
Proof. unfold is_word. by intros [? ?]%andb_true_iff. Qed.

Lemma is_line_dot c : is_line c = true -> is_dot c = true.
Proof. unfold is_line. by intros [? ?]%andb_true_iff. Qed.

Lemma RE_REQLINE_match_fields (verb target version rest : string) :
  verb <> "" -> target <> "" -> version <> "" ->
  all_chars is_word verb = true ->
  all_chars is_word target = true ->
  all_chars is_line version = true ->
  RE_REQLINE_match (verb ++ " " ++ target ++ " " ++ version ++ CRLF ++ rest)
  = Some (verb, target, version).
Proof.
  intros Hv Ht Hp Hwv Hwt Hlp. unfold RE_REQLINE_match.
  destruct verb as [|c1 verb]; [done|].
  destruct target as [|c2 target]; [done|].
  destruct version as [|c3 version]; [done|].
  apply lazy_group_first.
  - by apply (all_chars_impl is_word), Hwv; apply is_word_dot.
  - intros t1 c' t2 Hsplit. simpl in Hwv.
    apply andb_true_iff in Hwv as [_ Hwv].
    change (String c' t2 ++ ?r) with (String c' (t2 ++ r)). cbn beta.
    by rewrite (lit_space_fails c' _ (all_chars_split _ _ _ _ _ Hwv Hsplit)).
  - cbn beta.
    rewrite (lit_app " "). cbn [mbind option_bind].
    apply lazy_group_first.
    + by apply (all_chars_impl is_word), Hwt; apply is_word_dot.
    + intros t1 c' t2 Hsplit. simpl in Hwt.
      apply andb_true_iff in Hwt as [_ Hwt].
      change (String c' t2 ++ ?r) with (String c' (t2 ++ r)). cbn beta.
      by rewrite (lit_space_fails c' _ (all_chars_split _ _ _ _ _ Hwt Hsplit)).
    + cbn beta.
      rewrite (lit_app " "). cbn [mbind option_bind].
      apply lazy_group_first.
      * by apply (all_chars_impl is_line), Hlp; apply is_line_dot.
      * intros t1 c' t2 Hsplit. simpl in Hlp.
        apply andb_true_iff in Hlp as [_ Hlp].
        change (String c' t2 ++ ?r) with (String c' (t2 ++ r)). cbn beta.
        by rewrite (lit_crlf_fails c' _ (all_chars_split _ _ _ _ _ Hlp Hsplit)).
      * by rewrite lit_app.
Qed.

(** X13: a request line made of a verb and a target without spaces and a
    version, none of them empty and none with CR or LF, is split into
    exactly these three fields, whatever follows the line. *)
Theorem request_line_match_complete (verb target version rest : string) :
  verb <> "" -> target <> "" -> version <> "" ->
  all_chars is_word verb = true ->
  all_chars is_word target = true ->
  all_chars is_line version = true ->
  RE_REQLINE_match (verb ++ " " ++ target ++ " " ++ version ++ CRLF ++ rest)
  = Some (verb, target, version).
Proof.
  exact (RE_REQLINE_match_fields verb target version rest).
Qed.

Lemma request_line_match_complete_witness :
  RE_REQLINE_match ("SUBSCRIBE" ++ " " ++ "/event/sensor/" ++ " " ++ "HTTP/1.1"
                    ++ CRLF ++ "uuid: abc" ++ CRLF)
  = Some ("SUBSCRIBE", "/event/sensor/", "HTTP/1.1").
Proof.
  apply (request_line_match_complete "SUBSCRIBE" "/event/sensor/" "HTTP/1.1");
    try discriminate; vm_compute; reflexivity.
Defined.

End RequestLine.

Section Headers.
Import text httputil.
Local Open Scope string_scope.

Lemma lower_char_idempotent c : lower_char (lower_char c) = lower_char c.
Proof. destruct c as [[] [] [] [] [] [] [] []]; reflexivity. Qed.

Lemma lower_idempotent s : lower (lower s) = lower s.
Proof.
  induction s as [|c s IH]; simpl; [done|].
  by rewrite lower_char_idempotent, IH.
Qed.

Lemma collect_headers_shaped ms : forall d hs,
  header_shaped d -> collect_headers ms d = Ok hs -> header_shaped hs.
Proof.
  induction ms as [|[k0 v0] ms IH]; intros d hs Hd; simpl.
  - by intros [= <-].
  - case_bool_decide as Hnum.
    + apply list_elem_of_singleton in Hnum.
      unfold parse_number. destruct (int_of_str v0) as [n|]; [|done].
      cbn [mbind result_bind rbind]. apply IH.
      intros k v. rewrite lookup_insert. case_decide as Hk.
      * intros [= <-]. subst k. split; [apply lower_idempotent|].
        split; [by exists n|]. by rewrite Hnum.
      * by apply Hd.
    + apply IH. intros k v. rewrite lookup_insert. case_decide as Hk.
      * intros [= <-]. subst k. split; [apply lower_idempotent|].
        split; [|by exists v0]. intros Heq. destruct Hnum.
        apply list_elem_of_singleton. done.
      * by apply Hd.
Qed.

Lemma collect_headers_error ms : forall d e,
  collect_headers ms d = Raise e -> e = HeaderTypeError "content-length".
Proof.
  induction ms as [|[k0 v0] ms IH]; intros d e; simpl; [done|].
  case_bool_decide as Hnum.
  - apply list_elem_of_singleton in Hnum. rewrite Hnum.
    unfold parse_number. destruct (int_of_str v0) as [n|].
    + cbn [mbind result_bind rbind]. apply IH.
    + cbn [mbind result_bind rbind]. by intros [= <-].
  - apply IH.
Qed.

(** X14: in the dictionary returned by [parse_headers] every name is in
    lower case, [content-length] is bound to an integer and every other name
    to text; the only exception [parse_headers] raises is [HeaderTypeError]
    for [content-length]. *)
Theorem parse_headers_shape (head_str : string) :
  (forall hs k v,
     parse_headers head_str = Ok hs -> hs !! k = Some v ->
     lower k = k
     /\ (k = "content-length" -> exists n, v = HInt n)
     /\ (k <> "content-length" -> exists s, v = HStr s))
  /\ (forall e, parse_headers head_str = Raise e ->
        e = HeaderTypeError "content-length").
Proof.
  split.
  - intros hs k v Hp. revert k v.
    apply (collect_headers_shaped (RE_HEADERS_finditer O head_str) ∅ hs);
      [|exact Hp].
    intros k v. by rewrite lookup_empty.
  - intros e. apply collect_headers_error.
Qed.

End Headers.

Section HeadersWitnesses.
Import text httputil doubles.
Local Open Scope string_scope.

Lemma parse_headers_shape_witness :
  lower "content-length" = "content-length"
  /\ ("content-length" = "content-length" -> exists n, HInt 4 = HInt n)
  /\ ("content-length" <> "content-length" -> exists s, HInt 4 = HStr s).
Proof.
  destruct (parse_headers_shape post_abcd) as [Hshape _].
  destruct (parse_headers post_abcd) as [hs|] eqn:Hp; [|by vm_compute in Hp].
  apply (Hshape hs "content-length" (HInt 4) eq_refl).
  assert (Ok hs ≫= (fun hs => Ok (hs !! "content-length"))
          = Ok (Some (HInt 4))) as Hl
    by (rewrite <- Hp; vm_compute; reflexivity).
  simpl in Hl. by injection Hl.
Defined.

End HeadersWitnesses.

(** ** One read for the head, one read for the body *)

Section SingleRead.
Import text httputil.

Lemma find_unfold (sub l : bytearray) :
  find sub l
  = if starts_with sub l then Some O
    else match l with
         | [] => None
         | _ :: l' => S <$> find sub l'
         end.
Proof. by destruct l. Qed.

Lemma starts_with_length (sub l : bytearray) :
  starts_with sub l = true -> (length sub <= length l)%nat.
Proof.
  revert l. induction sub as [|a sub IH]; intros l; simpl; [lia|].
  destruct l as [|b l]; [done|]. intros [_ Hs]%andb_true_iff.
  specialize (IH _ Hs). simpl. lia.
Qed.

Lemma starts_with_app_l (sub l l' : bytearray) :
  (length sub <= length l)%nat ->
  starts_with sub (l ++ l') = starts_with sub l.
Proof.
  revert l. induction sub as [|a sub IH]; intros l; simpl; [done|].
  destruct l as [|b l]; simpl; [lia|]. intros Hlen.
  rewrite IH by lia. done.
Qed.

Lemma starts_with_take (sub l : bytearray) :
  starts_with sub l = true -> take (length sub) l = sub.
Proof.
  revert l. induction sub as [|a sub IH]; intros l; simpl; [done|].
  destruct l as [|b l]; [done|]. intros [Hab Hs]%andb_true_iff.
  apply Z.eqb_eq in Hab as ->. simpl. by rewrite IH.
Qed.

Lemma find_Some (sub l : bytearray) : forall p,
  find sub l = Some p ->
  (p + length sub <= length l)%nat /\ take (length sub) (drop p l) = sub.
Proof.
  induction l as [|b l IH]; intros p; rewrite find_unfold.
  - destruct (starts_with sub []) eqn:Hs; [|done]. intros [= <-].
    split; [by apply starts_with_length in Hs|by apply starts_with_take].
  - destruct (starts_with sub (b :: l)) eqn:Hs.
    + intros [= <-].
      split; [by apply starts_with_length in Hs|by apply starts_with_take].
    + destruct (find sub l) as [q|]; [|done]. simpl. intros [= <-].
      destruct (IH q eq_refl) as [Hlen Htake]. simpl. split; [lia|done].
Qed.

(** The first occurrence found in a list is found in every extension. *)
Lemma find_app_stable (sub l l' : bytearray) : forall p,
  find sub l = Some p -> find sub (l ++ l') = Some p.
Proof.
  induction l as [|b l IH]; intros p Hf.
  - rewrite find_unfold in Hf. destruct (starts_with sub []) eqn:Hs; [|done].
    injection Hf as <-. rewrite find_unfold.
    rewrite starts_with_app_l by (by apply starts_with_length). by rewrite Hs.
  - rewrite find_unfold in Hf. rewrite (find_unfold sub ((b :: l) ++ l')).
    destruct (starts_with sub (b :: l)) eqn:Hs.
    + injection Hf as <-.
      rewrite starts_with_app_l by (by apply starts_with_length). by rewrite Hs.
    + destruct (find sub l) as [q|] eqn:Hq; [|done]. simpl in Hf.
      injection Hf as <-.
      destruct (find_Some _ _ _ Hq) as [Hlen _].
      rewrite starts_with_app_l by (simpl; lia). rewrite Hs.
      cbn [app]. by rewrite (IH q eq_refl).
Qed.

Lemma get_head_single_read (pre post : bytearray) (n : nat) rs head_str :
  (length (pre ++ SEPARATOR ++ post) < BUFSIZE)%nat ->
  (length (pre ++ SEPARATOR ++ post) <= n)%nat ->
  find SEPARATOR (pre ++ SEPARATOR ++ post) = Some (length pre) ->
  decode_ascii (pre ++ [13; 10]) = Some head_str ->
  get_head {| stream := pre ++ SEPARATOR ++ post; reads := n :: rs |}
  = (Ok (head_str, post), {| stream := []; reads := rs |}).
Proof.
  intros Hshort Hn Hfind Hdec.
  set (st := pre ++ SEPARATOR ++ post) in *.
  unfold get_head, recv_into. cbn [reads stream].
  rewrite length_replicate.
  replace (n `min` (BUFSIZE `min` length st))%nat with (length st) by lia.
  rewrite firstn_all, drop_all.
  destruct (Nat.ltb_spec (length st) BUFSIZE) as [_|]; [|lia].
  assert (length st = length pre + 4 + length post)%nat as Hlen.
  { unfold st. rewrite !length_app. simpl. lia. }
  destruct (Nat.eqb_spec (length st) 0) as [|_]; [lia|].
  rewrite (find_app_stable _ _ _ _ Hfind).
  assert (take (length pre + 2) (st ++ drop (length st) (replicate BUFSIZE 0))
          = pre ++ [13; 10]) as ->.
  { rewrite take_app_le by lia. unfold st.
    rewrite take_app_ge by lia.
    replace (length pre + 2 - length pre)%nat with 2%nat by lia. done. }
  assert (slice (st ++ drop (length st) (replicate BUFSIZE 0))
                (length pre + 4) (length st) = post) as ->.
  { unfold slice.
    replace (length st - (length pre + 4))%nat with (length post) by lia.
    rewrite drop_app_le by lia.
    assert (drop (length pre + 4) st = post) as ->.
    { unfold st. rewrite drop_app_ge by lia.
      replace (length pre + 4 - length pre)%nat with 4%nat by lia. done. }
    apply take_app_length. }
  unfold decode_http_head. by rewrite Hdec.
Qed.

(** X15: when the whole request arrives in the first read and is shorter
    than the buffer, [get_head] splits it at the first CR LF CR LF: the head
    is the text before it with one CR LF, the body is what follows, and the
    socket is left with nothing of the request. *)
Theorem get_head_one_read (pre post : bytearray) (n : nat) rs head_str :
  (length (pre ++ SEPARATOR ++ post) < BUFSIZE)%nat ->
  (length (pre ++ SEPARATOR ++ post) <= n)%nat ->
  find SEPARATOR (pre ++ SEPARATOR ++ post) = Some (length pre) ->
  decode_ascii (pre ++ [13; 10]) = Some head_str ->
  get_head {| stream := pre ++ SEPARATOR ++ post; reads := n :: rs |}
  = (Ok (head_str, post), {| stream := []; reads := rs |}).
Proof.
  exact (get_head_single_read pre post n rs head_str).
Qed.

Lemma recv_body_loop_unfold rs st buf amt nbytes bd :
  recv_body_loop rs st buf amt nbytes bd
  = if amt <? nbytes
    then match rs with
         | [] => (Raise SocketError, {| stream := st; reads := [] |})
         | n :: rs' =>
             let got := (n `min` (length buf `min` length st))%nat in
             let buf' := take got st ++ drop got buf in
             let amt' := amt + Z.of_nat got in
             recv_body_loop rs' (drop got st) buf' amt' nbytes
                            (bd ++ take (Z.to_nat amt') buf')
         end
    else (Ok bd, {| stream := st; reads := rs |}).
Proof. by destruct rs. Qed.

(** X16: when the next read returns exactly the bytes still missing from
    the body, [recv_body] stores the body complete: what arrived with the
    head followed by these bytes, [content-length] bytes in all. *)
Theorem recv_body_one_read (h : HttpHead) (client : socket)
    (content_length : Z) (n : nat) rs :
  headers h !! "content-length"%string = Some (HInt content_length) ->
  Z.of_nat (length (body h)) < content_length ->
  reads client = n :: rs ->
  Z.of_nat (n `min` (BUFSIZE `min` length (stream client)))
  = content_length - Z.of_nat (length (body h)) ->
  recv_body h client
  = (Ok (set_body
           (body h
            ++ take (n `min` (BUFSIZE `min` length (stream client)))
                    (stream client)) h),
     {| stream := drop (n `min` (BUFSIZE `min` length (stream client)))
                       (stream client);
        reads := rs |})
  /\ Z.of_nat
       (length (body h
                ++ take (n `min` (BUFSIZE `min` length (stream client)))
                        (stream client)))
     = content_length.
Proof.
  intros Hcl Hless Hreads Hgot.
  set (got := (n `min` (BUFSIZE `min` length (stream client)))%nat) in *.
  split.
  - unfold recv_body. rewrite Hcl.
    destruct (Z.ltb_spec (Z.of_nat (length (body h))) content_length);
      [|lia].
    rewrite Hreads, recv_body_loop_unfold.
    destruct (Z.ltb_spec 0 (content_length - Z.of_nat (length (body h))));
      [|lia].
    cbv zeta. rewrite length_replicate. fold got.
    rewrite recv_body_loop_unfold.
    destruct (Z.ltb_spec (0 + Z.of_nat got)
                (content_length - Z.of_nat (length (body h)))); [lia|].
    replace (Z.to_nat (0 + Z.of_nat got)) with got by lia.
    rewrite take_app_le by (rewrite length_take; lia).
    rewrite take_take, Nat.min_id. done.
  - rewrite length_app, length_take. lia.
Qed.

End SingleRead.

Section SingleReadWitnesses.
Import text httputil doubles.

Lemma get_head_one_read_witness :
  get_head {| stream := encode_ascii "GET / HTTP/1.1" ++ SEPARATOR ++ [97];
              reads := [100%nat] |}
  = (Ok (("GET / HTTP/1.1" ++ CRLF)%string, [97]),
     {| stream := []; reads := [] |}).
Proof.
  apply (get_head_one_read (encode_ascii "GET / HTTP/1.1") [97] 100 []).
  - vm_compute. lia.
  - vm_compute. lia.
  - vm_compute. reflexivity.
  - vm_compute. reflexivity.
Defined.

Lemma recv_body_one_read_witness :
  exists h,
    (HttpHead_init post_in_two_reads).1 = Ok h
    /\ (recv_body h (HttpHead_init post_in_two_reads).2).1
       = Ok (set_body [97; 98; 99; 100] h).
Proof.
  destruct (HttpHead_init post_in_two_reads) as [[h|e] client] eqn:Hh;
    [|by vm_compute in Hh].
  exists h. split; [reflexivity|].
  assert (headers h !! "content-length"%string = Some (HInt 4)
          /\ body h = [] /\ client = {| stream := [97; 98; 99; 100];
                                        reads := [4%nat] |}) as (Hcl & Hb & ->).
  { assert ((Ok h, client)
            = (HttpHead_init post_in_two_reads)) as Heq by done.
    vm_compute in Heq. injection Heq as -> ->.
    repeat split; vm_compute; reflexivity. }
  destruct (recv_body_one_read h {| stream := [97; 98; 99; 100];
                                    reads := [4%nat] |} 4 4 [] Hcl) as [Hr _].
  - rewrite Hb. simpl. lia.
  - reflexivity.
  - rewrite Hb. vm_compute. reflexivity.
  - cbn [fst snd]. rewrite Hr, Hb. vm_compute. reflexivity.
Defined.

End SingleReadWitnesses.

(** ** The dispatch of one request *)

Section Dispatch.
Import text httputil serverclient httpserver.
Local Open Scope string_scope.

(** X17: when the first read on the connection returns no byte,
    [handle_one_request] writes nothing and returns [False], whatever the
    handler table: the connection is closed without an answer. *)
Theorem empty_read_closes_silently handles (client : socket) addr
    (n : nat) rs :
  reads client = n :: rs ->
  (n `min` (BUFSIZE `min` length (stream client)) = 0)%nat ->
  (handle_one_request handles client addr).1 = (Ok false, []).
Proof.
  intros Hreads Hzero.
  assert ((get_head client).1 = Raise NullRequestError) as Hnull.
  { apply get_head_null_request. by exists n, rs. }
  unfold handle_one_request, HttpRequest_init, HttpHead_init.
  destruct (get_head client) as [[[hd bd]|e] client']; simpl in Hnull; [done|].
  by injection Hnull as ->.
Qed.

(** A request that arrives whole in the first read: for a POST, the bytes
    after the separator are at least the [content-length] announced, so
    that [recv_body] has nothing left to read. *)
Lemma HttpRequest_init_whole (pre post : bytearray) (n : nat) rs
    (head_str verb target version rest : string) hs :
  (length (pre ++ SEPARATOR ++ post) < BUFSIZE)%nat ->
  (length (pre ++ SEPARATOR ++ post) <= n)%nat ->
  find SEPARATOR (pre ++ SEPARATOR ++ post) = Some (length pre) ->
  decode_ascii (pre ++ [13; 10]%Z) = Some head_str ->
  head_str = verb ++ " " ++ target ++ " " ++ version ++ CRLF ++ rest ->
  verb <> "" -> target <> "" -> version <> "" ->
  all_chars is_word verb = true ->
  all_chars is_word target = true ->
  all_chars is_line version = true ->
  (verb = "POST" ->
   forall len, hs !! "content-length" = Some (HInt len) ->
               (len <= Z.of_nat (length post))%Z) ->
  parse_headers head_str = Ok hs ->
  HttpRequest_init {| stream := pre ++ SEPARATOR ++ post; reads := n :: rs |}
  = (Ok {| head := head_str; body := post;
           reqline := (verb, target, version); headers := hs |},
     {| stream := []; reads := rs |}).
Proof.
  intros Hshort Hn Hfind Hdec Hhead Hv Ht Hp Hwv Hwt Hlp Hwhole Hhs.
  assert (header_shaped hs) as Hshape.
  { apply (collect_headers_shaped (RE_HEADERS_finditer O head_str) ∅ hs);
      [|exact Hhs].
    intros k v. by rewrite lookup_empty. }
  unfold HttpRequest_init, HttpHead_init.
  rewrite (get_head_single_read pre post n rs head_str Hshort Hn Hfind Hdec).
  rewrite Hhead, RE_REQLINE_match_fields by done.
  rewrite <- Hhead, Hhs. cbn [mbind result_bind rbind].
  unfold req_type. cbn [reqline fst].
  destruct (String.eqb_spec verb "POST") as [Hpost|_]; [|done].
  unfold recv_body. cbn [headers body].
  destruct (hs !! "content-length") as [[s|len]|] eqn:Hlen; [| |done].
  - destruct (Hshape _ _ Hlen) as (_ & Hint & _).
    by destruct (Hint eq_refl) as [len' ?].
  - specialize (Hwhole Hpost len eq_refl).
    destruct (Z.ltb_spec (Z.of_nat (length post)) len) as [|_]; [lia|done].
Qed.

Lemma HttpRequest_init_single_read (pre post : bytearray) (n : nat) rs
    (head_str verb target version rest : string) hs :
  (length (pre ++ SEPARATOR ++ post) < BUFSIZE)%nat ->
  (length (pre ++ SEPARATOR ++ post) <= n)%nat ->
  find SEPARATOR (pre ++ SEPARATOR ++ post) = Some (length pre) ->
  decode_ascii (pre ++ [13; 10]%Z) = Some head_str ->
  head_str = verb ++ " " ++ target ++ " " ++ version ++ CRLF ++ rest ->
  verb <> "" -> target <> "" -> version <> "" ->
  all_chars is_word verb = true ->
  all_chars is_word target = true ->
  all_chars is_line version = true ->
  verb <> "POST" ->
  parse_headers head_str = Ok hs ->
  HttpRequest_init {| stream := pre ++ SEPARATOR ++ post; reads := n :: rs |}
  = (Ok {| head := head_str; body := post;
           reqline := (verb, target, version); headers := hs |},
     {| stream := []; reads := rs |}).
Proof.
  intros Hshort Hn Hfind Hdec Hhead Hv Ht Hp Hwv Hwt Hlp Hpost Hhs.
  by apply (HttpRequest_init_whole pre post n rs head_str verb target version
              rest hs).
Qed.

(** X18: a request other than POST that arrives whole in the first read,
    shorter than the buffer, with a well-formed request line and headers
    that parse, is read into its parts: the three fields of the request
    line, the header dictionary, and as body the bytes after the
    separator. *)
Theorem request_in_one_read (pre post : bytearray) (n : nat) rs
    (head_str verb target version rest : string) hs :
  (length (pre ++ SEPARATOR ++ post) < BUFSIZE)%nat ->
  (length (pre ++ SEPARATOR ++ post) <= n)%nat ->
  find SEPARATOR (pre ++ SEPARATOR ++ post) = Some (length pre) ->
  decode_ascii (pre ++ [13; 10]%Z) = Some head_str ->
  head_str = verb ++ " " ++ target ++ " " ++ version ++ CRLF ++ rest ->
  verb <> "" -> target <> "" -> version <> "" ->
  all_chars is_word verb = true ->
  all_chars is_word target = true ->
  all_chars is_line version = true ->
  verb <> "POST" ->
  parse_headers head_str = Ok hs ->
  HttpRequest_init {| stream := pre ++ SEPARATOR ++ post; reads := n :: rs |}
  = (Ok {| head := head_str; body := post;
           reqline := (verb, target, version); headers := hs |},
     {| stream := []; reads := rs |}).
Proof.
  exact (HttpRequest_init_single_read pre post n rs head_str verb target
           version rest hs).
Qed.

(** [ServerClient.__init__] for the protocol version [HTTP/1.1]. *)
Lemma ServerClient_init_1_1 hd bd verb target hs addr :
  ServerClient_init {| head := hd; body := bd;
                       reqline := (verb, target, "HTTP/1.1");
                       headers := hs |} addr
  = Ok {| keep_alive :=
            match hs !! "connection" with
            | Some v => bool_decide (v = HStr "keep-alive")
            | None => false
            end;
          req := {| head := hd; body := bd;
                    reqline := (verb, target, "HTTP/1.1"); headers := hs |};
          ip := addr.1; port := addr.2 |}.
Proof. reflexivity. Qed.

(** X19: a well-formed HTTP/1.1 request that arrives whole in one read
    (for a POST: with at least the [content-length] bytes of its body) and
    whose verb has no handler is answered with one response, 501 Not
    Implemented, and [handle_one_request] returns [True]: the connection is
    kept.  The [Connection] header of the response says [keep-alive]
    exactly when the request asked for it.  The verb may be any, POST
    included. *)
Theorem unknown_verb_is_answered_501 handles addr (pre post : bytearray)
    (n : nat) rs (head_str verb target rest : string) hs :
  (length (pre ++ SEPARATOR ++ post) < BUFSIZE)%nat ->
  (length (pre ++ SEPARATOR ++ post) <= n)%nat ->
  find SEPARATOR (pre ++ SEPARATOR ++ post) = Some (length pre) ->
  decode_ascii (pre ++ [13; 10]%Z) = Some head_str ->
  head_str = verb ++ " " ++ target ++ " " ++ "HTTP/1.1" ++ CRLF ++ rest ->
  verb <> "" -> target <> "" ->
  all_chars is_word verb = true ->
  all_chars is_word target = true ->
  (verb = "POST" ->
   forall len, hs !! "content-length" = Some (HInt len) ->
               (len <= Z.of_nat (length post))%Z) ->
  parse_headers head_str = Ok hs ->
  handles !! verb = None ->
  handle_one_request handles
    {| stream := pre ++ SEPARATOR ++ post; reads := n :: rs |} addr
  = ((Ok true,
      [{| scode := 501; reason := "Not Implemented";
          content_type := Some "text/html; charset=utf-8";
          connection :=
            match hs !! "connection" with
            | Some v => bool_decide (v = HStr "keep-alive")
            | None => false
            end;
          content :=
            "<!DOCTYPE html><html><body><h1>501 Not Implemented<h1></body></html>"
       |}]),
     {| stream := []; reads := rs |}).
Proof.
  intros Hshort Hn Hfind Hdec Hhead Hv Ht Hwv Hwt Hwhole Hhs Hnone.
  unfold handle_one_request.
  rewrite (HttpRequest_init_whole pre post n rs head_str verb target
             "HTTP/1.1" rest hs) by done.
  rewrite ServerClient_init_1_1. unfold get_handle, req_type.
  cbn [reqline fst]. rewrite Hnone. reflexivity.
Qed.

(** X20: a well-formed HTTP/1.1 request that arrives whole in one read
    (for a POST: with at least the [content-length] bytes of its body) is
    handed to the handler of its verb, whatever the verb, POST included.
    When the handler returns, the responses on the wire are the handler's
    and the result is the [keep_alive] flag the handler left; when the
    handler raises, a 500 response follows what the handler had written and
    the result is [True]. *)
Theorem handler_outcome handles addr (pre post : bytearray)
    (n : nat) rs (head_str verb target rest : string) hs (handle : handler) :
  (length (pre ++ SEPARATOR ++ post) < BUFSIZE)%nat ->
  (length (pre ++ SEPARATOR ++ post) <= n)%nat ->
  find SEPARATOR (pre ++ SEPARATOR ++ post) = Some (length pre) ->
  decode_ascii (pre ++ [13; 10]%Z) = Some head_str ->
  head_str = verb ++ " " ++ target ++ " " ++ "HTTP/1.1" ++ CRLF ++ rest ->
  verb <> "" -> target <> "" ->
  all_chars is_word verb = true ->
  all_chars is_word target = true ->
  (verb = "POST" ->
   forall len, hs !! "content-length" = Some (HInt len) ->
               (len <= Z.of_nat (length post))%Z) ->
  parse_headers head_str = Ok hs ->
  handles !! verb = Some handle ->
  exists sc,
    ServerClient_init {| head := head_str; body := post;
                         reqline := (verb, target, "HTTP/1.1");
                         headers := hs |} addr = Ok sc
    /\ (raised (handle sc) = None ->
        (handle_one_request handles
           {| stream := pre ++ SEPARATOR ++ post; reads := n :: rs |} addr).1
        = (Ok (keep_alive (left (handle sc))), wrote (handle sc)))
    /\ (forall e, raised (handle sc) = Some e ->
        (handle_one_request handles
           {| stream := pre ++ SEPARATOR ++ post; reads := n :: rs |} addr).1
        = (Ok true,
           (wrote (handle sc)
            ++ [{| scode := 500; reason := "Internal Server Error";
                   content_type := Some "text/html; charset=utf-8";
                   connection := keep_alive (left (handle sc));
                   content :=
                     "<!DOCTYPE html><html><body><h1>500 Internal Server Error<h1></body></html>"
                |}])%list)).
Proof.
  intros Hshort Hn Hfind Hdec Hhead Hv Ht Hwv Hwt Hwhole Hhs Hsome.
  eexists. split; [apply ServerClient_init_1_1|].
  unfold handle_one_request.
  rewrite (HttpRequest_init_whole pre post n rs head_str verb target
             "HTTP/1.1" rest hs) by done.
  rewrite ServerClient_init_1_1. unfold get_handle, req_type.
  cbn [reqline fst]. rewrite Hsome.
  split.
  - intros Hr. cbv zeta. by rewrite Hr.
  - intros e Hr. cbv zeta. rewrite Hr. reflexivity.
Qed.

(** X21: the keep-alive policy of [ServerClient]: a request under
    [HTTP/1.1] is kept alive exactly when its [connection] header is
    [keep-alive]; a request under [HTTP/1.0] never is, whatever its
    headers. *)
Theorem keep_alive_policy hd bd verb target hs addr :
  (exists sc,
     ServerClient_init {| head := hd; body := bd;
                          reqline := (verb, target, "HTTP/1.1");
                          headers := hs |} addr = Ok sc
     /\ (keep_alive sc = true
         <-> hs !! "connection" = Some (HStr "keep-alive")))
  /\ (exists sc,
        ServerClient_init {| head := hd; body := bd;
                             reqline := (verb, target, "HTTP/1.0");
                             headers := hs |} addr = Ok sc
        /\ keep_alive sc = false).
Proof.
  split.
  - eexists. split; [apply ServerClient_init_1_1|]. cbn [keep_alive].
    destruct (hs !! "connection") as [v|]; [|done].
    case_bool_decide; split; congruence.
  - eexists. split; [reflexivity|]. reflexivity.
Qed.

End Dispatch.

Section DispatchWitnesses.
Import text httputil serverclient httpserver doubles.
Local Open Scope string_scope.

Lemma empty_read_closes_silently_witness :
  (handle_one_request ∅ {| stream := []; reads := [7%nat] |} ("10.0.0.2", 40000%Z)).1
  = (Ok false, []).
Proof.
  apply (empty_read_closes_silently ∅ {| stream := []; reads := [7%nat] |}
           ("10.0.0.2", 40000%Z) 7 []).
  - reflexivity.
  - vm_compute. reflexivity.
Defined.

Lemma request_in_one_read_witness :
  HttpRequest_init
    {| stream := encode_ascii "BREW /pot HTTP/1.1" ++ SEPARATOR ++ [];
       reads := [100%nat] |}
  = (Ok {| head := "BREW /pot HTTP/1.1" ++ CRLF; body := [];
           reqline := ("BREW", "/pot", "HTTP/1.1"); headers := ∅ |},
     {| stream := []; reads := [] |}).
Proof.
  apply (request_in_one_read (encode_ascii "BREW /pot HTTP/1.1") [] 100 []
           ("BREW /pot HTTP/1.1" ++ CRLF) "BREW" "/pot" "HTTP/1.1" "" ∅);
    try discriminate; try (vm_compute; reflexivity); vm_compute; lia.
Defined.

Lemma unknown_verb_is_answered_501_witness :
  handle_one_request ∅
    {| stream := encode_ascii ("POST /pot HTTP/1.1" ++ CRLF
                               ++ "Content-Length: 2")
                 ++ SEPARATOR ++ [104; 105]%Z;
       reads := [100%nat] |} ("10.0.0.2", 40000%Z)
  = ((Ok true,
      [{| scode := 501; reason := "Not Implemented";
          content_type := Some "text/html; charset=utf-8";
          connection := false;
          content :=
            "<!DOCTYPE html><html><body><h1>501 Not Implemented<h1></body></html>"
       |}]),
     {| stream := []; reads := [] |}).
Proof.
  etrans.
  - apply (unknown_verb_is_answered_501 ∅ ("10.0.0.2", 40000%Z)
             (encode_ascii ("POST /pot HTTP/1.1" ++ CRLF
                            ++ "Content-Length: 2"))
             [104; 105]%Z 100 []
             ("POST /pot HTTP/1.1" ++ CRLF ++ "Content-Length: 2" ++ CRLF)
             "POST" "/pot" ("Content-Length: 2" ++ CRLF)
             {[ "content-length" := HInt 2 ]});
      try discriminate; try (vm_compute; reflexivity);
      try (vm_compute; lia).
    intros _ len Hlen. vm_compute in Hlen. injection Hlen as <-.
    vm_compute. discriminate.
  - reflexivity.
Defined.

Lemma handler_outcome_witness :
  exists sc,
    ServerClient_init
      {| head := "POST /iotscp/hello HTTP/1.1" ++ CRLF
                 ++ "Content-Length: 2" ++ CRLF;
         body := [123; 125]%Z;
         reqline := ("POST", "/iotscp/hello", "HTTP/1.1");
         headers := {[ "content-length" := HInt 2 ]} |}
      ("10.0.0.2", 40000%Z) = Ok sc
    /\ (handle_one_request
          {[ "POST" := fun sc => {| wrote := []; left := sc;
                                    raised := Some TypeError |} ]}
          {| stream := encode_ascii ("POST /iotscp/hello HTTP/1.1" ++ CRLF
                                     ++ "Content-Length: 2")
                       ++ SEPARATOR ++ [123; 125]%Z;
             reads := [100%nat] |} ("10.0.0.2", 40000%Z)).1
       = (Ok true,
          [{| scode := 500; reason := "Internal Server Error";
              content_type := Some "text/html; charset=utf-8";
              connection := false;
              content :=
                "<!DOCTYPE html><html><body><h1>500 Internal Server Error<h1></body></html>"
           |}]).
Proof.
  destruct (handler_outcome
              {[ "POST" := fun sc => {| wrote := []; left := sc;
                                        raised := Some TypeError |} ]}
              ("10.0.0.2", 40000%Z)
              (encode_ascii ("POST /iotscp/hello HTTP/1.1" ++ CRLF
                             ++ "Content-Length: 2"))
              [123; 125]%Z 100 []
              ("POST /iotscp/hello HTTP/1.1" ++ CRLF
               ++ "Content-Length: 2" ++ CRLF)
              "POST" "/iotscp/hello" ("Content-Length: 2" ++ CRLF)
              {[ "content-length" := HInt 2 ]}
              (fun sc => {| wrote := []; left := sc;
                            raised := Some TypeError |}))
    as (sc & Hsc & _ & Hraise);
    try discriminate; try (vm_compute; reflexivity); try (vm_compute; lia).
  - intros _ len Hlen. vm_compute in Hlen. injection Hlen as <-.
    vm_compute. discriminate.
  - exists sc. split; [exact Hsc|].
    rewrite (Hraise TypeError eq_refl). cbn [wrote left app].
    injection Hsc as <-. reflexivity.
Defined.

End DispatchWitnesses.

(** ** The event dispatcher *)

Section Subscribers.
Import event_dispatcher.

(** X22: [add_subscriber] leaves the address subscribed to the event URL,
    keeps every list free of duplicates, does not touch the list of another
    URL, keeps the earlier subscribers of the URL at their places, and a
    second call with the same arguments changes nothing. *)
Theorem add_subscriber_spec (subscribers : subscribers_dict)
    (event_url : string) (sub_addr : address) :
  no_duplicates subscribers ->
  let subscribers' := add_subscriber subscribers event_url sub_addr in
  (exists subs, subscribers' !! event_url = Some subs /\ sub_addr ∈ subs)
  /\ no_duplicates subscribers'
  /\ (forall url, url <> event_url ->
        subscribers' !! url = subscribers !! url)
  /\ (forall subs, subscribers !! event_url = Some subs ->
        exists subs', subscribers' !! event_url = Some subs'
                      /\ subs `prefix_of` subs')
  /\ add_subscriber subscribers' event_url sub_addr = subscribers'.
Proof.
  intros Hnd. unfold add_subscriber.
  destruct (subscribers !! event_url) as [subs|] eqn:Hsubs.
  - case_bool_decide as Hin.
    + cbv zeta. rewrite Hsubs, bool_decide_true by done.
      split; [eauto|]. split; [done|]. split; [done|]. split; [|done].
      intros ? [= <-]. eauto.
    + cbv zeta. rewrite lookup_insert_eq.
      rewrite bool_decide_true by set_solver.
      split; [exists (subs ++ [sub_addr]); split; [done|set_solver]|].
      split.
      { apply map_Forall_insert_2; [|done].
        apply NoDup_app. split; [exact (Hnd _ _ Hsubs)|].
        split; [|apply NoDup_singleton].
        intros x Hx Hx'. apply list_elem_of_singleton in Hx'. by subst x. }
      split; [intros url Hne; by rewrite lookup_insert_ne|].
      split; [|done].
      intros ? [= <-]. eexists. split; [done|]. by apply prefix_app_r.
  - cbv zeta. rewrite lookup_insert_eq.
    rewrite bool_decide_true by set_solver.
    split; [exists [sub_addr]; split; [done|set_solver]|].
    split.
    { apply map_Forall_insert_2; [apply NoDup_singleton|done]. }
    split; [intros url Hne; by rewrite lookup_insert_ne|].
    split; done.
Qed.

Lemma filter_all (x : address) (subs : list address) :
  x ∉ subs -> filter (fun y => y <> x) subs = subs.
Proof.
  induction subs as [|y subs IH]; [done|].
  intros Hx. apply not_elem_of_cons in Hx as [Hxy Hx].
  rewrite filter_cons_True by done. by rewrite IH.
Qed.

Lemma list_remove_first_filter (x : address) (subs : list address) :
  NoDup subs ->
  list_remove_first x subs = filter (fun y => y <> x) subs.
Proof.
  induction 1 as [|y subs Hy Hnd IH]; [done|].
  cbn [list_remove_first]. case_bool_decide as Hyx.
  - subst y. rewrite filter_cons_False by (intros ?; done).
    by rewrite filter_all.
  - rewrite filter_cons_True by done. by rewrite IH.
Qed.

(** X23: when no list holds an address twice, the loop that ends
    [_event_loop] leaves the address of the closed connection in no list;
    the other subscribers stay, in their order. *)
Theorem remove_subscriber_spec (subscribers : subscribers_dict)
    (sub_addr : address) :
  no_duplicates subscribers ->
  remove_subscriber subscribers sub_addr
  = filter (fun a => a <> sub_addr) <$> subscribers
  /\ no_duplicates (remove_subscriber subscribers sub_addr)
  /\ (forall url subs,
        remove_subscriber subscribers sub_addr !! url = Some subs ->
        sub_addr ∉ subs).
Proof.
  intros Hnd.
  assert (remove_subscriber subscribers sub_addr
          = filter (fun a => a <> sub_addr) <$> subscribers) as ->.
  { unfold remove_subscriber. apply map_fmap_ext. intros url subs Hsubs.
    case_bool_decide as Hin.
    - apply list_remove_first_filter. exact (Hnd _ _ Hsubs).
    - by rewrite filter_all. }
  split; [done|]. split.
  - intros url subs Hsubs. apply lookup_fmap_Some in Hsubs as (l & <- & Hl).
    apply NoDup_filter. exact (Hnd _ _ Hl).
  - intros url subs Hsubs. apply lookup_fmap_Some in Hsubs as (l & <- & Hl).
    rewrite list_elem_of_filter. tauto.
Qed.

End Subscribers.

Section SendEvent.
Import event_dispatcher.
Context {event net : Type}.
Variable connect : address -> net -> result unit * net.
Variable send_event_http : event -> address -> net -> option (bool * net).

Local Abbreviation _send_event := (_send_event connect send_event_http).
Local Abbreviation send_event_loop := (send_event_loop connect send_event_http).
Local Abbreviation send_event := (send_event connect send_event_http).
Local Abbreviation one_attempt_each :=
  (one_attempt_each connect send_event_http).

Lemma send_event_loop_spec ev (subs : list address) :
  forall (visited : list address) (loops : channels event) (w : net)
         (fuel : nat),
    (length subs < fuel)%nat ->
    send_event_loop fuel ev (length visited) (visited ++ subs) loops w
    = match one_attempt_each ev subs loops w with
      | Some (kept, loops', w') => Some (visited ++ kept, loops', w')
      | None => None
      end.
Proof.
  induction subs as [|a subs IH]; intros visited loops w [|fuel] Hfuel;
    simpl in Hfuel; try lia.
  - cbn [send_event_loop one_attempt_each].
    rewrite lookup_ge_None_2 by (rewrite length_app; simpl; lia). done.
  - cbn [send_event_loop one_attempt_each].
    rewrite list_lookup_middle by done.
    destruct (_send_event loops a ev w) as [[[[[]|e] loops'] w']|];
      [| |done].
    + replace (S (length visited)) with (length (visited ++ [a]))
        by (rewrite length_app; simpl; lia).
      replace (visited ++ a :: subs) with ((visited ++ [a]) ++ subs)
        by (by rewrite <- app_assoc).
      rewrite IH by lia.
      destruct (one_attempt_each ev subs loops' w')
        as [[[kept loops''] w'']|]; [|done].
      by rewrite <- app_assoc.
    + rewrite delete_middle. apply IH. lia.
Qed.

Lemma one_attempt_each_sublist ev (subs : list address) :
  forall (loops : channels event) (w : net) kept loops' w',
    one_attempt_each ev subs loops w = Some (kept, loops', w') ->
    kept `sublist_of` subs.
Proof.
  induction subs as [|a subs IH]; intros loops w kept loops' w'.
  - by intros [= <- _ _].
  - cbn [one_attempt_each].
    destruct (_send_event loops a ev w) as [[[[[]|e] loops1] w1]|];
      [| |done].
    + destruct (one_attempt_each ev subs loops1 w1)
        as [[[kept1 loops2] w2]|] eqn:Hrest; [|done].
      intros [= <- _ _]. apply sublist_skip. by eapply IH.
    + intros Hrest. apply sublist_cons. by eapply IH.
Qed.

(** An attempt returns when [send_event_http] does. *)
Lemma _send_event_returns (loops : channels event) (a : address) ev w :
  (forall ev a w, is_Some (send_event_http ev a w)) ->
  is_Some (_send_event loops a ev w).
Proof.
  intros Hreturns. unfold event_dispatcher._send_event.
  destruct (loops !! a); [done|].
  destruct (connect a w) as [[[]|e] w1]; [|done].
  destruct (Hreturns ev a w1) as [[[] w2] ->]; done.
Qed.

Lemma one_attempt_each_returns ev (subs : list address) :
  (forall ev a w, is_Some (send_event_http ev a w)) ->
  forall (loops : channels event) (w : net),
    is_Some (one_attempt_each ev subs loops w).
Proof.
  intros Hreturns. induction subs as [|a subs IH]; intros loops w; [done|].
  cbn [one_attempt_each].
  destruct (_send_event_returns loops a ev w Hreturns)
    as [[[[[]|e] loops1] w1] ->].
  - by destruct (IH loops1 w1) as [[[kept loops2] w2] ->].
  - apply IH.
Qed.

Lemma send_event_unfold (d : EventDispatcher event) (event_url : string)
    (ev : event) (w : net) :
  send_event d event_url ev w
  = match subscribers d !! event_url with
    | None => Some (Raise (KeyError (KStr event_url)), d, w)
    | Some subs =>
        match one_attempt_each ev subs (event_loops d) w with
        | Some (kept, loops', w') =>
            Some (Ok tt,
                  {| subscribers := <[event_url := kept]> (subscribers d);
                     event_loops := loops' |},
                  w')
        | None => None
        end
    end.
Proof.
  unfold event_dispatcher.send_event.
  destruct (subscribers d !! event_url) as [subs|]; [|done].
  rewrite (send_event_loop_spec ev subs [] (event_loops d) w) by lia.
  by destruct (one_attempt_each ev subs (event_loops d) w)
    as [[[kept loops'] w']|].
Qed.

(** X24: the index loop of [send_event], with its deletions, does the same
    as one attempt for each subscriber of the URL in the order of the list:
    it skips no one and visits no one twice, and the list it leaves holds
    the subscribers whose attempt did not raise, in their order.  The loop
    itself adds no way of running for ever: [send_event] returns whenever
    [send_event_http] returns for each subscriber it is called on, and when
    an attempt does not return (a subscriber that stops in the middle of
    its response), neither does [send_event].  For an unknown event URL it
    raises [KeyError] and changes nothing. *)
Theorem send_event_one_attempt_each (d : EventDispatcher event)
    (event_url : string) (ev : event) (w : net) :
  send_event d event_url ev w
  = match subscribers d !! event_url with
    | None => Some (Raise (KeyError (KStr event_url)), d, w)
    | Some subs =>
        match one_attempt_each ev subs (event_loops d) w with
        | Some (kept, loops', w') =>
            Some (Ok tt,
                  {| subscribers := <[event_url := kept]> (subscribers d);
                     event_loops := loops' |},
                  w')
        | None => None
        end
    end
  /\ (forall subs kept loops' w',
        subscribers d !! event_url = Some subs ->
        one_attempt_each ev subs (event_loops d) w = Some (kept, loops', w') ->
        kept `sublist_of` subs)
  /\ ((forall ev a w, is_Some (send_event_http ev a w)) ->
      is_Some (send_event d event_url ev w)).
Proof.
  split; [apply send_event_unfold|]. split.
  - intros subs kept loops' w' _. apply one_attempt_each_sublist.
  - intros Hreturns. rewrite send_event_unfold.
    destruct (subscribers d !! event_url) as [subs|]; [|done].
    by destruct (one_attempt_each_returns ev subs Hreturns (event_loops d) w)
      as [[[kept loops'] w'] ->].
Qed.

Lemma one_attempt_each_open ev (subs : list address) :
  forall (loops : channels event) (w : net),
    NoDup subs ->
    (forall a, a ∈ subs -> is_Some (loops !! a)) ->
    exists loops',
      one_attempt_each ev subs loops w = Some (subs, loops', w)
      /\ (forall a, a ∈ subs ->
            loops' !! a = (fun queue => queue ++ [ev]) <$> loops !! a)
      /\ (forall a, a ∉ subs -> loops' !! a = loops !! a).
Proof.
  induction subs as [|a subs IH]; intros loops w Hnd Hopen.
  - exists loops. split; [done|]. split; [|done].
    intros a Ha. by apply elem_of_nil in Ha.
  - apply NoDup_cons in Hnd as [Ha Hnd].
    destruct (Hopen a) as [queue Hq]; [by left|].
    cbn [one_attempt_each]. unfold event_dispatcher._send_event.
    rewrite Hq.
    destruct (IH (<[a := queue ++ [ev]]> loops) w Hnd)
      as (loops' & -> & Hin & Hout).
    { intros b Hb. rewrite lookup_insert_is_Some.
      destruct (decide (a = b)); [by left|right].
      split; [done|]. apply Hopen. by right. }
    exists loops'. split; [done|]. split.
    + intros b Hb. apply elem_of_cons in Hb as [->|Hb].
      * by rewrite Hout, lookup_insert_eq, Hq.
      * rewrite Hin by done. rewrite lookup_insert_ne; [done|].
        intros ->. done.
    + intros b Hb. apply not_elem_of_cons in Hb as [Hba Hb].
      rewrite Hout by done. by rewrite lookup_insert_ne.
Qed.

(** X25: when every subscriber of the event URL has an open connection and
    the list holds no address twice, [send_event] drops no subscriber and
    opens no connection: the event is put at the end of the channel of each
    subscriber of the URL, once, and the other channels are as before. *)
Theorem send_event_open_connections (d : EventDispatcher event)
    (event_url : string) (ev : event) (w : net) (subs : list address) :
  subscribers d !! event_url = Some subs ->
  NoDup subs ->
  (forall a, a ∈ subs -> is_Some (event_loops d !! a)) ->
  exists loops',
    send_event d event_url ev w
    = Some (Ok tt,
            {| subscribers := subscribers d; event_loops := loops' |}, w)
    /\ (forall a, a ∈ subs ->
          loops' !! a
          = (fun queue => queue ++ [ev]) <$> event_loops d !! a)
    /\ (forall a, a ∉ subs -> loops' !! a = event_loops d !! a).
Proof.
  intros Hsubs Hnd Hopen.
  destruct (one_attempt_each_open ev subs (event_loops d) w Hnd Hopen)
    as (loops' & Hrun & Hin & Hout).
  exists loops'. split; [|done].
  rewrite send_event_unfold, Hsubs, Hrun. by rewrite insert_id.
Qed.

End SendEvent.

Section DispatcherWitnesses.
Import event_dispatcher doubles.

Lemma add_subscriber_spec_witness :
  no_duplicates (add_subscriber one_subscriber "/motion" second_host)
  /\ add_subscriber (add_subscriber one_subscriber "/motion" second_host)
       "/motion" second_host
     = add_subscriber one_subscriber "/motion" second_host.
Proof.
  destruct (add_subscriber_spec one_subscriber "/motion" second_host)
    as (_ & Hnd & _ & _ & Hsame).
  - apply map_Forall_singleton, NoDup_singleton.
  - by split.
Defined.

Lemma remove_subscriber_spec_witness :
  remove_subscriber two_subscribers first_host
  = filter (fun a => a <> first_host) <$> two_subscribers
  /\ remove_subscriber two_subscribers first_host !! "/motion"
     = Some [second_host].
Proof.
  destruct (remove_subscriber_spec two_subscribers first_host)
    as (Hfilter & _ & _).
  - apply map_Forall_singleton.
    apply NoDup_cons. split; [|apply NoDup_singleton].
    intros Hin. apply list_elem_of_singleton in Hin. discriminate.
  - split; [exact Hfilter|]. vm_compute. reflexivity.
Defined.

Lemma send_event_one_attempt_each_witness :
  is_Some (send_event connect_unless_port_zero always_keep_alive
             {| subscribers := two_subscribers; event_loops := ∅ |}
             "/motion" "on"%string []).
Proof.
  destruct (send_event_one_attempt_each connect_unless_port_zero
              always_keep_alive
              {| subscribers := two_subscribers; event_loops := ∅ |}
              "/motion" "on"%string []) as (_ & _ & Hreturns).
  apply Hreturns. intros ev a w. by eexists.
Defined.

Lemma send_event_open_connections_witness :
  exists loops',
    send_event connect_unless_port_zero always_keep_alive
      a_dispatcher "/motion" "on" []
    = Some (Ok tt,
            {| subscribers := subscribers a_dispatcher;
               event_loops := loops' |}, [])
    /\ loops' !! first_host = Some ["off"; "on"]%string.
Proof.
  destruct (send_event_open_connections connect_unless_port_zero
              always_keep_alive a_dispatcher "/motion" "on"%string []
              [first_host])
    as (loops' & Hsent & Hin & _).
  - reflexivity.
  - apply NoDup_singleton.
  - intros a Ha. apply list_elem_of_singleton in Ha. subst a.
    exists ["off"%string]. vm_compute. reflexivity.
  - exists loops'. split; [exact Hsent|].
    rewrite Hin by (apply list_elem_of_singleton; reflexivity).
    vm_compute. reflexivity.
Defined.

End DispatcherWitnesses.

(** ** The choice of the hash algorithm *)

Section Algorithm.
Import scsession.
Context `{Hashlib}.

Lemma first_common_spec (external : value) (algs : list string) :
  (forall x, exists b, contains external x = Ok b) ->
  match first_common algs external with
  | Ok alg =>
      contains external alg = Ok true
      /\ exists before after,
           algs = before ++ alg :: after
           /\ forall a, a ∈ before -> contains external a = Ok false
  | Raise e =>
      e = ValueError /\ forall a, a ∈ algs -> contains external a = Ok false
  end.
Proof.
  intros Hc. induction algs as [|alg algs IH].
  - split; [done|]. intros a Ha. by apply elem_of_nil in Ha.
  - cbn [first_common]. destruct (Hc alg) as [[] Halg]; rewrite Halg;
      cbn [mbind result_bind rbind].
    + split; [done|]. exists [], algs. split; [done|].
      intros a Ha. by apply elem_of_nil in Ha.
    + destruct (first_common algs external) as [alg'|e].
      * destruct IH as (Hin & before & after & -> & Hbefore).
        split; [done|]. exists (alg :: before), after. split; [done|].
        intros a Ha. apply elem_of_cons in Ha as [->|Ha]; auto.
      * destruct IH as [-> Hnone]. split; [done|].
        intros a Ha. apply elem_of_cons in Ha as [->|Ha]; auto.
Qed.

(** X26: on a container of algorithm names, [get_common_algorithm] returns
    the preferred algorithm whenever the container holds it; otherwise it
    returns the first entry of [ALGORITHMS] that the container holds, and
    no entry ranked before it is in the container; it raises [ValueError]
    exactly when the container holds neither the preferred algorithm nor
    any entry of [ALGORITHMS].  What it returns is always in the
    container. *)
Theorem get_common_algorithm_spec (external : value)
    (prefered : option string) :
  (forall x, exists b, contains external x = Ok b) ->
  match get_common_algorithm external prefered with
  | Ok alg =>
      contains external alg = Ok true
      /\ (prefered = Some alg
          \/ ((forall p, prefered = Some p -> contains external p = Ok false)
              /\ exists before after,
                   ALGORITHMS = before ++ alg :: after
                   /\ forall a, a ∈ before ->
                        contains external a = Ok false))
  | Raise e =>
      e = ValueError
      /\ (forall p, prefered = Some p -> contains external p = Ok false)
      /\ (forall a, a ∈ ALGORITHMS -> contains external a = Ok false)
  end.
Proof.
  intros Hc. pose proof (first_common_spec external ALGORITHMS Hc) as Hfirst.
  unfold get_common_algorithm. destruct prefered as [p|].
  - destruct (Hc p) as [[] Hp]; rewrite Hp; cbn [mbind result_bind rbind].
    + split; [done|]. by left.
    + destruct (first_common ALGORITHMS external) as [alg|e].
      * destruct Hfirst as [Hin Hrank]. split; [done|]. right.
        split; [|done]. by intros ? [= <-].
      * destruct Hfirst as [-> Hnone]. split; [done|].
        split; [|done]. by intros ? [= <-].
  - destruct (first_common ALGORITHMS external) as [alg|e].
    + destruct Hfirst as [Hin Hrank]. split; [done|]. right.
      split; [|done]. intros ? [=].
    + destruct Hfirst as [-> Hnone]. split; [done|].
      split; [|done]. intros ? [=].
Qed.

End Algorithm.

Section AlgorithmWitnesses.
Import scsession doubles.
Local Open Scope string_scope.

Lemma get_common_algorithm_spec_witness :
  contains (VList [VStr "md5"; VStr "sha256"]) "sha256" = Ok true
  /\ get_common_algorithm (H := mix_hashlib)
       (VList [VStr "md5"; VStr "sha256"]) (Some "whirlpool")
     = Ok "sha256".
Proof.
  pose proof (get_common_algorithm_spec (H := mix_hashlib)
                (VList [VStr "md5"; VStr "sha256"]) (Some "whirlpool")
                (fun x => ex_intro _ _ eq_refl)) as Hspec.
  assert (get_common_algorithm (H := mix_hashlib)
            (VList [VStr "md5"; VStr "sha256"]) (Some "whirlpool")
          = Ok "sha256") as Hrun by (vm_compute; reflexivity).
  rewrite Hrun in Hspec. destruct Hspec as [Hin _]. by split.
Defined.

End AlgorithmWitnesses.

(** ** The outcome of the hello request *)

Section HelloMore.
Import scsession httputil serverclient basedevice.
Context `{Hashlib} `{Codec} `{Json} `{Certificates}.
Local Open Scope string_scope.

Lemma except_clauses_answers (d : BaseDevice) sc (w : list response) e :
  exists r,
    except_clauses d sc w e = (Ok tt, (w ++ [r])%list, d)
    /\ (scode r = 401 \/ scode r = 500).
Proof.
  destruct e; cbn; eauto.
Qed.

Lemma first_common_member (algs : list string) (external : value) alg :
  first_common algs external = Ok alg -> alg ∈ algs.
Proof.
  induction algs as [|a algs IH]; [done|]. cbn [first_common].
  destruct (contains external a) as [[]|e]; cbn [mbind result_bind rbind];
    [| |done].
  - intros [= <-]. by left.
  - intros Hrest. right. by apply IH.
Qed.

(** The algorithm chosen is the preferred one or one that [hashlib]
    provides. *)
Lemma get_common_algorithm_member (external : value)
    (prefered : option string) alg :
  get_common_algorithm external prefered = Ok alg ->
  prefered = Some alg \/ alg ∈ algorithms.
Proof.
  assert (first_common ALGORITHMS external = Ok alg -> alg ∈ algorithms)
    as Hfirst.
  { intros Hin%first_common_member. unfold ALGORITHMS, utils.get_algorithms
      in Hin. by apply list_elem_of_filter in Hin as [? _]. }
  unfold get_common_algorithm. destruct prefered as [p|]; [|auto].
  destruct (contains external p) as [[]|e]; cbn [mbind result_bind rbind];
    [| |done].
  - intros [= <-]. by left.
  - auto.
Qed.

Lemma negotiate_algorithm (d : BaseDevice) uuid sc c algorithm :
  negotiate d uuid sc = Ok (c, algorithm) ->
  pref_alg d = Some algorithm \/ algorithm ∈ algorithms.
Proof.
  unfold negotiate.
  destruct (decode (body (req sc))) as [u|]; [|done].
  cbn [mbind result_bind rbind].
  destruct (loads u) as [session_args|]; [|done].
  cbn [mbind result_bind rbind].
  destruct (subscript session_args "offset") as [offset|]; [|done].
  cbn [mbind result_bind rbind].
  destruct (SCCertificate_new uuid offset) as [c'|]; [|done].
  cbn [mbind result_bind rbind].
  destruct (subscript session_args "algorithms") as [algs|]; [|done].
  cbn [mbind result_bind rbind].
  destruct (get_common_algorithm algs (pref_alg d)) as [alg|] eqn:Halg;
    [|done].
  cbn [mbind result_bind rbind]. intros [= _ <-].
  by apply get_common_algorithm_member in Halg.
Qed.

(** X27: which responses [create_session] writes and what it stores, for a
    device whose preferred algorithm, if it has one, is one that [hashlib]
    provides.  There are two ways.  Either the negotiation and the session
    constructor succeeded: then the one response is 200 with the chosen
    algorithm as its text, that algorithm is one [hashlib] provides, and
    the session built from the certificate and the algorithm is stored
    under the uuid.  Or the device is left as it was, and the last response
    written is 401 or 500.  So a session is stored only behind a lone 200.
    Nothing is said of what [create_session] returns or raises: a failure
    of the connection while a response is sent is outside the model. *)
Theorem create_session_outcome (d : BaseDevice) (uuid : string)
    (sc : ServerClient) (clock : Q * Q * Q) :
  (forall p, pref_alg d = Some p -> p ∈ algorithms) ->
  exists r w d',
    create_session d uuid sc clock = (r, w, d')
    /\ ((exists c algorithm s,
           negotiate d uuid sc = Ok (c, algorithm)
           /\ algorithm ∈ algorithms
           /\ SCSession_new c algorithm clock = Ok s
           /\ w = [{| scode := 200; reason := "OK";
                      content_type := Some "text/plain; charset=utf-8";
                      connection := keep_alive sc;
                      content := algorithm |}]
           /\ d' = set_session uuid s d)
        \/ (d' = d
            /\ exists r', last w = Some r'
                          /\ (scode r' = 401 \/ scode r' = 500))).
Proof.
  intros Hpref. unfold create_session.
  destruct (negotiate d uuid sc) as [[c algorithm]|e] eqn:Hneg.
  - assert (algorithm ∈ algorithms) as Hprovided.
    { destruct (negotiate_algorithm d uuid sc c algorithm Hneg); auto. }
    cbn [write_body RESPONSES].
    destruct (SCSession_new c algorithm clock) as [s|e] eqn:Hnew.
    + eexists _, _, _. split; [done|]. left. by exists c, algorithm, s.
    + destruct (except_clauses_answers d sc
                  [{| scode := 200; reason := "OK";
                      content_type := Some "text/plain; charset=utf-8";
                      connection := keep_alive sc;
                      content := algorithm |}] e) as (r & -> & Hr).
      eexists _, _, _. split; [done|]. right. split; [done|].
      exists r. split; [|done]. by rewrite last_snoc.
  - destruct (except_clauses_answers d sc [] e) as (r & -> & Hr).
    eexists _, _, _. split; [done|]. right. split; [done|].
    exists r. split; [|done]. done.
Qed.

(** X28: when the algorithm the device prefers is one that [hashlib]
    provides, a hello request whose body is a JSON object with a usable
    [offset] and a list of [algorithms] that holds that algorithm is
    answered 200 with it, and a session on that algorithm, with the
    identity cipher, is stored under the uuid; the sessions of the other
    uuids are as before. *)
Theorem create_session_prefers_device_algorithm (d : BaseDevice)
    (uuid : string) (sc : ServerClient) (clock : Q * Q * Q) (u : unicode)
    (members : list (string * value)) offset c (algs : list value)
    (p : string) (seg : bytearray) :
  utf8_decode (body (req sc)) = Some u ->
  loads u = Ok (VDict members) ->
  dict_lookup "offset" members = Some offset ->
  SCCertificate_new uuid offset = Ok c ->
  dict_lookup "algorithms" members = Some (VList algs) ->
  pref_alg d = Some p ->
  p ∈ algorithms ->
  VStr p ∈ algs ->
  key_segment c = Ok seg ->
  exists s,
    create_session d uuid sc clock
    = (Ok tt,
       [{| scode := 200; reason := "OK";
           content_type := Some "text/plain; charset=utf-8";
           connection := keep_alive sc;
           content := p |}],
       set_session uuid s d)
    /\ hashtype s = p
    /\ cipher s = range 256
    /\ get_key_segment (cert s) = seg
    /\ (forall other, other <> uuid ->
          sessions (set_session uuid s d) !! other = sessions d !! other).
Proof.
  intros Hu Hv Hoff Hc Halgs Hp Hprovided Hin Hseg.
  assert (contains (VList algs) p = Ok true) as Hcontains.
  { cbn [contains]. f_equal. apply existsb_exists. exists (VStr p).
    split; [by apply list_elem_of_In|]. apply String.eqb_refl. }
  eexists. split; [|split; [|split; [|split]]].
  - unfold create_session, negotiate, decode. rewrite Hu.
    cbn [mbind result_bind rbind]. rewrite Hv.
    cbn [mbind result_bind rbind subscript]. rewrite Hoff.
    cbn [mbind result_bind rbind]. rewrite Hc.
    cbn [mbind result_bind rbind]. rewrite Halgs.
    cbn [mbind result_bind rbind]. unfold get_common_algorithm.
    rewrite Hp, Hcontains. cbn [mbind result_bind rbind].
    cbn [write_body RESPONSES]. unfold SCSession_new. rewrite Hseg.
    cbn [mbind result_bind rbind]. reflexivity.
  - reflexivity.
  - reflexivity.
  - reflexivity.
  - intros other Hne. cbn [set_session sessions].
    by rewrite lookup_insert_ne.
Qed.

End HelloMore.

Section HelloMoreWitnesses.
Import scsession httputil serverclient basedevice doubles.
Local Open Scope string_scope.

Lemma create_session_prefers_device_algorithm_witness :
  exists s,
    create_session (H := mix_hashlib) (H0 := ascii_codec) (H1 := offer_json)
      (H2 := one_segment) a_device "abc" (hello offer) (12, 12, 13)%Q
    = (Ok tt,
       [{| scode := 200; reason := "OK";
           content_type := Some "text/plain; charset=utf-8";
           connection := true;
           content := "sha256" |}],
       set_session "abc" s a_device)
    /\ hashtype s = "sha256"
    /\ cipher s = range 256.
Proof.
  destruct (create_session_prefers_device_algorithm
              (H := mix_hashlib) (H0 := ascii_codec) (H1 := offer_json)
              (H2 := one_segment) a_device "abc" (hello offer)
              (12, 12, 13)%Q (text.encode_ascii offer) offer_members
              (VInt 0) 0%Z [VStr "md5"; VStr "sha256"] "sha256" [7; 1; 250]%Z)
    as (s & Hrun & Hhash & Hcipher & _).
  - vm_compute. reflexivity.
  - vm_compute. reflexivity.
  - reflexivity.
  - reflexivity.
  - reflexivity.
  - reflexivity.
  - apply elem_of_cons. right. apply elem_of_cons. right.
    apply elem_of_cons. by left.
  - apply elem_of_cons. right. apply elem_of_cons. by left.
  - reflexivity.
  - exists s. split; [exact Hrun|]. by split.
Defined.

Lemma create_session_outcome_witness :
  exists r w d',
    create_session (H := mix_hashlib) (H0 := ascii_codec) (H1 := offer_json)
      (H2 := one_segment) a_device "abc" (hello offer) (12, 12, 13)%Q
    = (r, w, d')
    /\ ((exists c algorithm s,
           negotiate (H := mix_hashlib) (H0 := ascii_codec)
             (H1 := offer_json) (H2 := one_segment) a_device "abc"
             (hello offer) = Ok (c, algorithm)
           /\ algorithm ∈ algorithms (Hashlib := mix_hashlib)
           /\ SCSession_new (H := mix_hashlib) (H2 := one_segment)
                c algorithm (12, 12, 13)%Q = Ok s
           /\ w = [{| scode := 200; reason := "OK";
                      content_type := Some "text/plain; charset=utf-8";
                      connection := keep_alive (hello offer);
                      content := algorithm |}]
           /\ d' = set_session "abc" s a_device)
        \/ (d' = a_device
            /\ exists r', last w = Some r'
                          /\ (scode r' = 401 \/ scode r' = 500))).
Proof.
  apply (create_session_outcome (H := mix_hashlib) (H0 := ascii_codec)
           (H1 := offer_json) (H2 := one_segment) a_device "abc"
           (hello offer) (12, 12, 13)%Q).
  intros p [= <-]. apply elem_of_cons. right. apply elem_of_cons. right.
  apply elem_of_cons. by left.
Defined.

End HelloMoreWitnesses.

(** ** The alphabet of names and URLs *)

Section VerifyStr.
Import utils.

Lemma allowed_spec (c : ascii) (blacklist whitelist : option (list ascii)) :
  c ∈ allowed blacklist whitelist
  <-> (c ∈ default_allowed \/ exists more, whitelist = Some more /\ c ∈ more)
      /\ (forall less, blacklist = Some less -> c ∉ less).
Proof.
  unfold allowed. destruct blacklist as [less|], whitelist as [more|];
    rewrite ?list_elem_of_filter, ?elem_of_app.
  - split.
    + intros [Hless [Hd|Hm]]; (split; [eauto|by intros ? [= <-]]).
    + intros [[Hd|(m & [= <-] & Hm)] Hless]; (split; [eauto|]); eauto.
  - split.
    + intros [Hless Hd]. split; [eauto|by intros ? [= <-]].
    + intros [[Hd|(m & [=] & _)] Hless]. split; eauto.
  - split.
    + intros [Hd|Hm]; (split; [eauto|intros ? [=]]).
    + intros [[Hd|(m & [= <-] & Hm)] _]; eauto.
  - split.
    + intros Hd. split; [eauto|intros ? [=]].
    + by intros [[Hd|(m & [=] & _)] _].
Qed.

(** X29: [verify_str] returns exactly when every character of the string
    is a letter, a digit, one of [_.-] or a character of the whitelist, and
    is not in the blacklist: the blacklist wins over the whitelist.
    Otherwise it raises [ValueError]. *)
Theorem verify_str_spec (_str : string)
    (blacklist whitelist : option (list ascii)) :
  (verify_str _str blacklist whitelist = Ok tt
   <-> Forall (fun c =>
                 (c ∈ default_allowed
                  \/ exists more, whitelist = Some more /\ c ∈ more)
                 /\ (forall less, blacklist = Some less -> c ∉ less))
              (list_ascii_of_string _str))
  /\ (verify_str _str blacklist whitelist = Ok tt
      \/ verify_str _str blacklist whitelist = Raise ValueError).
Proof.
  induction _str as [|c _str [IH IH']]; cbn [verify_str list_ascii_of_string].
  - split; [|by left]. split; [constructor|done].
  - rewrite Forall_cons, <- allowed_spec. case_bool_decide as Hc.
    + split; [|done]. rewrite IH. tauto.
    + split; [|by right]. split; [discriminate|tauto].
Qed.

End VerifyStr.

(** ** Events on their way to the dispatcher *)

Section ServiceEvents.
Import services event_dispatcher.
Context {net : Type}.
Variable connect : address -> net -> result unit * net.
Variable send_event_http : bag -> address -> net -> option (bool * net).

Lemma validate_spec (ev : ServiceEvent) (items : list (string * value)) :
  (validate ev items = Ok tt
   <-> Forall (fun kv : string * value =>
                 exists d : ServiceArg,
                   sends ev !! kv.1 = Some d /\ isinstance kv.2 d.2 = true)
              items)
  /\ (validate ev items = Ok tt
      \/ exists msg, validate ev items = Raise (ServiceArgError msg)).
Proof.
  induction items as [|[k v] items [IH IH']]; simpl.
  - split; [|by left]. split; [constructor|done].
  - rewrite Forall_cons. simpl. destruct (sends ev !! k) as [d|] eqn:Hd.
    + destruct (isinstance v d.2) eqn:Hi; simpl.
      * split; [|done]. rewrite IH.
        split; [intros Hall; split; [by exists d|done]|by intros [_ ?]].
      * split; [|eauto]. split; [discriminate|].
        intros [(d' & [= <-] & Hi') _]. congruence.
    + split; [|eauto]. split; [discriminate|]. by intros [(d' & [=] & _) _].
Qed.

(** X30: [Service.send_event] hands an event to the dispatcher only when
    the event URL has subscribers, the event name is one of the service's
    events, and every item supplied is declared by that event with a value
    of the declared type; the event handed over is the items with [name]
    set to the event name.  With subscribers and an unknown event name it
    raises [ValueError], with an undeclared or ill-typed item it raises
    [ServiceArgError], and in both cases the dispatcher and the network are
    untouched.  Without subscribers it returns at once, whatever the event
    name and the items. *)
Theorem Service_send_event_spec (events : gmap string ServiceEvent)
    (event_url : string) (d : EventDispatcher bag) (event_name : string)
    (kwargs : bag) (w : net) :
  match subscribers d !! event_url with
  | None =>
      Service_send_event connect send_event_http events event_url d
        event_name kwargs w
      = Some (Ok tt, d, w)
  | Some _ =>
      match events !! event_name with
      | None =>
          Service_send_event connect send_event_http events event_url d
            event_name kwargs w
          = Some (Raise ValueError, d, w)
      | Some ev =>
          let valid :=
            map_Forall (fun k v =>
                          exists decl : ServiceArg,
                            sends ev !! k = Some decl
                            /\ isinstance v decl.2 = true) kwargs in
          (valid ->
           Service_send_event connect send_event_http events event_url d
             event_name kwargs w
           = send_event connect send_event_http d event_url
               (<["name"%string := VStr event_name]> kwargs) w)
          /\ (~ valid ->
              exists msg,
                Service_send_event connect send_event_http events event_url
                  d event_name kwargs w
                = Some (Raise (ServiceArgError msg), d, w))
      end
  end.
Proof.
  unfold Service_send_event.
  destruct (subscribers d !! event_url) as [subs|]; [|done].
  destruct (events !! event_name) as [ev|]; [|done].
  cbv zeta. rewrite map_Forall_to_list.
  destruct (validate_spec ev (map_to_list kwargs)) as [Hiff Hor].
  assert (forall kv : string * value,
            uncurry (fun (k : string) (v : value) =>
                       exists decl : ServiceArg,
                         sends ev !! k = Some decl
                         /\ isinstance v decl.2 = true) kv
            <-> exists d0 : ServiceArg,
                  sends ev !! kv.1 = Some d0
                  /\ isinstance kv.2 d0.2 = true) as Hsame
    by (by intros [k v]).
  rewrite (Forall_iff _ _ _ Hsame), <- Hiff.
  split.
  - by intros ->.
  - intros Hbad. destruct Hor as [Hok|[msg Hmsg]]; [done|].
    exists msg. by rewrite Hmsg.
Qed.

End ServiceEvents.
